(** * rayder: a shallow embedding of the workflow runner (main.go)

    The development follows the source file top to bottom:

    - [Task], [Config]: the YAML records;
    - [ReplaceAll], [replacePlaceholders]: rendering of [{{name}}] tokens;
    - [flagParse], [parseArgs], [main], [rayder]: the command line prelude;
    - [runTask], [executeCommand]: one task's fail-fast command loop;
    - [step]: an interleaving semantics of the threads of [runAllTasks], in
      which the control thread and the goroutines started for parallel tasks
      take turns;
    - [procStep]: the process, which the Go runtime may stop with a fatal
      error when a write of the unlocked map [taskCompleted] overlaps
      another access to it.

    What lies outside the program is a parameter: the shell ([sh]), the order
    in which the Go runtime ranges over a map ([rangeVars]), the file system,
    the YAML parser and the text the flag package prints.  Strings are byte
    strings, as in Go.

    Every child process ends and reports a status.  A read or a write of a
    shared variable ([taskCompleted], [errorOccurred], the channel, the wait
    group) is one step of a thread, and so is the dependency check of one
    task.  Two accesses to [taskCompleted] overlap when the two threads both
    stand right before them; the runtime may then end the process with
    status 2 ([fatalError]), or the threads go on one after the other. *)

From Stdlib Require Import String Ascii List Arith Lia Bool.
From stdpp Require Import base tactics option list gmap strings fin_maps relations.

(** ** Data model *)

Record Task := mkTask {
  Name : string;
  Cmds : list string;
  Silent : bool;
  Parallel : bool;
  Required : list string
}.

Record Config := mkConfig {
  Vars : gmap string string;
  Usage : string;
  Tasks : list Task
}.

(** [var moduleSyncChan = make(chan struct{}, 1)]: the capacity of the
    buffered channel that gates parallel tasks. *)
Definition moduleSyncCap : nat := 1.

(** ** strings.ReplaceAll

    [replaceFrom old new skip s] scans [s] from the left; [skip] counts the
    bytes of a match that are still to be passed over, so that matches never
    overlap and the scan resumes right after a match. *)
Fixpoint replaceFrom (old new : string) (skip : nat) (s : string) : string :=
  match s with
  | EmptyString => EmptyString
  | String c s' =>
      match skip with
      | S k => replaceFrom old new k s'
      | O =>
          if String.prefix old s
          then new +:+ replaceFrom old new (String.length old - 1) s'
          else String c (replaceFrom old new 0 s')
      end
  end.

(** With an empty [old] Go inserts [new] in front of every UTF-8 sequence
    and at the end; the embedding does so byte-wise.  [replacePlaceholders]
    never gets there: a placeholder has at least four bytes. *)
Fixpoint intersperseNew (new s : string) : string :=
  match s with
  | EmptyString => new
  | String c s' => new +:+ String c (intersperseNew new s')
  end.

Definition ReplaceAll (s old new : string) : string :=
  match old with
  | EmptyString => intersperseNew new s
  | _ => replaceFrom old new 0 s
  end.

(** [fmt.Sprintf("{{%s}}", key)] *)
Definition placeholder (key : string) : string := "{{" +:+ key +:+ "}}".

(** The body of the [for key, value := range vars] loop of
    [replacePlaceholders], run over the entries in the order the runtime
    yields them. *)
Definition replacePlaceholdersIn (entries : list (string * string)) (input : string) : string :=
  fold_left (fun acc kv => ReplaceAll acc (placeholder kv.1) kv.2) entries input.

(** [strings.SplitN(arg, "=", 2)]: [Some (before, after)] when the
    separator occurs (two parts), [None] when it does not (one part). *)
Fixpoint splitEq (arg : string) : option (string * string) :=
  match arg with
  | EmptyString => None
  | String c rest =>
      if Ascii.eqb c "="%char then Some (EmptyString, rest)
      else match splitEq rest with
           | Some (k, v) => Some (String c k, v)
           | None => None
           end
  end.

(** The first loop of [parseArgs]: it stops at the first [usage] argument. *)
Fixpoint scanArgs (args : list string) (variables : gmap string string)
  : bool * gmap string string :=
  match args with
  | [] => (false, variables)
  | arg :: rest =>
      if String.eqb arg "usage" || String.eqb arg "USAGE" then (true, variables)
      else match splitEq arg with
           | Some (k, v) => scanArgs rest (<[k:=v]> variables)
           | None => scanArgs rest variables
           end
  end.

(** The last loop of [parseArgs]: a default is stored only under a key the
    user did not give. *)
Definition applyDefaults (entries : list (string * string)) (variables : gmap string string)
  : gmap string string :=
  fold_left (fun vars kv =>
               match vars !! kv.1 with
               | Some _ => vars
               | None => <[kv.1:=kv.2]> vars
               end) entries variables.

(** The lines [parseArgs] prints when usage is requested. *)
Definition usageLines (defaultVars : gmap string string) (entries : list (string * string))
  : list string :=
  ["Usage:"; default "" (defaultVars !! "USAGE"); ""; "Variables from YAML:"]
  ++ omap (fun kv => if String.eqb kv.1 "USAGE" then None
                     else Some (kv.1 +:+ ": " +:+ kv.2)) entries.

Definition usageLine : string :=
  "Usage: rayder -w workflow.yaml [variable assignments e.g. DOMAIN=example.host]".

(** The banner, without the drawing. *)
Definition banner : string := "rayder - v0.0.4".

(** How the prelude of [main] ends: the process exits with a status after
    printing lines on stderr, or [runAllTasks] is entered. *)
Inductive Prelude :=
| Exited (status : nat) (stderr : list string)
| Proceed (stderr : list string) (config : Config) (variables : gmap string string).

(** Events of a run, newest first in a trace.  The number is the position of
    the task in [config.Tasks]; names need not be unique.  [EvSkip],
    [EvRunning], [EvCompleted], [EvErrored] and [EvSummary] are the lines
    printed on stderr, the others mark steps that print nothing. *)
Inductive Event :=
| EvSkip (i : nat)
| EvDispatch (i : nat)
| EvSpawn (i : nat)
| EvRunning (i : nat)
| EvCmdStart (i : nat) (cmdStr : string)
| EvCmdEnd (i : nat) (ok : bool)
| EvCompleted (i : nat)
| EvErrored (i : nat)
| EvMark (i : nat) (name : string)
| EvRelease (i : nat)
| EvWgDone (i : nat)
| EvSummary (ok : bool).

Global Instance Event_eq_dec : EqDecision Event.
Proof. solve_decision. Defined.

(** The commands started in a trace, oldest first, and the outcomes of the
    commands that ended. *)
Fixpoint startedCmds (tr : list Event) : list string :=
  match tr with
  | [] => []
  | EvCmdStart _ cmdStr :: rest => startedCmds rest ++ [cmdStr]
  | _ :: rest => startedCmds rest
  end.

Fixpoint cmdResults (tr : list Event) : list bool :=
  match tr with
  | [] => []
  | EvCmdEnd _ ok :: rest => cmdResults rest ++ [ok]
  | _ :: rest => cmdResults rest
  end.

(** What one run of the loop of [runTask] adds to the trace. *)
Definition LoopAdds (i : nat) (new : list Event) (started : list string) (results : list bool) : Prop :=
  startedCmds new = started /\ cmdResults new = results
  /\ (EvCompleted i ∉ new) /\ (EvRunning i ∉ new).

(** The dependency check at the head of the loop of [runAllTasks]:
    [taskCompleted[req]] reads [false] for a missing key. *)
Fixpoint allRequiredCompleted (required : list string) (taskCompleted : gmap string bool) : bool :=
  match required with
  | [] => true
  | req :: rest =>
      if default false (taskCompleted !! req)
      then allRequiredCompleted rest taskCompleted
      else false
  end.

(** The guard [len(task.Required) > 0] and the loop.  The record only
    grows, so the loop of reads decides as one check of the record at its
    last read would; it is one step of the control thread. *)
Definition dependencyGate (task : Task) (taskCompleted : gmap string bool) : bool :=
  if 0 <? length (Required task)
  then allRequiredCompleted (Required task) taskCompleted
  else true.

(** ** Command templates

    A command written as plain text with [{{name}}] tokens in it.  The
    theorems on rendering are stated for such commands; [flatten] gives the
    command string the program sees. *)
Definition isBrace (c : ascii) : bool := Ascii.eqb c "{" || Ascii.eqb c "}".

Fixpoint braceFree (s : string) : bool :=
  match s with
  | EmptyString => true
  | String c rest => negb (isBrace c) && braceFree rest
  end.

Fixpoint noOpen (s : string) : bool :=
  match s with
  | EmptyString => true
  | String c rest => negb (Ascii.eqb c "{") && noOpen rest
  end.

Inductive Seg :=
| Text (s : string)
| Tok (name : string).

Definition segString (seg : Seg) : string :=
  match seg with
  | Text s => s
  | Tok name => placeholder name
  end.

Fixpoint flatten (t : list Seg) : string :=
  match t with
  | [] => EmptyString
  | seg :: rest => segString seg +:+ flatten rest
  end.

Definition segOk (seg : Seg) : bool :=
  match seg with
  | Text s => braceFree s
  | Tok name => braceFree name
  end.

(** Text and token names are free of braces. *)
Definition wellFormed (t : list Seg) : bool := forallb segOk t.

(** Names and values of an environment are free of braces. *)
Definition envOk (entries : list (string * string)) : bool :=
  forallb (fun kv => braceFree kv.1 && braceFree kv.2) entries.

(** One round of the loop of [replacePlaceholders], on a template. *)
Definition substSeg (key value : string) (seg : Seg) : Seg :=
  match seg with
  | Tok name => if String.eqb name key then Text value else Tok name
  | Text s => Text s
  end.

Definition substAll (entries : list (string * string)) (t : list Seg) : list Seg :=
  fold_left (fun acc kv => map (substSeg kv.1 kv.2) acc) entries t.

(** A token is rendered with the value the environment [m] binds it to. *)
Definition resolveSeg (m : gmap string string) (seg : Seg) : Seg :=
  match seg with
  | Tok name => match m !! name with Some v => Text v | None => Tok name end
  | Text s => Text s
  end.

(** The value the command line gives to [X]: that of the last argument
    [X=value], if there is one. *)
Fixpoint overrideOf (X : string) (args : list string) : option string :=
  match args with
  | [] => None
  | arg :: rest =>
      match overrideOf X rest with
      | Some v => Some v
      | None =>
          match splitEq arg with
          | Some (k, v) => if String.eqb k X then Some v else None
          | None => None
          end
      end
  end.

(** A token is rendered with the override, else with the default, else it
    stays as it is. *)
Definition resolveToken (args : list string) (defaults : gmap string string) (seg : Seg) : Seg :=
  match seg with
  | Text s => Text s
  | Tok X =>
      match overrideOf X args with
      | Some v => Text v
      | None =>
          match defaults !! X with
          | Some v => Text v
          | None => Tok X
          end
      end
  end.

(** [occurs pat s]: [pat] is a substring of [s]. *)
Fixpoint occurs (pat s : string) : bool :=
  String.prefix pat s
  || match s with
     | EmptyString => false
     | String _ rest => occurs pat rest
     end.

(** No value of the environment contains the token of a bound name. *)
Definition tokenFree (entries : list (string * string)) : bool :=
  forallb (fun kv => forallb (fun kv' => negb (occurs (placeholder kv'.1) kv.2)) entries) entries.

(** ** Threads of [runAllTasks]

    [Phase] is the program point of a thread inside [runTask] and the
    statements that follow its return; the control thread (sequential tasks)
    and the goroutines (parallel tasks) go through the same phases. *)
Inductive Phase :=
| PStart                                         (* runTask entered *)
| PRun (rest : list string)                      (* head of the loop over cmds *)
| PCmd (rendered : string) (rest : list string)  (* execCmd.Run() in flight *)
| PFail                                          (* runTask returned an error *)
| PMark.                                         (* before taskCompleted[name] = true *)

(** A goroutine runs the body, then the deferred function: the receive from
    [moduleSyncChan], then [wg.Done()]. *)
Inductive GoPc :=
| GBody (ph : Phase)
| GRelease
| GWgDone.

(** The control thread: at the head of the loop before task [i] (past the
    last task this is [wg.Wait()]), blocked in the send on [moduleSyncChan],
    inside a sequential task, or gone with an exit status. *)
Inductive MainPc :=
| MLoop (i : nat)
| MSend (i : nat) (t : Task)
| MTask (i : nat) (t : Task) (ph : Phase)
| MExit (status : nat).

Inductive Tid :=
| TMain
| TGo (i : nat).

(** ** Traces

    The position of the task an event belongs to. *)
Definition evIdx (e : Event) : option nat :=
  match e with
  | EvSkip i | EvDispatch i | EvSpawn i | EvRunning i | EvCmdStart i _ | EvCmdEnd i _
  | EvCompleted i | EvErrored i | EvMark i _ | EvRelease i | EvWgDone i => Some i
  | EvSummary _ => None
  end.

(** The newest event of task [j]. *)
Fixpoint lastOf (j : nat) (tr : list Event) : option Event :=
  match tr with
  | [] => None
  | e :: rest => if decide (evIdx e = Some j) then Some e else lastOf j rest
  end.

(** The completion record after the writes of a trace. *)
Fixpoint recordOf (tr : list Event) : gmap string bool :=
  match tr with
  | [] => ∅
  | EvMark _ name :: rest => <[name:=true]> (recordOf rest)
  | _ :: rest => recordOf rest
  end.

Definition isErrored (e : Event) : bool :=
  match e with
  | EvErrored _ => true
  | _ => false
  end.

(** The events that delimit the execution of a command of task [j]. *)
Definition isCmdEvent (j : nat) (e : Event) : bool :=
  match e with
  | EvCmdStart k _ | EvCmdEnd k _ => k =? j
  | _ => false
  end.

(** The control thread has left task [t] when its newest event is [prev]. *)
Definition mainLeft (t : Task) (prev : option Event) : bool :=
  match prev with
  | Some (EvSkip _) | Some (EvSpawn _) | Some (EvMark _ _)
  | Some (EvRelease _) | Some (EvWgDone _) => true
  | Some (EvRunning _) | Some (EvCmdStart _ _) | Some (EvCmdEnd _ _)
  | Some (EvCompleted _) | Some (EvErrored _) => Parallel t
  | _ => false
  end.

(** How far an event lies in the life of a task. *)
Definition stage (e : Event) : nat :=
  match e with
  | EvSkip _ => 0
  | EvDispatch _ => 1
  | EvSpawn _ => 2
  | EvRunning _ => 3
  | EvCmdStart _ _ | EvCmdEnd _ _ => 4
  | EvCompleted _ | EvErrored _ => 5
  | EvMark _ _ => 6
  | EvRelease _ => 7
  | EvWgDone _ => 8
  | EvSummary _ => 9
  end.

(** [okAfter t prev e]: in the life of task [t], event [e] may come right
    after [prev]. *)
Definition okAfter (t : Task) (prev : option Event) (e : Event) : bool :=
  match e, prev with
  | EvSkip _, None => true
  | EvDispatch _, None => true
  | EvSpawn _, Some (EvDispatch _) => Parallel t
  | EvRunning _, Some (EvDispatch _) => negb (Parallel t)
  | EvRunning _, Some (EvSpawn _) => true
  | EvCmdStart _ _, Some (EvRunning _) => true
  | EvCmdStart _ _, Some (EvCmdEnd _ true) => true
  | EvCmdEnd _ _, Some (EvCmdStart _ _) => true
  | EvCompleted _, Some (EvRunning _) => true
  | EvCompleted _, Some (EvCmdEnd _ true) => true
  | EvErrored _, Some (EvCmdEnd _ false) => true
  | EvMark _ name, Some (EvCompleted _) => bool_decide (name = Name t)
  | EvMark _ name, Some (EvErrored _) => bool_decide (name = Name t)
  | EvRelease _, Some (EvMark _ _) => Parallel t
  | EvWgDone _, Some (EvRelease _) => true
  | _, _ => false
  end.

(** What else must hold of the older trace [rest] when [e] is added: the
    gate decides on the record as it is, after the control thread has left
    all earlier tasks; a goroutine is started only when every goroutine
    started before has given its slot back. *)
Definition okGlobal (tasks : list Task) (rest : list Event) (e : Event) : bool :=
  match e with
  | EvSkip j | EvDispatch j =>
      match tasks !! j with
      | Some t =>
          bool_decide (dependencyGate t (recordOf rest)
                       = match e with EvSkip _ => false | _ => true end)
          && forallb (fun i => match tasks !! i with
                               | Some ti => mainLeft ti (lastOf i rest)
                               | None => false
                               end) (seq 0 j)
      | None => false
      end
  | EvSpawn _ =>
      forallb (fun e' => match e' with
                         | EvSpawn i => bool_decide (EvRelease i ∈ rest)
                         | _ => true
                         end) rest
  | _ => true
  end.

(** Event [e] may be added to the trace [rest]. *)
Definition okNext (tasks : list Task) (rest : list Event) (e : Event) : bool :=
  match evIdx e with
  | Some j =>
      match tasks !! j with
      | Some t => okAfter t (lastOf j rest) e && okGlobal tasks rest e
      | None => false
      end
  | None => true
  end.

(** The traces the program can produce ([EvSummary] apart). *)
Fixpoint wfTrace (tasks : list Task) (tr : list Event) : bool :=
  match tr with
  | [] => true
  | e :: rest => okNext tasks rest e && wfTrace tasks rest
  end.

(** Where the control thread stands with respect to task [j]. *)
Definition mainAt (j : nat) (pc : MainPc) : option (Task * option Phase) :=
  match pc with
  | MSend i t => if decide (i = j) then Some (t, None) else None
  | MTask i t ph => if decide (i = j) then Some (t, Some ph) else None
  | _ => None
  end.

(** The thread that runs the body of task [t] is in phase [ph]. *)
Definition inBody (t : Task) (ph : Phase)
  (m : option (Task * option Phase)) (g : option (Task * GoPc)) : Prop :=
  if Parallel t then m = None /\ g = Some (t, GBody ph)
  else m = Some (t, Some ph) /\ g = None.

(** The state of the threads of task [t] when its newest event is [e]. *)
Definition Local (t : Task) (e : Event)
  (m : option (Task * option Phase)) (g : option (Task * GoPc)) : Prop :=
  match e with
  | EvSkip _ => m = None /\ g = None
  | EvDispatch _ => m = Some (t, if Parallel t then None else Some PStart) /\ g = None
  | EvSpawn _ => Parallel t = true /\ m = None /\ g = Some (t, GBody PStart)
  | EvRunning _ => inBody t (PRun (Cmds t)) m g
  | EvCmdStart _ rendered => exists rest, inBody t (PCmd rendered rest) m g
  | EvCmdEnd _ true => exists rest, inBody t (PRun rest) m g
  | EvCmdEnd _ false => inBody t PFail m g
  | EvCompleted _ | EvErrored _ => inBody t PMark m g
  | EvMark _ _ => m = None /\ g = (if Parallel t then Some (t, GRelease) else None)
  | EvRelease _ => m = None /\ g = Some (t, GWgDone)
  | EvWgDone _ => m = None /\ g = None
  | EvSummary _ => False
  end.

(** The number of tasks the control thread has taken a decision on. *)
Definition mainPos (tasks : list Task) (pc : MainPc) : nat :=
  match pc with
  | MLoop i => i
  | MSend i _ | MTask i _ _ => S i
  | MExit _ => length tasks
  end.

(** A bound on the steps a thread still takes. *)
Definition phaseWeight (t : Task) (ph : Phase) : nat :=
  match ph with
  | PStart => 2 * length (Cmds t) + 4
  | PRun rest => 2 * length rest + 3
  | PCmd _ rest => 2 * length rest + 4
  | PFail => 2
  | PMark => 1
  end.

(** A goroutine still has the deferred function to run. *)
Definition goWeight (tg : Task * GoPc) : nat :=
  match tg.2 with
  | GBody ph => phaseWeight tg.1 ph + 2
  | GRelease => 2
  | GWgDone => 1
  end.

(** A task not yet looked at: the gate, the send, the body, the deferred
    function. *)
Definition taskWeight (t : Task) : nat := 2 * length (Cmds t) + 8.

Definition restWeight (tasks : list Task) (i : nat) : nat :=
  foldr (fun t acc => taskWeight t + acc) 0 (drop i tasks).

Definition mainWeight (tasks : list Task) (pc : MainPc) : nat :=
  match pc with
  | MLoop i => 1 + restWeight tasks i
  | MSend i t => 2 * length (Cmds t) + 8 + restWeight tasks (S i)
  | MTask i t ph => phaseWeight t ph + 1 + restWeight tasks (S i)
  | MExit _ => 0
  end.

Definition gosWeight (gs : gmap nat (Task * GoPc)) : nat :=
  map_fold (fun _ tg acc => goWeight tg + acc) 0 gs.

(** A goroutine holds a slot of [moduleSyncChan] until its receive. *)
Definition holdsSlot (pc : GoPc) : bool :=
  match pc with
  | GWgDone => false
  | _ => true
  end.

(** The slot of [moduleSyncChan] is taken exactly when some goroutine
    holds it, and then by that one alone. *)
Definition SlotInv (c : nat) (gs : gmap nat (Task * GoPc)) : Prop :=
  exists h : option nat,
    c = match h with Some _ => 1 | None => 0 end
    /\ (forall i t pc, gs !! i = Some (t, pc) -> holdsSlot pc = true -> h = Some i)
    /\ (forall i, h = Some i -> exists t pc, gs !! i = Some (t, pc) /\ holdsSlot pc = true).

(** The newest event of a task whose thread is in phase [ph]. *)
Definition PhaseEv (t : Task) (ph : Phase) (prev : Event) : Prop :=
  match prev, ph with
  | EvDispatch _, PStart => Parallel t = false
  | EvSpawn _, PStart => True
  | EvRunning _, PRun rest => rest = Cmds t
  | EvCmdStart _ c, PCmd c' _ => c = c'
  | EvCmdEnd _ true, PRun _ => True
  | EvCmdEnd _ false, PFail => True
  | EvCompleted _, PMark | EvErrored _, PMark => True
  | _, _ => False
  end.

(** A shell for the examples: the world is the list of the commands run so
    far (newest first), and a command fails when it starts with [false]. *)
Definition demoWorld : Type := list string.

Definition demoRange (_ : demoWorld) (m : gmap string string) : list (string * string) :=
  map_to_list m.

Definition demoSh (cmdStr : string) (_ : bool) (w : demoWorld) : demoWorld * bool :=
  (cmdStr :: w, String.prefix "false" cmdStr).

Definition demoReadFile (_ : demoWorld) (_ : string) : option string := None.

Definition demoYaml (_ : string) : option Config := None.

Definition demoReadError (_ : demoWorld) (path : string) : string :=
  "open " +:+ path +:+ ": no such file or directory".

Definition demoYamlError (_ : string) : string := "yaml: unmarshal errors".

(** Workflows for the examples: the chain A, B, C of the specification
    (B fails), two parallel tasks, a parallel task followed by a sequential
    one, a task that requires an undeclared name with a dependent, and two
    tasks of the same name. *)
Definition taskA : Task := mkTask "A" ["true"] false false [].
Definition taskB : Task := mkTask "B" ["false"] false false ["A"].
Definition taskC : Task := mkTask "C" ["echo hi"] false false ["B"].
Definition chainWorkflow : Config := mkConfig ∅ "" [taskA; taskB; taskC].

Definition taskP : Task := mkTask "P" ["echo p1"; "echo p2"] false true [].
Definition taskQ : Task := mkTask "Q" ["echo q1"] false true [].
Definition parallelWorkflow : Config := mkConfig ∅ "" [taskP; taskQ].
Definition parallelSchedule : list Tid :=
  [TMain; TMain; TMain] ++ replicate 8 (TGo 0) ++ [TMain; TGo 0]
  ++ replicate 7 (TGo 1) ++ [TMain].

Definition overlapWorkflow : Config := mkConfig ∅ "" [taskP; taskA].
Definition overlapSchedule : list Tid :=
  [TMain; TMain; TMain; TGo 0; TMain; TGo 0; TMain; TGo 0; TMain].

Definition taskS : Task := mkTask "S" ["echo s"] false false ["Z"].
Definition taskD : Task := mkTask "D" ["echo d"] false false ["S"].
Definition skipWorkflow : Config := mkConfig ∅ "" [taskS; taskD].

Definition taskA1 : Task := mkTask "A" ["echo first"] false false ["X"].
Definition taskA2 : Task := mkTask "A" ["echo second"] false false [].
Definition taskE : Task := mkTask "E" ["echo e"] false false ["A"].
Definition dupWorkflow : Config := mkConfig ∅ "" [taskA1; taskA2; taskE].

(** Environments and commands for the examples on rendering. *)
Definition siteDefaults : gmap string string :=
  <["DOMAIN":="localhost"]> (<["PAGE":="index"]> ∅).
Definition siteArgs : list string := ["DOMAIN=example.host"; "verbose"].
Definition siteCommand : list Seg :=
  [Text "curl "; Tok "DOMAIN"; Text "/"; Tok "PAGE"; Text " "; Tok "UNKNOWN"].

Definition chainedDefaults : gmap string string :=
  <["OUT":="{{BASE}}/out"]> (<["BASE":="/tmp"]> ∅).

Definition nestedVars : gmap string string := <["X":="Y"]> (<["Y":="Z"]> ∅).


(** ** Further notions for the properties of the prelude *)

(** No byte of [s] is the separator [=]. *)
Fixpoint noEq (s : string) : bool :=
  match s with
  | EmptyString => true
  | String c rest => negb (Ascii.eqb c "="%char) && noEq rest
  end.

(** Some argument is [usage] or [USAGE]. *)
Definition usageRequested (args : list string) : bool :=
  existsb (fun arg => String.eqb arg "usage" || String.eqb arg "USAGE") args.

(** The lines [main] prints first: the banner unless [-q] is given. *)
Definition bannerLines (quietMode : bool) : list string :=
  if quietMode then [] else [banner].

(** ** The commands of one task

    The commands a thread inside [runTask] has still to start. *)
Definition phaseRest (ph : Phase) : option (list string) :=
  match ph with
  | PRun rest | PCmd _ rest => Some rest
  | _ => None
  end.

(** The command strings started for task [i], oldest first. *)
Fixpoint startedOf (i : nat) (tr : list Event) : list string :=
  match tr with
  | [] => []
  | EvCmdStart k cmdStr :: rest =>
      if decide (k = i) then startedOf i rest ++ [cmdStr] else startedOf i rest
  | _ :: rest => startedOf i rest
  end.

Definition goRest (j : nat) (gs : gmap nat (Task * GoPc)) : option (list string) :=
  match gs !! j with
  | Some (_, GBody ph) => phaseRest ph
  | _ => None
  end.

Definition isSummary (e : Event) : bool :=
  match e with
  | EvSummary _ => true
  | _ => false
  end.

(** Inputs for the examples on the prelude: a workflow file that can be
    read and parsed. *)
Definition siteTask : Task := mkTask "fetch" ["curl {{DOMAIN}}/{{PAGE}}"] false false [].
Definition siteWorkflow : Config := mkConfig siteDefaults "" [siteTask].

Definition siteReadFile (_ : demoWorld) (path : string) : option string :=
  if String.eqb path "site.yaml" then Some "modules: fetch" else None.

Definition siteYaml (content : string) : option Config :=
  if String.eqb content "modules: fetch" then Some siteWorkflow else None.

(** A parallel task whose first command fails, followed by a sequential
    task. *)
Definition taskF : Task := mkTask "F" ["false"; "echo never"] false true [].
Definition failingParallel : Config := mkConfig ∅ "" [taskF; taskA].
Definition failingSchedule : list Tid :=
  [TMain; TMain] ++ replicate 7 (TGo 0) ++ replicate 7 TMain.

(** ** flag.Parse

    [main] declares two flags, [-w] (a string, empty by default) and [-q]
    (a boolean, false by default), and calls [flag.Parse()] on the command
    line.  The flag package reads the arguments from the left: an argument
    shorter than two bytes or not starting with [-] ends the flags and is
    the first positional argument; [--] ends the flags and is dropped; a
    flag is written with one or two minus signs, [-name], [-name=value] or,
    when it is not boolean, [-name value].  With [flag.ExitOnError] the
    process exits with status 2 on a command line the package rejects, and
    with status 0 after [-h] or [-help]. *)

(** [strconv.ParseBool] *)
Definition parseBool (s : string) : option bool :=
  if existsb (String.eqb s) ["1"; "t"; "T"; "TRUE"; "true"; "True"] then Some true
  else if existsb (String.eqb s) ["0"; "f"; "F"; "FALSE"; "false"; "False"] then Some false
  else None.

(** Why the flag package rejects a command line. *)
Inductive FlagFault :=
| BadSyntax (arg : string)                (* bad flag syntax *)
| NotDefined (name : string)              (* flag provided but not defined *)
| NeedsArgument (name : string)           (* flag needs an argument *)
| InvalidBoolean (value name : string).   (* invalid boolean value *)

Inductive FlagOutcome :=
| FlagsParsed (taskFile : string) (quietMode : bool) (args : list string)
| FlagsHelp
| FlagsRejected (fault : FlagFault).

Inductive ArgKind :=
| Positional
| Terminator
| FlagBody (body : string).

(** What the package makes of one argument; [FlagBody] carries what follows
    the minus signs. *)
Definition argKind (s : string) : ArgKind :=
  match s with
  | String a (String c rest) =>
      if Ascii.eqb a "-"
      then if Ascii.eqb c "-"
           then match rest with
                | EmptyString => Terminator
                | _ => FlagBody rest
                end
           else FlagBody (String c rest)
      else Positional
  | _ => Positional
  end.

(** A flag may not start with a third minus sign or with [=]. *)
Definition badStart (body : string) : bool :=
  match body with
  | EmptyString => true
  | String c _ => Ascii.eqb c "-" || Ascii.eqb c "="
  end.

(** The name and the value of [name=value]: the package looks for [=] from
    the second byte of the flag on. *)
Definition flagNameValue (body : string) : string * option string :=
  match body with
  | EmptyString => (EmptyString, None)
  | String c rest =>
      match splitEq rest with
      | Some (k, v) => (String c k, Some v)
      | None => (body, None)
      end
  end.

Fixpoint flagLoop (args : list string) (taskFile : string) (quietMode : bool) : FlagOutcome :=
  match args with
  | [] => FlagsParsed taskFile quietMode []
  | s :: rest =>
      match argKind s with
      | Positional => FlagsParsed taskFile quietMode (s :: rest)
      | Terminator => FlagsParsed taskFile quietMode rest
      | FlagBody body =>
          if badStart body then FlagsRejected (BadSyntax s)
          else
            let '(name, value) := flagNameValue body in
            if String.eqb name "w" then
              match value with
              | Some v => flagLoop rest v quietMode
              | None =>
                  match rest with
                  | v :: rest' => flagLoop rest' v quietMode
                  | [] => FlagsRejected (NeedsArgument name)
                  end
              end
            else if String.eqb name "q" then
              match value with
              | Some v =>
                  match parseBool v with
                  | Some b => flagLoop rest taskFile b
                  | None => FlagsRejected (InvalidBoolean v name)
                  end
              | None => flagLoop rest taskFile true
              end
            else if String.eqb name "help" || String.eqb name "h" then FlagsHelp
            else FlagsRejected (NotDefined name)
      end
  end.

(** [flag.Parse()] on [os.Args[1:]]. *)
Definition flagParse (argv : list string) : FlagOutcome := flagLoop argv "" false.

(** No argument of the command line is the flag [-w]. *)
Definition isWorkflowFlag (s : string) : bool :=
  match argKind s with
  | FlagBody body => String.eqb (flagNameValue body).1 "w"
  | _ => false
  end.

Definition noWorkflowFlag (argv : list string) : bool :=
  forallb (fun s => negb (isWorkflowFlag s)) argv.

(** ** Unsynchronised accesses to [taskCompleted]

    A goroutine stands at its write [taskCompleted[name] = true]
    (line 189). *)
Definition atWrite (tg : Task * GoPc) : bool :=
  match tg.2 with
  | GBody PMark => true
  | _ => false
  end.

Definition goWriters (gs : gmap nat (Task * GoPc)) : nat :=
  length (List.filter (fun kv => atWrite kv.2) (map_to_list gs)).

(** The messages of the two fatal errors of the Go runtime on a map. *)
Definition fatalReadWrite : string := "fatal error: concurrent map read and map write".
Definition fatalWrites : string := "fatal error: concurrent map writes".

(** Workflows in which a parallel task is followed by a task that requires
    it, and the schedules that bring the goroutine to its write while the
    control thread is at the dependency check of the next task. *)
Definition taskT : Task := mkTask "T" ["echo t"] false false ["P"].
Definition raceWorkflow : Config := mkConfig ∅ "" [taskP; taskT].
Definition raceThreads : list Tid := [TMain; TMain] ++ replicate 6 (TGo 0).

Definition taskG : Task := mkTask "G" ["echo g"] false false ["F"].
Definition abortWorkflow : Config := mkConfig ∅ "" [taskF; taskG; taskA].
Definition abortThreads : list Tid := [TMain; TMain] ++ replicate 4 (TGo 0).

(** The flag package's output in the examples. *)
Definition demoFlagOutput (argv : list string) : list string := ["Usage of rayder:"].

Section Rayder.

(** The state of everything outside the program. *)
Variable World : Type.

(** The order in which [range] yields the entries of a map; Go leaves it
    unspecified, so it may depend on the hidden state of the runtime. *)
Variable rangeVars : World -> gmap string string -> list (string * string).
Hypothesis rangeVars_perm : forall w m, rangeVars w m ≡ₚ map_to_list m.

(** [exec.Command("sh", "-c", cmdStr).Run()] with the given [silent] flag:
    the new world, and whether [Run] returned an error. *)
Variable sh : string -> bool -> World -> World * bool.

(** [ioutil.ReadFile] and [yaml.Unmarshal] into a [Config]; when they fail,
    [readFileError] and [yamlError] are the texts of the errors they return. *)
Variable readFile : World -> string -> option string.
Variable yamlUnmarshal : string -> option Config.
Variable readFileError : World -> string -> string.
Variable yamlError : string -> string.

Definition replacePlaceholders (w : World) (input : string) (vars : gmap string string) : string :=
  replacePlaceholdersIn (rangeVars w vars) input.

Definition parseArgs (w : World) (defaultVars : gmap string string) (args : list string)
  : list string + gmap string string :=
  let '(usageRequested, variables) := scanArgs args ∅ in
  if usageRequested
  then inl (usageLines defaultVars (rangeVars w defaultVars))
  else inr (applyDefaults (rangeVars w defaultVars) variables).

(** [main] from the banner (line 55) up to the call of [runAllTasks];
    [taskFile], [quietMode] and [args] are what [flag.Parse] left in [-w],
    [-q] and [flag.Args()].  [rayder] below is the whole of [func main],
    [flag.Parse] included. *)
Definition main (w : World) (taskFile : string) (quietMode : bool) (args : list string) : Prelude :=
  let out := if quietMode then [] else [banner] in
  let defaultVars :=
    match readFile w taskFile with
    | Some content =>
        match yamlUnmarshal content with
        | Some config => Vars config
        | None => ∅
        end
    | None => ∅
    end in
  match parseArgs w defaultVars args with
  | inl lines => Exited 0 (out ++ lines)
  | inr variables =>
      if String.eqb taskFile ""
      then Exited 0 (out ++ [usageLine])
      else match readFile w taskFile with
           | None =>
               Exited 1 (out ++ ["Error reading workflow file: "
                                 +:+ readFileError w taskFile])
           | Some content =>
               match yamlUnmarshal content with
               | None =>
                   Exited 1 (out ++ ["Error unmarshaling YAML: " +:+ yamlError content])
               | Some config => Proceed out config variables
               end
           end
  end.

(** [executeCommand]: [true] stands for a non-nil error. *)
Definition executeCommand (cmdStr : string) (silent : bool) (vars : gmap string string)
  (w : World) : World * bool :=
  sh (replacePlaceholders w cmdStr vars) silent w.

(** The loop of [runTask] with its [break]: the world, the events (newest
    first) and [hasError]. *)
Fixpoint runCmds (i : nat) (cmds : list string) (silent : bool) (vars : gmap string string)
  (w : World) (tr : list Event) : World * list Event * bool :=
  match cmds with
  | [] => (w, tr, false)
  | cmd :: rest =>
      let rendered := replacePlaceholders w cmd vars in
      let '(w1, err) := executeCommand cmd silent vars w in
      let tr1 := EvCmdEnd i (negb err) :: EvCmdStart i rendered :: tr in
      if err then (w1, tr1, true) else runCmds i rest silent vars w1 tr1
  end.

(** [runTask] for the task at position [i]: [true] stands for the error it
    returns; the line [completed] is printed on success only. *)
Definition runTask (i : nat) (cmds : list string) (silent : bool) (vars : gmap string string)
  (w : World) (tr : list Event) : World * list Event * bool :=
  let '(w1, tr1, hasError) := runCmds i cmds silent vars w (EvRunning i :: tr) in
  if hasError then (w1, tr1, true) else (w1, EvCompleted i :: tr1, false).

(** When every command of [cmds] exits with status zero, run one after the
    other from [w]: the world at the end. *)
Fixpoint succeedAll (cmds : list string) (silent : bool) (vars : gmap string string)
  (w : World) : option World :=
  match cmds with
  | [] => Some w
  | cmd :: rest =>
      let '(w1, err) := executeCommand cmd silent vars w in
      if err then None else succeedAll rest silent vars w1
  end.

(** The rendered strings of [cmds] when they are run one after the other. *)
Fixpoint renderedRun (cmds : list string) (silent : bool) (vars : gmap string string)
  (w : World) : list string :=
  match cmds with
  | [] => []
  | cmd :: rest =>
      replacePlaceholders w cmd vars
      :: renderedRun rest silent vars (executeCommand cmd silent vars w).1
  end.

(** ** The state of a run *)
Record State := mkState {
  mainPc : MainPc;
  gos : gmap nat (Task * GoPc);
  taskCompleted : gmap string bool;
  errorOccurred : bool;
  chanLen : nat;
  wgCount : nat;
  world : World;
  trace : list Event
}.

Definition initState (w : World) : State :=
  mkState (MLoop 0) ∅ ∅ false 0 0 w [].

Definition setMain (pc : MainPc) (s : State) : State :=
  mkState pc (gos s) (taskCompleted s) (errorOccurred s) (chanLen s) (wgCount s) (world s) (trace s).

Definition setGo (i : nat) (g : option (Task * GoPc)) (s : State) : State :=
  mkState (mainPc s) (match g with Some tg => <[i:=tg]> (gos s) | None => delete i (gos s) end)
    (taskCompleted s) (errorOccurred s) (chanLen s) (wgCount s) (world s) (trace s).

Definition setWorld (w : World) (s : State) : State :=
  mkState (mainPc s) (gos s) (taskCompleted s) (errorOccurred s) (chanLen s) (wgCount s) w (trace s).

Definition setError (s : State) : State :=
  mkState (mainPc s) (gos s) (taskCompleted s) true (chanLen s) (wgCount s) (world s) (trace s).

Definition markCompleted (name : string) (s : State) : State :=
  mkState (mainPc s) (gos s) (<[name:=true]> (taskCompleted s)) (errorOccurred s)
    (chanLen s) (wgCount s) (world s) (trace s).

Definition setSync (c wg : nat) (s : State) : State :=
  mkState (mainPc s) (gos s) (taskCompleted s) (errorOccurred s) c wg (world s) (trace s).

Definition pushEvent (e : Event) (s : State) : State :=
  mkState (mainPc s) (gos s) (taskCompleted s) (errorOccurred s) (chanLen s) (wgCount s)
    (world s) (e :: trace s).

(** One step of a thread inside a task: the event, the next phase ([None]
    once [taskCompleted] is written) and the shared state.  The write at
    [PMark] is made without a lock (lines 189 and 198); when it overlaps
    another access the runtime may stop the process instead, which is
    [fatalError] in [procStep]. *)
Definition bodyStep (vars : gmap string string) (i : nat) (t : Task) (ph : Phase) (s : State)
  : Event * option Phase * State :=
  match ph with
  | PStart => (EvRunning i, Some (PRun (Cmds t)), s)
  | PRun [] => (EvCompleted i, Some PMark, s)
  | PRun (cmd :: rest) =>
      let rendered := replacePlaceholders (world s) cmd vars in
      (EvCmdStart i rendered, Some (PCmd rendered rest), s)
  | PCmd rendered rest =>
      let '(w1, err) := sh rendered (Silent t) (world s) in
      (EvCmdEnd i (negb err), Some (if err then PFail else PRun rest), setWorld w1 s)
  | PFail => (EvErrored i, Some PMark, setError s)
  | PMark => (EvMark i (Name t), None, markCompleted (Name t) s)
  end.

(** One step of the control thread in [runAllTasks]:
    - at the head of the loop the dependency check, then [continue] or the
      dispatch; past the last task [wg.Wait()], which waits for the counter
      to be zero, and the two ways out, [os.Exit(1)] or the return;
    - the send on [moduleSyncChan], which waits for room, together with
      [wg.Add(1)] and the [go] statement;
    - inside a sequential task, [runTask] and the statements after it.
    The dependency check reads [taskCompleted] without a lock (line 159);
    when a goroutine stands at its write the runtime may stop the process
    instead of this step, which is [fatalError] in [procStep]. *)
Definition mainStep (config : Config) (vars : gmap string string) (s : State)
  : option (Event * State) :=
  match mainPc s with
  | MLoop i =>
      match Tasks config !! i with
      | Some t =>
          if dependencyGate t (taskCompleted s)
          then Some (EvDispatch i,
                     setMain (if Parallel t then MSend i t else MTask i t PStart) s)
          else Some (EvSkip i, setMain (MLoop (S i)) s)
      | None =>
          if decide (wgCount s = 0)
          then Some (EvSummary (negb (errorOccurred s)),
                     setMain (MExit (if errorOccurred s then 1 else 0)) s)
          else None
      end
  | MSend i t =>
      if decide (chanLen s < moduleSyncCap)
      then Some (EvSpawn i,
                 setMain (MLoop (S i))
                   (setGo i (Some (t, GBody PStart))
                      (setSync (S (chanLen s)) (S (wgCount s)) s)))
      else None
  | MTask i t ph =>
      let '(e, next, s1) := bodyStep vars i t ph s in
      Some (e, setMain (match next with
                        | Some ph' => MTask i t ph'
                        | None => MLoop (S i)
                        end) s1)
  | MExit _ => None
  end.

(** One step of the goroutine of task [i]: its body ([runTask], the flag
    [errorOccurred] under [errorMutex], the write of [taskCompleted]), then
    the deferred function.  Nothing moves once the process has exited. *)
Definition goStep (vars : gmap string string) (i : nat) (s : State) : option (Event * State) :=
  match mainPc s with
  | MExit _ => None
  | _ =>
      match gos s !! i with
      | Some (t, GBody ph) =>
          let '(e, next, s1) := bodyStep vars i t ph s in
          Some (e, setGo i (Some (t, match next with
                                     | Some ph' => GBody ph'
                                     | None => GRelease
                                     end)) s1)
      | Some (t, GRelease) =>
          Some (EvRelease i, setGo i (Some (t, GWgDone)) (setSync (pred (chanLen s)) (wgCount s) s))
      | Some (t, GWgDone) =>
          Some (EvWgDone i, setGo i None (setSync (chanLen s) (pred (wgCount s)) s))
      | None => None
      end
  end.

(** One step of the thread the scheduler picks; [None] when that thread is
    blocked or does not exist. *)
Definition step (config : Config) (vars : gmap string string) (tid : Tid) (s : State)
  : option State :=
  match (match tid with
         | TMain => mainStep config vars s
         | TGo i => goStep vars i s
         end) with
  | Some (e, s') => Some (pushEvent e s')
  | None => None
  end.

(** A run under a schedule. *)
Fixpoint run (config : Config) (vars : gmap string string) (sched : list Tid) (s : State)
  : option State :=
  match sched with
  | [] => Some s
  | tid :: rest =>
      match step config vars tid s with
      | Some s' => run config vars rest s'
      | None => None
      end
  end.

(** The scheduler that always lets the control thread go first, then the
    live goroutine of smallest number that can move. *)
Definition pickStep (config : Config) (vars : gmap string string) (s : State) : option State :=
  match step config vars TMain s with
  | Some s' => Some s'
  | None =>
      match map_to_list (gos s) with
      | (i, _) :: _ => step config vars (TGo i) s
      | [] => None
      end
  end.

Fixpoint runToEnd (config : Config) (vars : gmap string string) (fuel : nat) (s : State) : State :=
  match fuel with
  | O => s
  | S n =>
      match pickStep config vars s with
      | Some s' => runToEnd config vars n s'
      | None => s
      end
  end.

Definition exitStatus (s : State) : option nat :=
  match mainPc s with
  | MExit status => Some status
  | _ => None
  end.

(** The states a run from [w0] goes through. *)
Inductive Reach (config : Config) (vars : gmap string string) (w0 : World) : State -> Prop :=
| Reach_init : Reach config vars w0 (initState w0)
| Reach_step s tid s' :
    Reach config vars w0 s ->
    step config vars tid s = Some s' ->
    Reach config vars w0 s'.

(** A bound on the number of steps a run still takes. *)
Definition measure (config : Config) (s : State) : nat :=
  mainWeight (Tasks config) (mainPc s) + gosWeight (gos s).

(** [runAllTasks] under the scheduler [pickStep], from the world [w]. *)
Definition runAllTasks (config : Config) (variables : gmap string string) (w : World) : State :=
  runToEnd config variables (measure config (initState w)) (initState w).

(** The invariant of a run: the shared variables are those the trace
    accounts for, and every thread is where the newest event of its task
    says. *)
Record Inv (config : Config) (s : State) : Prop := mkInv {
  inv_pos : mainPos (Tasks config) (mainPc s) <= length (Tasks config);
  inv_last : forall j, lastOf j (trace s) = None <-> mainPos (Tasks config) (mainPc s) <= j;
  inv_local : forall j,
      match lastOf j (trace s), Tasks config !! j with
      | Some e, Some t => Local t e (mainAt j (mainPc s)) (gos s !! j)
      | Some _, None => False
      | None, _ => mainAt j (mainPc s) = None /\ gos s !! j = None
      end;
  inv_wf : wfTrace (Tasks config) (trace s) = true;
  inv_record : taskCompleted s = recordOf (trace s);
  inv_error : errorOccurred s = existsb isErrored (trace s);
  inv_wg : wgCount s = size (gos s);
  inv_slot : SlotInv (chanLen s) (gos s);
  inv_exit : forall status,
      mainPc s = MExit status ->
      wgCount s = 0 /\ status = (if errorOccurred s then 1 else 0)
}.

(** ** The loop of [runAllTasks] without goroutines

    The body of the loop for a task that is not parallel, read as a function:
    the dependency check, [runTask], the flag [errorOccurred] and the write
    of [taskCompleted]. *)
Definition sequentialTask (vars : gmap string string) (i : nat) (t : Task) (s : State) : State :=
  if dependencyGate t (taskCompleted s)
  then
    let '(w1, tr1, failed) :=
      runTask i (Cmds t) (Silent t) vars (world s) (EvDispatch i :: trace s) in
    mkState (MLoop (S i)) (gos s) (<[Name t:=true]> (taskCompleted s))
      (if failed then true else errorOccurred s) (chanLen s) (wgCount s) w1
      (EvMark i (Name t) :: (if failed then EvErrored i :: tr1 else tr1))
  else pushEvent (EvSkip i) (setMain (MLoop (S i)) s).

Fixpoint sequentialLoop (vars : gmap string string) (i : nat) (tasks : list Task) (s : State)
  : State :=
  match tasks with
  | [] => s
  | t :: rest => sequentialLoop vars (S i) rest (sequentialTask vars i t s)
  end.

(** The loop, then the summary and the exit status. *)
Definition runAllSequential (config : Config) (vars : gmap string string) (w : World) : State :=
  let s := sequentialLoop vars 0 (Tasks config) (initState w) in
  pushEvent (EvSummary (negb (errorOccurred s)))
    (setMain (MExit (if errorOccurred s then 1 else 0)) s).

(** ** The commands of one task in a run *)

(** [rendered] is what [replacePlaceholders] makes of [cmd] at some point
    of the run. *)
Definition Rendering (vars : gmap string string) (rendered cmd : string) : Prop :=
  exists w, rendered = replacePlaceholders w cmd vars.

(** The commands the thread of task [j] has still to start, while it is in
    the loop of [runTask]. *)
Definition restOf (j : nat) (s : State) : option (list string) :=
  match mainAt j (mainPc s) with
  | Some (_, Some ph) => phaseRest ph
  | _ => goRest j (gos s)
  end.

(** The commands started for a task are renderings of the first commands
    of its list, in order; the thread in the loop has the others left; the
    line [completed] is printed after all of them. *)
Definition CmdInvAt (vars : gmap string string) (t : Task) (started : list string)
  (rest : option (list string)) (completed : Prop) : Prop :=
  Forall2 (Rendering vars) started (take (length started) (Cmds t))
  /\ (forall r, rest = Some r -> r = drop (length started) (Cmds t))
  /\ (completed -> length started = length (Cmds t)).

Definition CmdInv (config : Config) (vars : gmap string string) (s : State) : Prop :=
  forall j t, Tasks config !! j = Some t ->
    CmdInvAt vars t (startedOf j (trace s)) (restOf j s) (EvCompleted j ∈ trace s).

(** The summary is the newest line exactly when the process has exited,
    and there is no other summary. *)
Definition SummaryInv (s : State) : Prop :=
  match mainPc s with
  | MExit status =>
      exists rest,
        trace s = EvSummary (bool_decide (status = 0)) :: rest
        /\ existsb isSummary rest = false
  | _ => existsb isSummary (trace s) = false
  end.

(** ** The process from its command line *)

(** What the flag package prints on stderr when it rejects the command
    line or is asked for help: its message and the usage of the flags. *)
Variable flagOutput : list string -> list string.

(** The whole of [func main]: [flag.Parse()] (line 43), which may end the
    process, then [main]. *)
Definition rayder (w : World) (argv : list string) : Prelude :=
  match flagParse argv with
  | FlagsParsed taskFile quietMode args => main w taskFile quietMode args
  | FlagsHelp => Exited 0 (flagOutput argv)
  | FlagsRejected _ => Exited 2 (flagOutput argv)
  end.

(** ** The process of [runAllTasks] and the runtime

    [taskCompleted] is a Go map shared without a lock.  The control thread
    reads it in the dependency check (line 159) and writes it after a
    sequential task (line 198); a goroutine writes it after its task
    (line 189), outside [errorMutex], which covers lines 183 to 186 only.
    When a write of a map overlaps another access to it, the Go runtime
    stops the process with a fatal error: no deferred function runs, the
    program prints nothing more, and the exit status is 2.  Two accesses
    can overlap when the two threads both stand right before them.

    The next step of the control thread reads the map: it is at the head of
    the loop before a task with a non-empty [Required]. *)
Definition mainReads (config : Config) (s : State) : bool :=
  match mainPc s with
  | MLoop i =>
      match Tasks config !! i with
      | Some t => 0 <? length (Required t)
      | None => false
      end
  | _ => false
  end.

(** The next step of the control thread writes the map. *)
Definition mainWrites (s : State) : bool :=
  match mainPc s with
  | MTask _ _ PMark => true
  | _ => false
  end.

(** The fatal error the runtime may raise in state [s], if any. *)
Definition fatalError (config : Config) (s : State) : option string :=
  match exitStatus s with
  | Some _ => None
  | None =>
      match goWriters (gos s) with
      | 0 => None
      | 1 =>
          if mainReads config s then Some fatalReadWrite
          else if mainWrites s then Some fatalWrites
          else None
      | _ => Some fatalWrites
      end
  end.

(** The process: alive in a state of its threads, or stopped by the runtime
    in the state it was in, with the message of the fatal error. *)
Inductive Proc :=
| Alive (s : State)
| Stopped (msg : string) (s : State).

(** Who moves: a thread of the program, or the runtime that stops it. *)
Inductive Pid :=
| PThread (tid : Tid)
| PRuntime.

Definition procStep (config : Config) (vars : gmap string string) (pid : Pid) (x : Proc)
  : option Proc :=
  match x, pid with
  | Alive s, PThread tid =>
      match step config vars tid s with
      | Some s' => Some (Alive s')
      | None => None
      end
  | Alive s, PRuntime =>
      match fatalError config s with
      | Some msg => Some (Stopped msg s)
      | None => None
      end
  | Stopped _ _, _ => None
  end.

Fixpoint procRun (config : Config) (vars : gmap string string) (psched : list Pid) (x : Proc)
  : option Proc :=
  match psched with
  | [] => Some x
  | pid :: rest =>
      match procStep config vars pid x with
      | Some x' => procRun config vars rest x'
      | None => None
      end
  end.

Definition procState (x : Proc) : State :=
  match x with
  | Alive s | Stopped _ s => s
  end.

(** The exit status of the process: that of the control thread, or 2 after
    a fatal error. *)
Definition procStatus (x : Proc) : option nat :=
  match x with
  | Alive s => exitStatus s
  | Stopped _ _ => Some 2
  end.

(** What the process has written on stderr besides the lines of the trace. *)
Definition procFatal (x : Proc) : option string :=
  match x with
  | Alive _ => None
  | Stopped msg _ => Some msg
  end.
(** ** Rendering of placeholders *)

Lemma app_nil_s (b : string) : "" +:+ b = b.
Proof. reflexivity. Qed.

Lemma app_cons_s (c : ascii) (a b : string) : String c a +:+ b = String c (a +:+ b).
Proof. reflexivity. Qed.

Lemma app_assoc_s (a b c : string) : (a +:+ b) +:+ c = a +:+ (b +:+ c).
Proof. induction a as [|x a IH]; rewrite ?app_nil_s, ?app_cons_s; congruence. Qed.

Lemma app_nil_r_s (a : string) : a +:+ "" = a.
Proof. induction a as [|x a IH]; rewrite ?app_nil_s, ?app_cons_s; congruence. Qed.

Lemma placeholder_cons key : placeholder key = String "{" (String "{" (key +:+ "}}")).
Proof. reflexivity. Qed.

Lemma braceFree_noOpen s : braceFree s = true -> noOpen s = true.
Proof.
  induction s as [|c s IH]; simpl; [done|].
  unfold isBrace. destruct (Ascii.eqb c "{"); simpl; [done|].
  intros H. apply andb_true_iff in H as [_ H]. auto.
Qed.

Lemma noOpen_app a b : noOpen (a +:+ b) = noOpen a && noOpen b.
Proof.
  induction a as [|x a IH]; rewrite ?app_nil_s, ?app_cons_s; simpl; [done|].
  rewrite IH. by rewrite andb_assoc.
Qed.

Lemma prefix_cons a p b s :
  String.prefix (String a p) (String b s) = if Ascii.eqb a b then String.prefix p s else false.
Proof.
  simpl. destruct (ascii_dec a b) as [->|Hne].
  - by rewrite Ascii.eqb_refl.
  - apply Ascii.eqb_neq in Hne. by rewrite Hne.
Qed.

Lemma prefix_app p r : String.prefix p (p +:+ r) = true.
Proof.
  induction p as [|x p IH]; rewrite ?app_nil_s, ?app_cons_s; [by destruct r|].
  rewrite prefix_cons, Ascii.eqb_refl. done.
Qed.

Lemma replaceFrom_skip old new a rest :
  replaceFrom old new (String.length a) (a +:+ rest) = replaceFrom old new 0 rest.
Proof.
  induction a as [|x a IH]; rewrite ?app_nil_s, ?app_cons_s; [done|].
  simpl. done.
Qed.

Lemma replaceFrom_noOpen key new s rest :
  noOpen s = true ->
  replaceFrom (placeholder key) new 0 (s +:+ rest)
  = s +:+ replaceFrom (placeholder key) new 0 rest.
Proof.
  induction s as [|c s IH]; [done|].
  cbn [noOpen]. intros H. apply andb_true_iff in H as [Hc Hs].
  rewrite !app_cons_s. cbn [replaceFrom].
  rewrite placeholder_cons at 1.
  rewrite prefix_cons. rewrite Ascii.eqb_sym. apply negb_true_iff in Hc. rewrite Hc.
  f_equal. by apply IH.
Qed.

Lemma replaceFrom_same key new rest :
  replaceFrom (placeholder key) new 0 (placeholder key +:+ rest)
  = new +:+ replaceFrom (placeholder key) new 0 rest.
Proof.
  rewrite (placeholder_cons key) at 2. rewrite app_cons_s. cbn [replaceFrom].
  rewrite <- app_cons_s, <- placeholder_cons.
  rewrite prefix_app. f_equal.
  rewrite placeholder_cons, app_cons_s.
  change (String.length (String "{" (String "{" (key +:+ "}}"))) - 1)
    with (String.length (String "{" (key +:+ "}}"))).
  rewrite <- app_cons_s.
  apply replaceFrom_skip.
Qed.

Lemma prefix_key_mismatch k k' rest :
  braceFree k = true -> braceFree k' = true -> k <> k' ->
  String.prefix (k +:+ "}}") (k' +:+ "}}" +:+ rest) = false.
Proof.
  revert k'. induction k as [|a k IH]; intros [|b k'] Hk Hk' Hne;
    rewrite ?app_nil_s, ?app_cons_s.
  - done.
  - rewrite prefix_cons. simpl in Hk'. apply andb_true_iff in Hk' as [Hb _].
    unfold isBrace in Hb. rewrite (Ascii.eqb_sym "}" b).
    destruct (Ascii.eqb b "{"), (Ascii.eqb b "}"); done.
  - rewrite prefix_cons. simpl in Hk. apply andb_true_iff in Hk as [Ha _].
    unfold isBrace in Ha.
    destruct (Ascii.eqb a "{"), (Ascii.eqb a "}"); done.
  - rewrite prefix_cons. destruct (Ascii.eqb a b) eqn:Hab; [|done].
    apply Ascii.eqb_eq in Hab as ->.
    simpl in Hk, Hk'. apply andb_true_iff in Hk as [_ Hk]. apply andb_true_iff in Hk' as [_ Hk'].
    apply IH; [done..|congruence].
Qed.

Lemma prefix_open_mismatch p k' rest :
  braceFree k' = true ->
  String.prefix (String "{" p) (k' +:+ "}}" +:+ rest) = false.
Proof.
  destruct k' as [|b k']; rewrite ?app_nil_s, ?app_cons_s; intros Hk'; rewrite prefix_cons.
  - done.
  - simpl in Hk'. apply andb_true_iff in Hk' as [Hb _]. unfold isBrace in Hb.
    rewrite (Ascii.eqb_sym "{" b). destruct (Ascii.eqb b "{"); done.
Qed.

Lemma replaceFrom_other key key' new rest :
  braceFree key = true -> braceFree key' = true -> key <> key' ->
  replaceFrom (placeholder key) new 0 (placeholder key' +:+ rest)
  = placeholder key' +:+ replaceFrom (placeholder key) new 0 rest.
Proof.
  intros Hk Hk' Hne.
  rewrite (placeholder_cons key'), !app_cons_s, app_assoc_s.
  cbn [replaceFrom].
  rewrite (placeholder_cons key) at 1. rewrite !prefix_cons, !Ascii.eqb_refl.
  rewrite prefix_key_mismatch by done.
  rewrite (placeholder_cons key) at 1. rewrite prefix_cons, Ascii.eqb_refl.
  rewrite prefix_open_mismatch by done.
  do 2 f_equal.
  rewrite <- app_assoc_s. rewrite replaceFrom_noOpen; [by rewrite app_assoc_s|].
  rewrite noOpen_app, braceFree_noOpen by done. done.
Qed.

Lemma ReplaceAll_placeholder s key value :
  ReplaceAll s (placeholder key) value = replaceFrom (placeholder key) value 0 s.
Proof. reflexivity. Qed.

Lemma ReplaceAll_template key value t :
  braceFree key = true -> wellFormed t = true ->
  ReplaceAll (flatten t) (placeholder key) value = flatten (map (substSeg key value) t).
Proof.
  intros Hk. rewrite ReplaceAll_placeholder.
  induction t as [|seg t IH]; [done|].
  cbn [wellFormed forallb]. intros [Hseg Ht]%andb_true_iff.
  cbn [flatten map]. destruct seg as [s|name]; cbn [segString substSeg segOk] in *.
  - rewrite replaceFrom_noOpen by by apply braceFree_noOpen. by rewrite IH.
  - destruct (String.eqb name key) eqn:Heq.
    + apply String.eqb_eq in Heq as ->. rewrite replaceFrom_same. by rewrite IH.
    + apply String.eqb_neq in Heq. rewrite replaceFrom_other by done.  by rewrite IH.
Qed.

Lemma substSeg_wellFormed key value t :
  braceFree value = true -> wellFormed t = true ->
  wellFormed (map (substSeg key value) t) = true.
Proof.
  intros Hv. unfold wellFormed. rewrite !forallb_forall. intros Ht seg Hin.
  apply in_map_iff in Hin as (seg0 & <- & Hin0). specialize (Ht _ Hin0).
  destruct seg0 as [s|name]; simpl in *; [done|]. by destruct (String.eqb name key).
Qed.

Lemma replacePlaceholdersIn_template entries t :
  envOk entries = true -> wellFormed t = true ->
  replacePlaceholdersIn entries (flatten t) = flatten (substAll entries t).
Proof.
  revert t. induction entries as [|[k v] entries IH]; intros t Henv Ht; [done|].
  cbn [envOk forallb] in Henv. apply andb_true_iff in Henv as [[Hk Hv]%andb_true_iff Henv].
  unfold replacePlaceholdersIn, substAll. cbn [fold_left fst snd].
  rewrite ReplaceAll_template by done.
  apply IH; [done|]. by apply substSeg_wellFormed.
Qed.

Lemma substAll_cons_seg entries seg t :
  substAll entries (seg :: t) = substAll entries [seg] ++ substAll entries t.
Proof.
  revert seg t. induction entries as [|[k v] entries IH]; intros seg t; [done|].
  unfold substAll. cbn [fold_left map]. apply IH.
Qed.

Lemma substAll_text entries s : substAll entries [Text s] = [Text s].
Proof. induction entries as [|[k v] entries IH]; [done|]. apply IH. Qed.

Lemma substAll_tok entries name :
  substAll entries [Tok name]
  = [resolveSeg (list_to_map entries : gmap string string) (Tok name)].
Proof.
  induction entries as [|[k v] entries IH]; [done|].
  unfold substAll. cbn [fold_left map substSeg fst snd resolveSeg list_to_map foldr].
  destruct (String.eqb name k) eqn:Heq.
  - apply String.eqb_eq in Heq as ->. rewrite lookup_insert_eq.
    apply substAll_text.
  - apply String.eqb_neq in Heq. rewrite lookup_insert_ne by done. apply IH.
Qed.

Lemma substAll_resolve entries t :
  substAll entries t = map (resolveSeg (list_to_map entries : gmap string string)) t.
Proof.
  induction t as [|seg t IH]; [by induction entries|].
  rewrite substAll_cons_seg, IH. cbn [map]. destruct seg as [s|name].
  - by rewrite substAll_text.
  - by rewrite substAll_tok.
Qed.

Lemma envOk_perm l1 l2 : l1 ≡ₚ l2 -> envOk l1 = envOk l2.
Proof.
  intros Hp. unfold envOk. apply eq_true_iff_eq. rewrite !forallb_forall.
  split; intros H x Hx; apply H; apply list_elem_of_In; apply list_elem_of_In in Hx.
  - by rewrite Hp.
  - by rewrite <- Hp.
Qed.

Lemma list_to_map_order (vars : gmap string string) order :
  order ≡ₚ map_to_list vars -> list_to_map order = vars.
Proof.
  intros Hp. rewrite (list_to_map_proper order (map_to_list vars)); [|..|done].
  - apply list_to_map_to_list.
  - rewrite Hp. apply NoDup_fst_map_to_list.
Qed.

Lemma render_order (vars : gmap string string) order t :
  order ≡ₚ map_to_list vars ->
  envOk (map_to_list vars) = true -> wellFormed t = true ->
  replacePlaceholdersIn order (flatten t) = flatten (map (resolveSeg vars) t).
Proof.
  intros Hp Henv Ht.
  rewrite replacePlaceholdersIn_template; [|by rewrite (envOk_perm _ _ Hp)|done].
  by rewrite substAll_resolve, (list_to_map_order vars order Hp).
Qed.

(** *** The environment built by [parseArgs] *)

Lemma applyDefaults_lookup entries (variables : gmap string string) k :
  applyDefaults entries variables !! k
  = match variables !! k with
    | Some v => Some v
    | None => (list_to_map entries : gmap string string) !! k
    end.
Proof.
  revert variables. induction entries as [|[k0 d] entries IH]; intros variables.
  - cbn. rewrite lookup_empty. by destruct (variables !! k).
  - unfold applyDefaults. cbn [fold_left fst snd list_to_map foldr].
    fold (applyDefaults entries).
    destruct (variables !! k0) eqn:Hk0; rewrite IH.
    + destruct (decide (k0 = k)) as [->|Hne].
      * by rewrite Hk0.
      * by rewrite lookup_insert_ne.
    + destruct (decide (k0 = k)) as [->|Hne].
      * by rewrite !lookup_insert_eq, Hk0.
      * by rewrite !lookup_insert_ne.
Qed.

Lemma scanArgs_lookup args (vars0 variables : gmap string string) X :
  scanArgs args vars0 = (false, variables) ->
  variables !! X
  = match overrideOf X args with
    | Some v => Some v
    | None => vars0 !! X
    end.
Proof.
  revert vars0. induction args as [|arg args IH]; intros vars0 Hscan.
  - by inversion Hscan.
  - cbn [scanArgs overrideOf] in *.
    destruct (String.eqb arg "usage" || String.eqb arg "USAGE"); [done|].
    destruct (splitEq arg) as [[k v]|].
    + rewrite (IH _ Hscan). destruct (overrideOf X args); [done|].
      destruct (String.eqb k X) eqn:Heq.
      * apply String.eqb_eq in Heq as ->. by rewrite lookup_insert_eq.
      * apply String.eqb_neq in Heq. by rewrite lookup_insert_ne.
    + rewrite (IH _ Hscan). by destruct (overrideOf X args).
Qed.

(** The merged environment: the override wins over the default. *)
Lemma parseArgs_lookup w defaults args variables X :
  parseArgs w defaults args = inr variables ->
  variables !! X
  = match overrideOf X args with
    | Some v => Some v
    | None => defaults !! X
    end.
Proof.
  unfold parseArgs. destruct (scanArgs args ∅) as [usage overrides] eqn:Hscan.
  destruct usage; [done|]. intros [= <-].
  rewrite applyDefaults_lookup, (scanArgs_lookup _ _ _ X Hscan), lookup_empty.
  destruct (overrideOf X args); [done|].
  by rewrite (list_to_map_order defaults (rangeVars w defaults) (rangeVars_perm w defaults)).
Qed.

Lemma resolveSeg_parseArgs w defaults args variables seg :
  parseArgs w defaults args = inr variables ->
  resolveSeg variables seg = resolveToken args defaults seg.
Proof.
  intros Hp. destruct seg as [s|X]; [done|]. cbn [resolveSeg resolveToken].
  rewrite (parseArgs_lookup _ _ _ _ X Hp).
  destruct (overrideOf X args); [done|]. by destruct (defaults !! X).
Qed.

(** C4 (amended): for a command made of brace-free text and [{{X}}] tokens
    with brace-free names, and a merged environment whose names and values
    are free of braces, rendering replaces each token [{{X}}] by the value
    given on the command line when there is one, else by the default of the
    workflow when there is one, and else leaves the text [{{X}}] in place;
    rendering is a total function, so no error is raised. *)
Theorem placeholder_resolution w w' defaults args variables t :
  parseArgs w defaults args = inr variables ->
  wellFormed t = true ->
  envOk (map_to_list variables) = true ->
  replacePlaceholders w' (flatten t) variables
  = flatten (map (resolveToken args defaults) t).
Proof.
  intros Hp Ht Henv. unfold replacePlaceholders.
  rewrite (render_order variables _ t (rangeVars_perm w' variables) Henv Ht).
  f_equal. apply map_ext. intros seg. by apply (resolveSeg_parseArgs w).
Qed.

(** C10 (amended): for a command made of brace-free text and tokens with
    brace-free names, and an environment whose names and values are free of
    braces, any two orders of applying the variables give the same string. *)
Theorem replacePlaceholders_order_independent (vars : gmap string string) order1 order2 t :
  order1 ≡ₚ map_to_list vars ->
  order2 ≡ₚ map_to_list vars ->
  wellFormed t = true ->
  envOk (map_to_list vars) = true ->
  replacePlaceholdersIn order1 (flatten t) = replacePlaceholdersIn order2 (flatten t).
Proof.
  intros H1 H2 Ht Henv.
  by rewrite (render_order vars order1 t H1 Henv Ht), (render_order vars order2 t H2 Henv Ht).
Qed.

(** *** The prelude of [main] *)

Lemma parseArgs_usage_lines w defaults args lines :
  parseArgs w defaults args = inl lines -> exists rest, lines = "Usage:" :: rest.
Proof.
  unfold parseArgs. destruct (scanArgs args ∅) as [[] overrides]; [|done].
  intros [= <-]. unfold usageLines. eexists. reflexivity.
Qed.

(** Once [flag.Parse] has accepted the command line: with an empty [-w]
    the process prints a line that starts with [Usage:] (the usage line of
    [main], or the lines of [parseArgs] when [usage] was asked for) and
    exits with status 0, whatever [-q] and the positional arguments are;
    [runAllTasks] is not entered. *)
Lemma main_without_workflow_file w quietMode args :
  exists stderr,
    main w "" quietMode args = Exited 0 stderr
    /\ exists line, line ∈ stderr /\ String.prefix "Usage:" line = true.
Proof.
  unfold main.
  destruct (parseArgs w _ args) as [lines|variables] eqn:Hp.
  - apply parseArgs_usage_lines in Hp as [rest ->].
    eexists. split; [reflexivity|]. exists "Usage:". split; [|done].
    apply elem_of_app. right. left.
  - cbn [String.eqb]. eexists. split; [reflexivity|]. exists usageLine. split; [|done].
    apply elem_of_app. right. left.
Qed.

(** ** One task: [runTask] *)

Lemma startedCmds_app tr1 tr2 : startedCmds (tr1 ++ tr2) = startedCmds tr2 ++ startedCmds tr1.
Proof.
  induction tr1 as [|e tr1 IH]; [by rewrite app_nil_r|].
  destruct e; cbn [app startedCmds]; rewrite ?IH, ?app_assoc; done.
Qed.

Lemma cmdResults_app tr1 tr2 : cmdResults (tr1 ++ tr2) = cmdResults tr2 ++ cmdResults tr1.
Proof.
  induction tr1 as [|e tr1 IH]; [by rewrite app_nil_r|].
  destruct e; cbn [app cmdResults]; rewrite ?IH, ?app_assoc; done.
Qed.

(** An event that differs from the two events of a command is in [new]
    when it is in [new] followed by them. *)
Ltac not_a_cmd_event :=
  rewrite elem_of_app; intros [?|Hin]; [done|];
  apply elem_of_cons in Hin as [?|Hin]; [done|];
  apply elem_of_cons in Hin as [?|Hin]; [done|]; by apply not_elem_of_nil in Hin.

Lemma runCmds_all_ok i cmds silent vars w tr w1 :
  succeedAll cmds silent vars w = Some w1 ->
  exists new,
    runCmds i cmds silent vars w tr = (w1, new ++ tr, false)
    /\ LoopAdds i new (renderedRun cmds silent vars w) (replicate (length cmds) true).
Proof.
  revert w tr. induction cmds as [|cmd rest IH]; intros w tr Hok; cbn in Hok.
  - inversion Hok; subst. exists []. repeat split; try done; by apply not_elem_of_nil.
  - cbn [runCmds renderedRun]. destruct (executeCommand cmd silent vars w) as [w' err] eqn:Hex.
    destruct err; [done|]. cbn [negb fst].
    destruct (IH w' (EvCmdEnd i true :: EvCmdStart i (replacePlaceholders w cmd vars) :: tr) Hok)
      as (new & Hrun & Hs & Hr & Hc & Hn).
    exists (new ++ [EvCmdEnd i true; EvCmdStart i (replacePlaceholders w cmd vars)]).
    rewrite Hrun, <- app_assoc. split; [done|].
    repeat split.
    + rewrite startedCmds_app, Hs. done.
    + rewrite cmdResults_app, Hr. done.
    + not_a_cmd_event.
    + not_a_cmd_event.
Qed.

Lemma runCmds_first_failure i pre cmd post silent vars w tr w1 :
  succeedAll pre silent vars w = Some w1 ->
  (executeCommand cmd silent vars w1).2 = true ->
  exists new,
    runCmds i (pre ++ cmd :: post) silent vars w tr
    = ((executeCommand cmd silent vars w1).1, new ++ tr, true)
    /\ LoopAdds i new (renderedRun (pre ++ [cmd]) silent vars w)
         (replicate (length pre) true ++ [false]).
Proof.
  revert w tr. induction pre as [|c pre IH]; intros w tr Hok Hfail; cbn in Hok.
  - inversion Hok; subst. cbn [app runCmds renderedRun].
    destruct (executeCommand cmd silent vars w1) as [w' err] eqn:Hex. cbn in Hfail. subst err.
    exists [EvCmdEnd i false; EvCmdStart i (replacePlaceholders w1 cmd vars)].
    split; [done|]. repeat split; try done.
    + intros Hin. apply elem_of_cons in Hin as [?|Hin]; [done|].
      apply elem_of_cons in Hin as [?|Hin]; [done|]. by apply not_elem_of_nil in Hin.
    + intros Hin. apply elem_of_cons in Hin as [?|Hin]; [done|].
      apply elem_of_cons in Hin as [?|Hin]; [done|]. by apply not_elem_of_nil in Hin.
  - cbn [app runCmds renderedRun]. destruct (executeCommand c silent vars w) as [w' err] eqn:Hex.
    destruct err; [done|]. cbn [negb fst].
    destruct (IH w' (EvCmdEnd i true :: EvCmdStart i (replacePlaceholders w c vars) :: tr) Hok Hfail)
      as (new & Hrun & Hs & Hr & Hc & Hn).
    exists (new ++ [EvCmdEnd i true; EvCmdStart i (replacePlaceholders w c vars)]).
    rewrite Hrun, <- app_assoc. split; [done|].
    repeat split.
    + rewrite startedCmds_app, Hs. done.
    + rewrite cmdResults_app, Hr. done.
    + not_a_cmd_event.
    + not_a_cmd_event.
Qed.

(** C3: [runTask] is fail-fast.  When [cmd] is the first command whose
    child exits non-zero, the commands started are exactly those up to
    [cmd], in order; nothing of the later commands shows in the world or in
    the trace; the task is reported as failed and the line [completed] is
    not printed.  When every command exits with zero, all of them are
    started, in order, and the task is reported as completed. *)
Theorem runTask_fail_fast i silent vars w tr :
  (forall pre cmd post w1,
      succeedAll pre silent vars w = Some w1 ->
      (executeCommand cmd silent vars w1).2 = true ->
      exists new,
        runTask i (pre ++ cmd :: post) silent vars w tr
        = ((executeCommand cmd silent vars w1).1, new ++ tr, true)
        /\ startedCmds new = renderedRun (pre ++ [cmd]) silent vars w
        /\ cmdResults new = replicate (length pre) true ++ [false]
        /\ (EvCompleted i ∉ new))
  /\ (forall cmds w1,
         succeedAll cmds silent vars w = Some w1 ->
         exists new,
           runTask i cmds silent vars w tr = (w1, EvCompleted i :: new ++ tr, false)
           /\ startedCmds new = renderedRun cmds silent vars w
           /\ cmdResults new = replicate (length cmds) true).
Proof.
  split.
  - intros pre cmd post w1 Hok Hfail. unfold runTask.
    destruct (runCmds_first_failure i pre cmd post silent vars w (EvRunning i :: tr) w1 Hok Hfail)
      as (new & Hrun & Hs & Hr & Hc & Hn).
    rewrite Hrun. exists (new ++ [EvRunning i]). rewrite <- app_assoc. split; [done|].
    rewrite startedCmds_app, cmdResults_app, Hs, Hr. repeat split; try done.
    rewrite elem_of_app. intros [?|Hin]; [done|].
    apply elem_of_cons in Hin as [?|Hin]; [done|]. by apply not_elem_of_nil in Hin.
  - intros cmds w1 Hok. unfold runTask.
    destruct (runCmds_all_ok i cmds silent vars w (EvRunning i :: tr) w1 Hok)
      as (new & Hrun & Hs & Hr & Hc & Hn).
    rewrite Hrun. exists (new ++ [EvRunning i]). rewrite <- app_assoc. split; [done|].
    rewrite startedCmds_app, cmdResults_app, Hs, Hr. done.
Qed.

(** ** The dependency gate *)

(** C6: a task with an empty required set passes the gate whatever the
    completion record holds, and the control thread dispatches it: a
    sequential task is entered, a parallel task goes to the send on
    [moduleSyncChan]. *)
Theorem gate_empty_required config vars (s : State) i t :
  Required t = [] ->
  mainPc s = MLoop i ->
  Tasks config !! i = Some t ->
  (forall record, dependencyGate t record = true)
  /\ step config vars TMain s
     = Some (pushEvent (EvDispatch i)
               (setMain (if Parallel t then MSend i t else MTask i t PStart) s)).
Proof.
  intros Hreq Hpc Ht.
  assert (Hgate : forall record, dependencyGate t record = true).
  { intros record. unfold dependencyGate. by rewrite Hreq. }
  split; [done|].
  unfold step, mainStep. by rewrite Hpc, Ht, Hgate.
Qed.

(** ** Traces of a run *)

Lemma lastOf_idx j tr e : lastOf j tr = Some e -> evIdx e = Some j.
Proof.
  induction tr as [|e0 tr IH]; [done|]. cbn [lastOf].
  destruct (decide (evIdx e0 = Some j)); [by intros [= <-]|done].
Qed.

Lemma lastOf_elem j tr e : lastOf j tr = Some e -> e ∈ tr.
Proof.
  induction tr as [|e0 tr IH]; [done|]. cbn [lastOf].
  destruct (decide (evIdx e0 = Some j)); [intros [= <-]; left|intros; right; auto].
Qed.

Lemma lastOf_None j tr e : lastOf j tr = None -> e ∈ tr -> evIdx e <> Some j.
Proof.
  induction tr as [|e0 tr IH]; [by intros _ ?%not_elem_of_nil|]. cbn [lastOf].
  destruct (decide (evIdx e0 = Some j)); [done|].
  intros Hl [->|Hin]%elem_of_cons; auto.
Qed.

Lemma lastOf_other j e tr : evIdx e <> Some j -> lastOf j (e :: tr) = lastOf j tr.
Proof. intros. cbn [lastOf]. by destruct (decide (evIdx e = Some j)). Qed.

Lemma lastOf_same j e tr : evIdx e = Some j -> lastOf j (e :: tr) = Some e.
Proof. intros. cbn [lastOf]. by destruct (decide (evIdx e = Some j)). Qed.

Lemma wfTrace_cons tasks e tr :
  wfTrace tasks (e :: tr) = true <-> okNext tasks tr e = true /\ wfTrace tasks tr = true.
Proof. cbn [wfTrace]. apply andb_true_iff. Qed.

Lemma wfTrace_app tasks tr1 tr2 : wfTrace tasks (tr1 ++ tr2) = true -> wfTrace tasks tr2 = true.
Proof.
  induction tr1 as [|e tr1 IH]; [done|]. cbn [app]. rewrite wfTrace_cons. intros [_ ?]. auto.
Qed.

Lemma okNext_inv tasks tr e j :
  evIdx e = Some j -> okNext tasks tr e = true ->
  exists t, tasks !! j = Some t /\ okAfter t (lastOf j tr) e = true /\ okGlobal tasks tr e = true.
Proof.
  unfold okNext. intros ->. destruct (tasks !! j) as [t|]; [|done].
  intros [??]%andb_true_iff. eauto.
Qed.

(** Case analysis on two consecutive events of a task. *)
Ltac ok_after H :=
  match type of H with
  | okAfter ?t (Some ?prev) ?e = true => destruct e; destruct prev
  | okAfter ?t None ?e = true => destruct e
  end;
  cbn [okAfter] in H; try discriminate H;
  repeat match type of H with
    | context [match ?b with true => _ | false => _ end] =>
        is_var b; destruct b; try discriminate H
    end.

(** Along the life of a task the stages never go down. *)
Lemma stage_mono tasks tr j e l :
  wfTrace tasks tr = true ->
  e ∈ tr -> evIdx e = Some j -> lastOf j tr = Some l ->
  stage e <= stage l.
Proof.
  revert e l. induction tr as [|e0 tr IH]; intros e l Hwf Hin He Hl.
  { by apply not_elem_of_nil in Hin. }
  apply wfTrace_cons in Hwf as [Hnext Hwf].
  cbn [lastOf] in Hl. destruct (decide (evIdx e0 = Some j)) as [H0|H0].
  - injection Hl as ->. apply elem_of_cons in Hin as [->|Hin]; [done|].
    destruct (okNext_inv _ _ _ _ H0 Hnext) as (t & Ht & Hok & _).
    destruct (lastOf j tr) as [prev|] eqn:Hprev.
    + specialize (IH e prev Hwf Hin He eq_refl).
      ok_after Hok; cbn [stage] in *; lia.
    + by apply (lastOf_None _ _ _ Hprev) in Hin.
  - apply elem_of_cons in Hin as [->|Hin]; [done|]. eauto.
Qed.

Lemma wf_at tasks tr e :
  wfTrace tasks tr = true -> e ∈ tr ->
  exists l1 r, tr = l1 ++ e :: r /\ okNext tasks r e = true /\ wfTrace tasks r = true.
Proof.
  intros Hwf (l1 & r & ->)%list_elem_of_split.
  apply wfTrace_app in Hwf. apply wfTrace_cons in Hwf as [? ?]. eauto.
Qed.

Lemma wf_before tasks tr e j :
  wfTrace tasks tr = true -> e ∈ tr -> evIdx e = Some j ->
  exists l1 r t, tr = l1 ++ e :: r /\ tasks !! j = Some t
    /\ okAfter t (lastOf j r) e = true /\ okGlobal tasks r e = true
    /\ wfTrace tasks r = true.
Proof.
  intros Hwf Hin He. destruct (wf_at _ _ _ Hwf Hin) as (l1 & r & -> & Hnext & Hr).
  destruct (okNext_inv _ _ _ _ He Hnext) as (t & Ht & Hok & Hg).
  exists l1, r, t. auto.
Qed.

Lemma elem_of_later {A} (x : A) l1 y r : x ∈ r -> x ∈ l1 ++ y :: r.
Proof. intros. apply elem_of_app. right. by right. Qed.

Lemma spawn_parallel tasks tr j t :
  wfTrace tasks tr = true -> EvSpawn j ∈ tr -> tasks !! j = Some t -> Parallel t = true.
Proof.
  intros Hwf Hin Ht.
  destruct (wf_before _ _ _ j Hwf Hin eq_refl) as (l1 & r & t' & -> & Ht' & Hok & _).
  assert (t' = t) as -> by congruence.
  destruct (lastOf j r) as [prev|]; [|done]. by destruct prev.
Qed.

Lemma mark_name tasks tr j t name :
  wfTrace tasks tr = true -> EvMark j name ∈ tr -> tasks !! j = Some t -> name = Name t.
Proof.
  intros Hwf Hin Ht.
  destruct (wf_before _ _ _ j Hwf Hin eq_refl) as (l1 & r & t' & -> & Ht' & Hok & _).
  assert (t' = t) as -> by congruence.
  destruct (lastOf j r) as [prev|]; [|done].
  destruct prev; cbn in Hok; try done; by apply bool_decide_eq_true in Hok.
Qed.

Lemma errored_after_failure tasks tr j :
  wfTrace tasks tr = true -> EvErrored j ∈ tr -> EvCmdEnd j false ∈ tr.
Proof.
  intros Hwf Hin.
  destruct (wf_before _ _ _ j Hwf Hin eq_refl) as (l1 & r & t' & -> & Ht' & Hok & _).
  destruct (lastOf j r) as [prev|] eqn:Hprev; [|done].
  pose proof (lastOf_idx _ _ _ Hprev) as Hidx. pose proof (lastOf_elem _ _ _ Hprev) as Hel.
  destruct prev; cbn in Hok; try done. destruct ok; [done|].
  cbn in Hidx. injection Hidx as ->. by apply elem_of_later.
Qed.

(** The events a task has behind it when its newest event is [l]. *)
Lemma present tasks tr j l t :
  wfTrace tasks tr = true -> lastOf j tr = Some l -> tasks !! j = Some t ->
  (1 <= stage l -> EvDispatch j ∈ tr)
  /\ (2 <= stage l -> Parallel t = true -> EvSpawn j ∈ tr)
  /\ (3 <= stage l -> EvRunning j ∈ tr)
  /\ (6 <= stage l -> EvMark j (Name t) ∈ tr)
  /\ (7 <= stage l -> EvRelease j ∈ tr).
Proof.
  revert l. induction tr as [|e0 tr IH]; intros l Hwf Hl Ht; [done|].
  apply wfTrace_cons in Hwf as [Hnext Hwf].
  cbn [lastOf] in Hl. destruct (decide (evIdx e0 = Some j)) as [H0|H0].
  - injection Hl as ->.
    destruct (okNext_inv _ _ _ _ H0 Hnext) as (t' & Ht' & Hok & _).
    assert (t' = t) as -> by congruence.
    destruct (lastOf j tr) as [prev|] eqn:Hprev.
    + destruct (IH prev Hwf eq_refl Ht) as (I1 & I2 & I3 & I4 & I5).
      ok_after Hok; cbn [stage evIdx] in *; simplify_eq;
        (split; [intros H1|split; [intros H2 Hp|split; [intros H3|split; [intros H6|intros H7]]]]);
        try lia;
        try (by left);
        try (right; first [apply I1|apply I2|apply I3|apply I4|apply I5]; (done || lia));
        try (apply bool_decide_eq_true in Hok; subst; by left);
        try (rewrite Hp in Hok; discriminate Hok).
    + ok_after Hok; cbn [stage evIdx] in *; simplify_eq; repeat split; intros; try lia; by left.
  - destruct (IH l Hwf Hl Ht) as (I1 & I2 & I3 & I4 & I5).
    repeat split; intros; right; auto.
Qed.

Lemma skip_is_last tasks tr j :
  wfTrace tasks tr = true -> EvSkip j ∈ tr -> lastOf j tr = Some (EvSkip j).
Proof.
  induction tr as [|e0 tr IH]; intros Hwf Hin; [by apply not_elem_of_nil in Hin|].
  apply wfTrace_cons in Hwf as [Hnext Hwf]. cbn [lastOf].
  destruct (decide (evIdx e0 = Some j)) as [H0|H0].
  - apply elem_of_cons in Hin as [<-|Hin]; [done|].
    destruct (okNext_inv _ _ _ _ H0 Hnext) as (t & Ht & Hok & _).
    rewrite (IH Hwf Hin) in Hok. by destruct e0.
  - apply elem_of_cons in Hin as [<-|Hin]; [done|]. auto.
Qed.

Lemma failure_reported tasks tr j :
  wfTrace tasks tr = true -> EvCmdEnd j false ∈ tr ->
  lastOf j tr = Some (EvCmdEnd j false) \/ EvErrored j ∈ tr.
Proof.
  induction tr as [|e0 tr IH]; intros Hwf Hin; [by apply not_elem_of_nil in Hin|].
  apply wfTrace_cons in Hwf as [Hnext Hwf]. cbn [lastOf].
  destruct (decide (evIdx e0 = Some j)) as [H0|H0].
  - apply elem_of_cons in Hin as [<-|Hin]; [by left|].
    destruct (okNext_inv _ _ _ _ H0 Hnext) as (t & Ht & Hok & _).
    destruct (IH Hwf Hin) as [Hl|He]; [|by right; right].
    rewrite Hl in Hok. right. destruct e0; cbn in Hok; try done.
    cbn in H0. injection H0 as ->. left.
  - apply elem_of_cons in Hin as [<-|Hin]; [done|].
    destruct (IH Hwf Hin) as [Hl|He]; [by left|by right; right].
Qed.

(** ** The invariant *)

Lemma inv_init config w0 : Inv config (initState w0).
Proof.
  split; cbn; try done.
  - lia.
  - intros j. split; [lia|done].
  - exists None. split; [done|]. split; [|done].
    intros i t pc Hi. by rewrite lookup_empty in Hi.
Qed.

Lemma mainAt_None_pos tasks pc j : mainPos tasks pc <= j -> length tasks >= mainPos tasks pc ->
  mainAt j pc = None.
Proof.
  destruct pc; cbn; try done; intros; destruct (decide (i = j)); try done; lia.
Qed.

(** From the state of a thread to the newest event of its task. *)
Lemma local_main_task t prev t' ph g :
  Local t prev (Some (t', Some ph)) g ->
  t' = t /\ Parallel t = false /\ g = None /\ PhaseEv t ph prev.
Proof.
  destruct prev; cbn [Local]; unfold inBody;
    try (destruct ok); try (intros [rest H]; revert H);
    destruct (Parallel t) eqn:Hp; cbn [PhaseEv]; intros H; destruct_and?; simplify_eq; done.
Qed.

Lemma local_main_send t prev t' g :
  Local t prev (Some (t', None)) g ->
  t' = t /\ Parallel t = true /\ g = None /\ exists i, prev = EvDispatch i.
Proof.
  destruct prev; cbn [Local]; unfold inBody;
    try (destruct ok); try (intros [rest H]; revert H);
    destruct (Parallel t) eqn:Hp; intros H; destruct_and?; simplify_eq; try done; eauto 10.
Qed.

Lemma local_go_body t prev m t' ph :
  Local t prev m (Some (t', GBody ph)) ->
  t' = t /\ Parallel t = true /\ m = None /\ PhaseEv t ph prev.
Proof.
  destruct prev; cbn [Local]; unfold inBody;
    try (destruct ok); try (intros [rest H]; revert H);
    destruct (Parallel t) eqn:Hp; cbn [PhaseEv]; intros H; destruct_and?; simplify_eq; done.
Qed.

Lemma local_go_release t prev m t' :
  Local t prev m (Some (t', GRelease)) ->
  t' = t /\ Parallel t = true /\ m = None /\ exists i name, prev = EvMark i name.
Proof.
  destruct prev; cbn [Local]; unfold inBody;
    try (destruct ok); try (intros [rest H]; revert H);
    destruct (Parallel t) eqn:Hp; intros H; destruct_and?; simplify_eq; try done; eauto 10.
Qed.

Lemma local_go_done t prev m t' :
  Local t prev m (Some (t', GWgDone)) ->
  t' = t /\ m = None /\ exists i, prev = EvRelease i.
Proof.
  destruct prev; cbn [Local]; unfold inBody;
    try (destruct ok); try (intros [rest H]; revert H);
    destruct (Parallel t) eqn:Hp; intros H; destruct_and?; simplify_eq; try done; eauto 10.
Qed.

Lemma phaseEv_local t ph e m g :
  PhaseEv t ph e -> ph <> PStart -> inBody t ph m g -> Local t e m g.
Proof.
  destruct e, ph; cbn [PhaseEv Local]; try done; try (destruct ok; try done);
    intros; simplify_eq; eauto.
Qed.

Lemma inv_update config s s' i t e :
  Inv config s ->
  Tasks config !! i = Some t ->
  evIdx e = Some i ->
  trace s' = e :: trace s ->
  okAfter t (lastOf i (trace s)) e = true ->
  okGlobal (Tasks config) (trace s) e = true ->
  (mainPos (Tasks config) (mainPc s') = mainPos (Tasks config) (mainPc s)
   /\ i < mainPos (Tasks config) (mainPc s)
   \/ mainPos (Tasks config) (mainPc s) = i /\ mainPos (Tasks config) (mainPc s') = S i) ->
  (forall j, j <> i ->
     mainAt j (mainPc s') = mainAt j (mainPc s) /\ gos s' !! j = gos s !! j) ->
  Local t e (mainAt i (mainPc s')) (gos s' !! i) ->
  taskCompleted s' = recordOf (e :: trace s) ->
  errorOccurred s' = existsb isErrored (e :: trace s) ->
  wgCount s' = size (gos s') ->
  SlotInv (chanLen s') (gos s') ->
  (forall status, mainPc s' <> MExit status) ->
  Inv config s'.
Proof.
  intros HI Ht He Htr Hok Hglob Hpos Hframe Hloc Hrec Herr Hwg Hslot Hexit.
  destruct HI as [Ipos Ilast Ilocal Iwf Irec Ierr Iwg Islot Iexit].
  assert (Hlt : i < length (Tasks config)) by by eapply lookup_lt_Some.
  split; try done.
  - destruct Hpos as [[-> ?]|[? ->]]; [done|lia].
  - intros j. rewrite Htr. destruct (decide (j = i)) as [->|Hne].
    + rewrite lastOf_same by done. split; [done|].
      destruct Hpos as [[-> ?]|[? ->]]; lia.
    + rewrite lastOf_other by congruence. rewrite Ilast.
      destruct Hpos as [[-> ?]|[<- ->]]; lia.
  - intros j. rewrite Htr. destruct (decide (j = i)) as [->|Hne].
    + rewrite lastOf_same by done. by rewrite Ht.
    + rewrite lastOf_other by congruence.
      destruct (Hframe j Hne) as [-> ->]. apply Ilocal.
  - rewrite Htr. apply wfTrace_cons. split; [|done].
    unfold okNext. rewrite He, Ht, Hok, Hglob. done.
  - by rewrite Htr.
  - by rewrite Htr.
  - intros status Hst. by apply Hexit in Hst.
Qed.

Lemma lastOf_Some_elem j tr e : e ∈ tr -> evIdx e = Some j -> exists l, lastOf j tr = Some l.
Proof.
  intros Hin He. destruct (lastOf j tr) as [l|] eqn:Hl; [eauto|].
  by apply (lastOf_None _ _ _ Hl) in Hin.
Qed.

(** At the head of the loop the control thread has left all earlier tasks. *)
Lemma main_left_all config s :
  Inv config s ->
  (forall j, mainAt j (mainPc s) = None) ->
  forallb (fun i => match Tasks config !! i with
                    | Some ti => mainLeft ti (lastOf i (trace s))
                    | None => false
                    end) (seq 0 (mainPos (Tasks config) (mainPc s))) = true.
Proof.
  intros HI Hm. apply forallb_forall. intros j [_ Hj]%in_seq. cbn in Hj.
  pose proof (inv_local _ _ HI j) as Hloc. pose proof (inv_last _ _ HI j) as Hlast.
  destruct (lastOf j (trace s)) as [e|]; [|destruct Hlast as [Hlast _]; specialize (Hlast eq_refl); lia].
  destruct (Tasks config !! j) as [t|]; [|done].
  rewrite Hm in Hloc. destruct e; cbn [Local mainLeft] in *; unfold inBody in *;
    try done; try (destruct ok); try (destruct Hloc as [rest Hloc]);
    destruct (Parallel t); destruct_and?; simplify_eq; done.
Qed.

(** When the slot is free every goroutine started so far has released. *)
Lemma spawned_released config s :
  Inv config s -> chanLen s = 0 ->
  forallb (fun e' => match e' with
                     | EvSpawn i => bool_decide (EvRelease i ∈ trace s)
                     | _ => true
                     end) (trace s) = true.
Proof.
  intros HI Hc. apply forallb_forall. intros e' Hin%list_elem_of_In.
  destruct e' as [| |i| | | | | | | | |]; try done. apply bool_decide_eq_true.
  pose proof (inv_wf _ _ HI) as Hwf.
  destruct (lastOf_Some_elem i _ _ Hin eq_refl) as [l Hl].
  pose proof (stage_mono _ _ _ _ _ Hwf Hin eq_refl Hl) as Hst. cbn [stage] in Hst.
  pose proof (inv_local _ _ HI i) as Hloc. rewrite Hl in Hloc.
  destruct (Tasks config !! i) as [t|] eqn:Ht; [|done].
  pose proof (spawn_parallel _ _ _ _ Hwf Hin Ht) as Hp.
  destruct (present _ _ _ _ _ Hwf Hl Ht) as (_ & _ & _ & _ & Hrel).
  destruct (decide (7 <= stage l)) as [?|Hlow]; [auto|].
  exfalso. destruct (inv_slot _ _ HI) as (h & Hh & Hhold & _).
  assert (exists pc, gos s !! i = Some (t, pc) /\ holdsSlot pc = true) as (pc & Hg & Hpc).
  { destruct l; cbn [Local stage] in *; unfold inBody in *; try lia;
      try (destruct ok); try (destruct Hloc as [rest Hloc]);
      rewrite ?Hp in Hloc; destruct_and?; eauto. }
  rewrite (Hhold _ _ _ Hg Hpc) in Hh. lia.
Qed.

Lemma bodyStep_spec config vars i t ph s e next s1 prev :
  bodyStep vars i t ph s = (e, next, s1) ->
  PhaseEv t ph prev ->
  taskCompleted s = recordOf (trace s) ->
  errorOccurred s = existsb isErrored (trace s) ->
  evIdx e = Some i
  /\ okAfter t (Some prev) e = true
  /\ okGlobal (Tasks config) (trace s) e = true
  /\ mainPc s1 = mainPc s /\ gos s1 = gos s /\ chanLen s1 = chanLen s
  /\ wgCount s1 = wgCount s /\ trace s1 = trace s
  /\ taskCompleted s1 = recordOf (e :: trace s)
  /\ errorOccurred s1 = existsb isErrored (e :: trace s)
  /\ match next with
     | Some ph' => PhaseEv t ph' e /\ ph' <> PStart
     | None => e = EvMark i (Name t)
     end.
Proof.
  intros Hstep Hph Hrec Herr.
  destruct ph as [|[|cmd rest]|rendered rest| |]; cbn [bodyStep] in Hstep;
    try destruct (sh rendered (Silent t) (world s)) as [w1 [|]];
    injection Hstep as <- <- <-;
    destruct prev as [| | | | |? ok| | | | | |]; try destruct ok;
    cbn [PhaseEv] in Hph; try done;
    cbn; rewrite ?Hph, ?Hrec, ?bool_decide_eq_true_2 by done; repeat split; done.
Qed.

Lemma slot_same_holders c (gs gs' : gmap nat (Task * GoPc)) i t pc pc' :
  SlotInv c gs ->
  gs !! i = Some (t, pc) ->
  holdsSlot pc = holdsSlot pc' ->
  gs' = <[i:=(t, pc')]> gs ->
  SlotInv c gs'.
Proof.
  intros (h & Hc & Hhold & Hex) Hi Hpc ->. exists h. split; [done|]. split.
  - intros j tj pcj Hj Hh. destruct (decide (i = j)) as [->|Hne].
    + rewrite lookup_insert_eq in Hj. injection Hj as <- <-.
      apply (Hhold _ _ _ Hi). congruence.
    + rewrite lookup_insert_ne in Hj by done. eauto.
  - intros j Hj. destruct (Hex j Hj) as (tj & pcj & Hgj & Hhj).
    destruct (decide (i = j)) as [->|Hne].
    + rewrite lookup_insert_eq. exists t, pc'. split; [done|]. congruence.
    + rewrite lookup_insert_ne by done. eauto.
Qed.

Lemma inv_main_loop config s i :
  Inv config s -> mainPc s = MLoop i ->
  lastOf i (trace s) = None /\ gos s !! i = None /\ forall j, mainAt j (mainPc s) = None.
Proof.
  intros HI Hpc. pose proof (inv_last _ _ HI i) as Hlast.
  pose proof (inv_local _ _ HI i) as Hloc. rewrite Hpc in *. cbn in Hlast.
  destruct Hlast as [_ Hlast]. rewrite (Hlast (le_n _)) in Hloc |- *.
  destruct Hloc as [_ Hg]. done.
Qed.

Lemma inv_thread config s j :
  Inv config s ->
  (mainAt j (mainPc s) <> None \/ gos s !! j <> None) ->
  exists t prev, Tasks config !! j = Some t /\ lastOf j (trace s) = Some prev
    /\ Local t prev (mainAt j (mainPc s)) (gos s !! j)
    /\ j < mainPos (Tasks config) (mainPc s).
Proof.
  intros HI Hth. pose proof (inv_local _ _ HI j) as Hloc.
  pose proof (inv_last _ _ HI j) as Hlast.
  destruct (lastOf j (trace s)) as [prev|].
  - destruct (Tasks config !! j) as [t|]; [|done]. exists t, prev. repeat split; try done.
    destruct (decide (j < mainPos (Tasks config) (mainPc s))); [done|].
    destruct Hlast as [_ Hlast]. by specialize (Hlast ltac:(lia)).
  - destruct Hloc as [Hm Hg]. destruct Hth; done.
Qed.

(** *** The invariant is kept by every step *)

Lemma inv_gate config s i t :
  Inv config s -> mainPc s = MLoop i -> Tasks config !! i = Some t ->
  Inv config
    (if dependencyGate t (taskCompleted s)
     then pushEvent (EvDispatch i)
            (setMain (if Parallel t then MSend i t else MTask i t PStart) s)
     else pushEvent (EvSkip i) (setMain (MLoop (S i)) s)).
Proof.
  intros HI Hpc Ht.
  destruct (inv_main_loop _ _ _ HI Hpc) as (Hlast & Hg & Hm).
  pose proof (main_left_all _ _ HI Hm) as Hleft. rewrite Hpc in Hleft. cbn [mainPos] in Hleft.
  pose proof (inv_record _ _ HI) as Hrec.
  destruct (dependencyGate t (taskCompleted s)) eqn:Hgate.
  - apply (inv_update config s _ i t (EvDispatch i) HI Ht); cbn.
    + done.
    + done.
    + by rewrite Hlast.
    + rewrite Ht, <- Hrec, Hgate, Hleft. by rewrite bool_decide_eq_true_2.
    + right. rewrite Hpc. by destruct (Parallel t).
    + intros j Hne. rewrite Hpc. split; [|done].
      destruct (Parallel t); cbn; by destruct (decide (i = j)).
    + split; [|done]. destruct (Parallel t); cbn; by rewrite decide_True.
    + done.
    + apply (inv_error _ _ HI).
    + apply (inv_wg _ _ HI).
    + apply (inv_slot _ _ HI).
    + intros status. by destruct (Parallel t).
  - apply (inv_update config s _ i t (EvSkip i) HI Ht); cbn.
    + done.
    + done.
    + by rewrite Hlast.
    + rewrite Ht, <- Hrec, Hgate, Hleft. by rewrite bool_decide_eq_true_2.
    + right. by rewrite Hpc.
    + intros j Hne. by rewrite Hpc.
    + done.
    + done.
    + apply (inv_error _ _ HI).
    + apply (inv_wg _ _ HI).
    + apply (inv_slot _ _ HI).
    + done.
Qed.

Lemma inv_summary config s i :
  Inv config s -> mainPc s = MLoop i -> Tasks config !! i = None -> wgCount s = 0 ->
  Inv config
    (pushEvent (EvSummary (negb (errorOccurred s)))
       (setMain (MExit (if errorOccurred s then 1 else 0)) s)).
Proof.
  intros HI Hpc Ht Hwg.
  destruct HI as [Ipos Ilast Ilocal Iwf Irec Ierr Iwg Islot Iexit].
  rewrite Hpc in *. cbn [mainPos] in *.
  assert (i = length (Tasks config)) as Hi.
  { apply lookup_ge_None in Ht. lia. }
  split; cbn.
  - done.
  - intros j. rewrite <- Hi. apply Ilast.
  - intros j. apply Ilocal.
  - done.
  - done.
  - done.
  - done.
  - done.
  - intros status [= <-]. done.
Qed.

Lemma inv_spawn config s i t :
  Inv config s -> mainPc s = MSend i t -> chanLen s < moduleSyncCap ->
  Inv config
    (pushEvent (EvSpawn i)
       (setMain (MLoop (S i))
          (setGo i (Some (t, GBody PStart)) (setSync (S (chanLen s)) (S (wgCount s)) s)))).
Proof.
  intros HI Hpc Hc. unfold moduleSyncCap in Hc.
  destruct (inv_thread _ _ i HI) as (t0 & prev & Ht & Hlast & Hloc & Hpos).
  { left. rewrite Hpc. cbn. by rewrite decide_True. }
  rewrite Hpc in Hloc. cbn [mainAt] in Hloc. rewrite decide_True in Hloc by done.
  apply local_main_send in Hloc as (-> & Hp & Hg & i0 & ->).
  pose proof (spawned_released _ _ HI ltac:(lia)) as Hrel.
  apply (inv_update config s _ i t0 (EvSpawn i) HI Ht); cbn.
  - done.
  - done.
  - by rewrite Hlast.
  - done.
  - left. rewrite Hpc. cbn. lia.
  - intros j Hne. rewrite Hpc. cbn. rewrite decide_False by done.
    by rewrite lookup_insert_ne.
  - by rewrite lookup_insert_eq.
  - apply (inv_record _ _ HI).
  - apply (inv_error _ _ HI).
  - rewrite map_size_insert_None by done. f_equal. apply (inv_wg _ _ HI).
  - destruct (inv_slot _ _ HI) as (h & Hh & Hhold & Hex).
    assert (h = None) as -> by (destruct h; [lia|done]).
    exists (Some i). split; [lia|]. split.
    + intros j tj pcj Hj Hpc'. destruct (decide (i = j)) as [->|Hne]; [done|].
      rewrite lookup_insert_ne in Hj by done. by specialize (Hhold _ _ _ Hj Hpc').
    + intros j [= <-]. rewrite lookup_insert_eq. eauto.
  - done.
Qed.

Lemma inv_main_body config vars s i t ph e next s1 :
  Inv config s -> mainPc s = MTask i t ph ->
  bodyStep vars i t ph s = (e, next, s1) ->
  Inv config
    (pushEvent e (setMain (match next with
                           | Some ph' => MTask i t ph'
                           | None => MLoop (S i)
                           end) s1)).
Proof.
  intros HI Hpc Hbody.
  destruct (inv_thread _ _ i HI) as (t0 & prev & Ht & Hlast & Hloc & Hpos).
  { left. rewrite Hpc. cbn. by rewrite decide_True. }
  rewrite Hpc in Hloc. cbn [mainAt] in Hloc. rewrite decide_True in Hloc by done.
  apply local_main_task in Hloc as (-> & Hp & Hg & Hph).
  destruct (bodyStep_spec config _ _ _ _ _ _ _ _ _ Hbody Hph (inv_record _ _ HI) (inv_error _ _ HI))
    as (He & Hok & Hglob & Hpc1 & Hgos1 & Hc1 & Hwg1 & Htr1 & Hrec1 & Herr1 & Hnext).
  apply (inv_update config s _ i t0 e HI Ht); cbn.
  - done.
  - by rewrite Htr1.
  - by rewrite Hlast.
  - done.
  - left. rewrite Hpc in *. destruct next; cbn in *; lia.
  - intros j Hne. rewrite Hgos1, Hpc. split; [|done].
    destruct next; cbn; by rewrite ?decide_False.
  - rewrite Hgos1, Hg. destruct next as [ph'|].
    + destruct Hnext as [Hph' Hns]. apply (phaseEv_local _ ph'); [done..|].
      unfold inBody. rewrite Hp. cbn. by rewrite decide_True.
    + rewrite Hnext. cbn. by rewrite Hp.
  - done.
  - done.
  - rewrite Hwg1, Hgos1. apply (inv_wg _ _ HI).
  - rewrite Hc1, Hgos1. apply (inv_slot _ _ HI).
  - intros status. by destruct next.
Qed.

Lemma inv_go_body config vars s i t ph e next s1 :
  Inv config s -> gos s !! i = Some (t, GBody ph) ->
  bodyStep vars i t ph s = (e, next, s1) ->
  Inv config
    (pushEvent e (setGo i (Some (t, match next with
                                    | Some ph' => GBody ph'
                                    | None => GRelease
                                    end)) s1)).
Proof.
  intros HI Hgo Hbody.
  destruct (inv_thread _ _ i HI) as (t0 & prev & Ht & Hlast & Hloc & Hpos).
  { right. by rewrite Hgo. }
  rewrite Hgo in Hloc.
  apply local_go_body in Hloc as (-> & Hp & Hm & Hph).
  destruct (bodyStep_spec config _ _ _ _ _ _ _ _ _ Hbody Hph (inv_record _ _ HI) (inv_error _ _ HI))
    as (He & Hok & Hglob & Hpc1 & Hgos1 & Hc1 & Hwg1 & Htr1 & Hrec1 & Herr1 & Hnext).
  apply (inv_update config s _ i t0 e HI Ht); cbn.
  - done.
  - by rewrite Htr1.
  - by rewrite Hlast.
  - done.
  - left. by rewrite Hpc1.
  - intros j Hne. rewrite Hgos1, Hpc1. by rewrite lookup_insert_ne.
  - rewrite Hpc1, Hm, lookup_insert_eq. destruct next as [ph'|].
    + destruct Hnext as [Hph' Hns]. apply (phaseEv_local _ ph'); [done..|].
      unfold inBody. by rewrite Hp.
    + rewrite Hnext. cbn. by rewrite Hp.
  - done.
  - done.
  - rewrite Hwg1, Hgos1. rewrite map_size_insert_Some by done. apply (inv_wg _ _ HI).
  - rewrite Hc1, Hgos1. eapply slot_same_holders; [apply (inv_slot _ _ HI)|done| |done].
    by destruct next.
  - rewrite Hpc1. intros status Hst. destruct (inv_exit _ _ HI _ Hst) as [Hwg _].
    pose proof (inv_wg _ _ HI) as Hsz. rewrite Hwg in Hsz. symmetry in Hsz.
    apply map_size_empty_iff in Hsz. rewrite Hsz in Hgo. by rewrite lookup_empty in Hgo.
Qed.

Lemma inv_release config s i t :
  Inv config s -> gos s !! i = Some (t, GRelease) ->
  Inv config
    (pushEvent (EvRelease i)
       (setGo i (Some (t, GWgDone)) (setSync (pred (chanLen s)) (wgCount s) s))).
Proof.
  intros HI Hgo.
  destruct (inv_thread _ _ i HI) as (t0 & prev & Ht & Hlast & Hloc & Hpos).
  { right. by rewrite Hgo. }
  rewrite Hgo in Hloc.
  apply local_go_release in Hloc as (-> & Hp & Hm & i0 & name & ->).
  apply (inv_update config s _ i t0 (EvRelease i) HI Ht); cbn.
  - done.
  - done.
  - by rewrite Hlast.
  - done.
  - by left.
  - intros j Hne. by rewrite lookup_insert_ne.
  - by rewrite Hm, lookup_insert_eq.
  - apply (inv_record _ _ HI).
  - apply (inv_error _ _ HI).
  - rewrite map_size_insert_Some by done. apply (inv_wg _ _ HI).
  - destruct (inv_slot _ _ HI) as (h & Hh & Hhold & Hex).
    pose proof (Hhold _ _ _ Hgo eq_refl) as ->.
    exists None. rewrite Hh. split; [done|]. split; [|done].
    intros j tj pcj Hj Hpcj. destruct (decide (i = j)) as [->|Hne].
    + rewrite lookup_insert_eq in Hj. by injection Hj as <- <-.
    + rewrite lookup_insert_ne in Hj by done.
      specialize (Hhold _ _ _ Hj Hpcj). congruence.
  - intros status Hst. destruct (inv_exit _ _ HI _ Hst) as [Hwg _].
    pose proof (inv_wg _ _ HI) as Hsz. rewrite Hwg in Hsz. symmetry in Hsz.
    apply map_size_empty_iff in Hsz. rewrite Hsz in Hgo. by rewrite lookup_empty in Hgo.
Qed.

Lemma inv_wgdone config s i t :
  Inv config s -> gos s !! i = Some (t, GWgDone) ->
  Inv config
    (pushEvent (EvWgDone i) (setGo i None (setSync (chanLen s) (pred (wgCount s)) s))).
Proof.
  intros HI Hgo.
  destruct (inv_thread _ _ i HI) as (t0 & prev & Ht & Hlast & Hloc & Hpos).
  { right. by rewrite Hgo. }
  rewrite Hgo in Hloc.
  apply local_go_done in Hloc as (-> & Hm & i0 & ->).
  apply (inv_update config s _ i t0 (EvWgDone i) HI Ht); cbn.
  - done.
  - done.
  - by rewrite Hlast.
  - done.
  - by left.
  - intros j Hne. by rewrite lookup_delete_ne.
  - by rewrite Hm, lookup_delete_eq.
  - apply (inv_record _ _ HI).
  - apply (inv_error _ _ HI).
  - rewrite map_size_delete, Hgo. cbn. f_equal. apply (inv_wg _ _ HI).
  - destruct (inv_slot _ _ HI) as (h & Hh & Hhold & Hex).
    exists h. split; [done|]. split.
    + intros j tj pcj Hj Hpcj. destruct (decide (i = j)) as [->|Hne].
      * by rewrite lookup_delete_eq in Hj.
      * rewrite lookup_delete_ne in Hj by done. eauto.
    + intros j Hj. destruct (Hex j Hj) as (tj & pcj & Hgj & Hpcj).
      destruct (decide (i = j)) as [->|Hne].
      * rewrite Hgo in Hgj. by injection Hgj as <- <-.
      * rewrite lookup_delete_ne by done. eauto.
  - intros status Hst. destruct (inv_exit _ _ HI _ Hst) as [Hwg _].
    pose proof (inv_wg _ _ HI) as Hsz. rewrite Hwg in Hsz. symmetry in Hsz.
    apply map_size_empty_iff in Hsz. rewrite Hsz in Hgo. by rewrite lookup_empty in Hgo.
Qed.

Lemma inv_step config vars s tid s' :
  Inv config s -> step config vars tid s = Some s' -> Inv config s'.
Proof.
  intros HI Hstep. unfold step in Hstep. destruct tid as [|i].
  - unfold mainStep in Hstep. destruct (mainPc s) as [i|i t|i t ph|status] eqn:Hpc.
    + destruct (Tasks config !! i) as [t|] eqn:Ht.
      * pose proof (inv_gate _ _ _ _ HI Hpc Ht) as HI'.
        destruct (dependencyGate t (taskCompleted s)); by injection Hstep as <-.
      * destruct (decide (wgCount s = 0)) as [Hwg|]; [|done]. injection Hstep as <-.
        by apply (inv_summary _ _ i).
    + destruct (decide (chanLen s < moduleSyncCap)) as [Hc|]; [|done]. injection Hstep as <-.
      by apply (inv_spawn _ _ i t).
    + destruct (bodyStep vars i t ph s) as [[e next] s1] eqn:Hbody. injection Hstep as <-.
      by eapply inv_main_body.
    + done.
  - unfold goStep in Hstep.
    destruct (gos s !! i) as [[t [ph| |]]|] eqn:Hg.
    + destruct (bodyStep vars i t ph s) as [[e next] s1] eqn:Hbody.
      assert (s' = pushEvent e (setGo i (Some (t, match next with
                                                  | Some ph' => GBody ph'
                                                  | None => GRelease
                                                  end)) s1)) as ->
        by (destruct (mainPc s); congruence).
      by eapply inv_go_body.
    + assert (s' = pushEvent (EvRelease i)
                     (setGo i (Some (t, GWgDone)) (setSync (pred (chanLen s)) (wgCount s) s))) as ->
        by (destruct (mainPc s); congruence).
      by apply (inv_release _ _ i t).
    + assert (s' = pushEvent (EvWgDone i)
                     (setGo i None (setSync (chanLen s) (pred (wgCount s)) s))) as ->
        by (destruct (mainPc s); congruence).
      by apply (inv_wgdone _ _ i t).
    + by destruct (mainPc s).
Qed.

Lemma reach_inv config vars w0 s : Reach config vars w0 s -> Inv config s.
Proof.
  induction 1 as [|s tid s' _ IH Hstep]; [apply inv_init|by eapply inv_step].
Qed.

(** ** Termination and absence of deadlock *)

Lemma gosWeight_insert_fresh (gs : gmap nat (Task * GoPc)) i tg :
  gs !! i = None -> gosWeight (<[i:=tg]> gs) = goWeight tg + gosWeight gs.
Proof.
  intros Hi. unfold gosWeight.
  rewrite (map_fold_insert_L (fun (_ : nat) (tg : Task * GoPc) acc => goWeight tg + acc)); [done| |done].
  intros; lia.
Qed.

Lemma gosWeight_delete (gs : gmap nat (Task * GoPc)) i tg :
  gs !! i = Some tg -> gosWeight gs = goWeight tg + gosWeight (delete i gs).
Proof.
  intros Hi. rewrite <- (insert_id gs i tg Hi) at 1. rewrite <- insert_delete_eq.
  apply gosWeight_insert_fresh. apply lookup_delete_eq.
Qed.

Lemma gosWeight_update (gs : gmap nat (Task * GoPc)) i tg tg' :
  gs !! i = Some tg ->
  gosWeight (<[i:=tg']> gs) + goWeight tg = goWeight tg' + gosWeight gs.
Proof.
  intros Hi. rewrite (gosWeight_delete gs i tg Hi). rewrite <- insert_delete_eq.
  rewrite gosWeight_insert_fresh by apply lookup_delete_eq. lia.
Qed.

Lemma gosWeight_insert_le (gs : gmap nat (Task * GoPc)) i tg :
  gosWeight (<[i:=tg]> gs) <= goWeight tg + gosWeight gs.
Proof.
  destruct (gs !! i) as [tg0|] eqn:Hi.
  - pose proof (gosWeight_update gs i tg0 tg Hi). lia.
  - rewrite gosWeight_insert_fresh by done. lia.
Qed.

Lemma restWeight_lookup tasks i t :
  tasks !! i = Some t -> restWeight tasks i = taskWeight t + restWeight tasks (S i).
Proof. intros Hi. unfold restWeight. by rewrite (drop_S _ _ _ Hi). Qed.

Lemma bodyStep_weight vars i t ph s e next s1 :
  bodyStep vars i t ph s = (e, next, s1) ->
  mainPc s1 = mainPc s /\ gos s1 = gos s
  /\ match next with
     | Some ph' => phaseWeight t ph' < phaseWeight t ph
     | None => phaseWeight t ph = 1
     end.
Proof.
  destruct ph as [|[|cmd rest]|rendered rest| |]; cbn [bodyStep];
    try destruct (sh rendered (Silent t) (world s)) as [w1 [|]];
    intros [= <- <- <-]; cbn; repeat split; lia.
Qed.

(** Every step uses up some of the measure. *)
Lemma step_measure config vars tid s s' :
  step config vars tid s = Some s' -> measure config s' < measure config s.
Proof.
  unfold step, measure. destruct tid as [|i].
  - unfold mainStep. destruct (mainPc s) as [i|i t|i t ph|status] eqn:Hpc.
    + destruct (Tasks config !! i) as [t|] eqn:Ht.
      * cbn [mainWeight]. rewrite (restWeight_lookup _ _ _ Ht). unfold taskWeight.
        destruct (dependencyGate t (taskCompleted s)); intros [= <-]; cbn;
          try destruct (Parallel t); cbn; lia.
      * destruct (decide (wgCount s = 0)); [|done]. intros [= <-]. cbn. lia.
    + destruct (decide (chanLen s < moduleSyncCap)); [|done]. intros [= <-]. cbn.
      pose proof (gosWeight_insert_le (gos s) i (t, GBody PStart)) as Hle.
      unfold goWeight in Hle at 1. cbn in Hle. lia.
    + destruct (bodyStep vars i t ph s) as [[e next] s1] eqn:Hbody. intros [= <-].
      destruct (bodyStep_weight _ _ _ _ _ _ _ _ Hbody) as (_ & Hgos1 & Hw).
      destruct next; cbn; rewrite Hgos1; lia.
    + done.
  - unfold goStep. destruct (gos s !! i) as [[t [ph| |]]|] eqn:Hg.
    + destruct (bodyStep vars i t ph s) as [[e next] s1] eqn:Hbody.
      destruct (bodyStep_weight _ _ _ _ _ _ _ _ Hbody) as (Hpc1 & Hgos1 & Hw).
      destruct (mainPc s) eqn:Hpc; intros [= <-]; cbn; rewrite Hpc1, Hgos1;
        match goal with
        | |- context [gosWeight (<[i:=?tg']> (gos s))] =>
            pose proof (gosWeight_update (gos s) i _ tg' Hg) as Hu
        end; unfold goWeight in Hu at 1 2; cbn in Hu; destruct next; cbn in *; rewrite ?Hpc; cbn; lia.
    + destruct (mainPc s) eqn:Hpc; intros [= <-]; cbn;
        pose proof (gosWeight_update (gos s) i _ (t, GWgDone) Hg) as Hu;
        unfold goWeight in Hu at 1 2; cbn in Hu; rewrite ?Hpc; cbn; lia.
    + destruct (mainPc s) eqn:Hpc; intros [= <-]; cbn;
        pose proof (gosWeight_delete (gos s) i _ Hg) as Hu;
        unfold goWeight in Hu at 1; cbn in Hu; rewrite ?Hpc; cbn; lia.
    + by destruct (mainPc s).
Qed.

Lemma run_measure config vars sched s s' :
  run config vars sched s = Some s' -> length sched + measure config s' <= measure config s.
Proof.
  revert s. induction sched as [|tid sched IH]; intros s; cbn [run].
  - intros [= <-]. cbn. lia.
  - destruct (step config vars tid s) as [s1|] eqn:Hstep; [|done]. intros Hrun.
    apply IH in Hrun. apply step_measure in Hstep. cbn. lia.
Qed.

Lemma go_can_step config vars s i tg :
  exitStatus s = None -> gos s !! i = Some tg ->
  exists s', step config vars (TGo i) s = Some s'.
Proof.
  unfold exitStatus, step, goStep. intros Hex Hg. rewrite Hg.
  destruct tg as [t [ph| |]]; try destruct (bodyStep vars i t ph s) as [[e next] s1];
    destruct (mainPc s); try done; eauto.
Qed.

(** A run that has not exited can go on: when the control thread is
    blocked, in the send or in [wg.Wait()], a goroutine is alive. *)
Lemma progress config vars s :
  Inv config s -> exitStatus s = None ->
  exists s', pickStep config vars s = Some s'.
Proof.
  intros HI Hex. unfold pickStep.
  destruct (step config vars TMain s) as [s'|] eqn:Hmain; [eauto|].
  assert (gos s <> ∅) as Hne.
  { unfold step, mainStep, exitStatus in *. destruct (mainPc s) as [i|i t|i t ph|status] eqn:Hpc.
    - destruct (Tasks config !! i) as [t|].
      + by destruct (dependencyGate t (taskCompleted s)).
      + destruct (decide (wgCount s = 0)) as [|Hwg]; [done|].
        intros Hempty. apply Hwg. rewrite (inv_wg _ _ HI), Hempty. apply map_size_empty.
    - destruct (decide (chanLen s < moduleSyncCap)) as [|Hc]; [done|].
      destruct (inv_slot _ _ HI) as (h & Hh & _ & Hexh). unfold moduleSyncCap in Hc.
      destruct h as [j|]; [|lia]. destruct (Hexh j eq_refl) as (tj & pcj & Hj & _).
      intros Hempty. by rewrite Hempty, lookup_empty in Hj.
    - by destruct (bodyStep vars i t ph s) as [[e next] s1].
    - done. }
  destruct (map_to_list (gos s)) as [|[i tg] rest] eqn:Hl.
  - by apply map_to_list_empty_iff in Hl.
  - apply (go_can_step config vars s i tg Hex).
    apply elem_of_map_to_list. rewrite Hl. left.
Qed.

Lemma pickStep_step config vars s s' :
  pickStep config vars s = Some s' -> exists tid, step config vars tid s = Some s'.
Proof.
  unfold pickStep. destruct (step config vars TMain s) eqn:Hm.
  - intros [= <-]. eauto.
  - destruct (map_to_list (gos s)) as [|[i tg] rest]; [done|]. eauto.
Qed.

(** With fuel for the measure the run under [pickStep] reaches the exit. *)
Lemma runToEnd_exits config vars w0 fuel s :
  Reach config vars w0 s -> measure config s <= fuel ->
  Reach config vars w0 (runToEnd config vars fuel s)
  /\ exists status, exitStatus (runToEnd config vars fuel s) = Some status.
Proof.
  revert s. induction fuel as [|fuel IH]; intros s Hreach Hfuel.
  - cbn [runToEnd]. split; [done|].
    destruct (exitStatus s) as [status|] eqn:Hex; [eauto|].
    destruct (progress config vars s (reach_inv _ _ _ _ Hreach) Hex) as [s' Hs'].
    apply pickStep_step in Hs' as [tid Hs']. apply step_measure in Hs'. lia.
  - cbn [runToEnd]. destruct (pickStep config vars s) as [s'|] eqn:Hpick.
    + destruct (pickStep_step _ _ _ _ Hpick) as [tid Hstep].
      apply IH; [by eapply Reach_step|]. apply step_measure in Hstep. lia.
    + split; [done|]. destruct (exitStatus s) as [status|] eqn:Hex; [eauto|].
      destruct (progress config vars s (reach_inv _ _ _ _ Hreach) Hex) as [s' Hs']. congruence.
Qed.

Lemma run_reach config vars w0 sched s s' :
  Reach config vars w0 s -> run config vars sched s = Some s' -> Reach config vars w0 s'.
Proof.
  revert s. induction sched as [|tid sched IH]; intros s Hreach; cbn [run].
  - by intros [= <-].
  - destruct (step config vars tid s) as [s1|] eqn:Hstep; [|done].
    apply IH. by eapply Reach_step.
Qed.

Lemma reach_run config vars w0 s :
  Reach config vars w0 s -> exists sched, run config vars sched (initState w0) = Some s.
Proof.
  induction 1 as [|s tid s' _ [sched IH] Hstep].
  - by exists [].
  - exists (sched ++ [tid]). revert IH. generalize (initState w0).
    induction sched as [|t0 sched IHs]; intros s0; cbn [app run].
    + intros [= ->]. by rewrite Hstep.
    + destruct (step config vars t0 s0); [apply IHs|done].
Qed.

(** ** The end of a run *)

Lemma recordOf_lookup tr name b :
  recordOf tr !! name = Some b -> b = true /\ exists i, EvMark i name ∈ tr.
Proof.
  induction tr as [|e tr IH]; [cbn; by rewrite lookup_empty|].
  destruct e as [| | | | | | | |i0 name0| | |]; cbn [recordOf];
    try (intros [? [k ?]]%IH; split; [done|exists k; by right]).
  destruct (decide (name0 = name)) as [->|Hne].
  - rewrite lookup_insert_eq. intros [= <-]. split; [done|]. exists i0. left.
  - rewrite lookup_insert_ne by done. intros [? [i' ?]]%IH. split; [done|exists i'; by right].
Qed.

Lemma recordOf_mark tr i name : EvMark i name ∈ tr -> recordOf tr !! name = Some true.
Proof.
  induction tr as [|e tr IH]; [by intros ?%not_elem_of_nil|].
  intros [<-|Hin]%elem_of_cons.
  - cbn. by rewrite lookup_insert_eq.
  - destruct e as [| | | | | | | |i0 name0| | |]; cbn [recordOf]; auto.
    destruct (decide (name0 = name)) as [->|Hne].
    + by rewrite lookup_insert_eq.
    + rewrite lookup_insert_ne by done. auto.
Qed.

Lemma existsb_errored tr : existsb isErrored tr = true <-> exists i, EvErrored i ∈ tr.
Proof.
  rewrite existsb_exists. split.
  - intros (e & Hin%list_elem_of_In & He). destruct e; try done. eauto.
  - intros [i Hin]. exists (EvErrored i). split; [by apply list_elem_of_In|done].
Qed.

Lemma exit_no_goroutine config s status :
  Inv config s -> exitStatus s = Some status -> gos s = ∅ /\ mainPc s = MExit status.
Proof.
  intros HI Hex. unfold exitStatus in Hex.
  destruct (mainPc s) as [| | |st] eqn:Hpc; try done. injection Hex as ->.
  destruct (inv_exit _ _ HI _ Hpc) as [Hwg _]. split; [|done].
  apply map_size_empty_iff. by rewrite <- (inv_wg _ _ HI).
Qed.

(** At the exit every task was either skipped or went all the way to the
    write of [taskCompleted]. *)
Lemma exit_all_ended config s status j t :
  Inv config s -> exitStatus s = Some status -> Tasks config !! j = Some t ->
  exists l, lastOf j (trace s) = Some l /\ (l = EvSkip j \/ 6 <= stage l).
Proof.
  intros HI Hex Ht. destruct (exit_no_goroutine _ _ _ HI Hex) as [Hgos Hpc].
  pose proof (inv_last _ _ HI j) as Hlast. pose proof (inv_local _ _ HI j) as Hloc.
  rewrite Hpc, Hgos, lookup_empty, Ht in *. cbn [mainPos mainAt] in *.
  destruct (lastOf j (trace s)) as [l|] eqn:Hl.
  - exists l. split; [done|]. pose proof (lastOf_idx _ _ _ Hl) as Hidx.
    destruct l; cbn [Local stage evIdx] in *; unfold inBody in *; simplify_eq;
      try (destruct ok); try (destruct Hloc as [rest Hloc]);
      try (destruct (Parallel t)); destruct_and?; simplify_eq; auto; lia.
  - destruct Hlast as [Hlast _]. specialize (Hlast eq_refl).
    apply lookup_lt_Some in Ht. lia.
Qed.

Lemma exit_failure_reported config s status j :
  Inv config s -> exitStatus s = Some status ->
  EvCmdEnd j false ∈ trace s -> EvErrored j ∈ trace s.
Proof.
  intros HI Hex Hin.
  destruct (failure_reported _ _ _ (inv_wf _ _ HI) Hin) as [Hl|?]; [|done].
  pose proof (inv_local _ _ HI j) as Hloc. rewrite Hl in Hloc.
  destruct (Tasks config !! j) as [t|] eqn:Ht; [|done].
  destruct (exit_all_ended _ _ _ _ _ HI Hex Ht) as (l & Hl' & Hend).
  rewrite Hl in Hl'. injection Hl' as <-. cbn in Hend. destruct Hend; [done|lia].
Qed.

(** The threads of the program left to themselves: the run always reaches
    the exit (every schedule is finite, a run that has not exited can go on,
    and the run under [pickStep] exits within [measure] steps), and at the
    exit of the control thread the status is 0 exactly when no task was
    reported as failed, 1 otherwise; it is 0 when no command of any task
    failed (tasks that were skipped ran nothing), and 1 as soon as the
    command sequence of some task failed. *)
Lemma exit_status config vars w0 :
  (exists status, exitStatus (runAllTasks config vars w0) = Some status)
  /\ (forall sched s,
         run config vars sched (initState w0) = Some s ->
         length sched <= measure config (initState w0)
         /\ (exitStatus s = None -> exists tid s', step config vars tid s = Some s')
         /\ forall status,
             exitStatus s = Some status ->
             (status = 0 <-> forall i, EvErrored i ∉ trace s)
             /\ (status = 1 <-> exists i, EvErrored i ∈ trace s)
             /\ ((forall i, EvCmdEnd i false ∉ trace s) -> status = 0)
             /\ ((exists i, EvCmdEnd i false ∈ trace s) -> status = 1)).
Proof.
  split.
  { apply (runToEnd_exits config vars w0); [apply Reach_init|done]. }
  intros sched s Hrun.
  pose proof (run_reach _ _ _ _ _ _ (Reach_init config vars w0) Hrun) as Hreach.
  pose proof (reach_inv _ _ _ _ Hreach) as HI.
  split; [|split].
  - apply run_measure in Hrun. lia.
  - intros Hex. destruct (progress config vars s HI Hex) as [s' Hs'].
    apply pickStep_step in Hs' as [tid Hs']. eauto.
  - intros status Hex.
    destruct (exit_no_goroutine _ _ _ HI Hex) as [_ Hpc].
    destruct (inv_exit _ _ HI _ Hpc) as [_ Hst].
    pose proof (inv_error _ _ HI) as Herr.
    pose proof (existsb_errored (trace s)) as Hiff.
    destruct (errorOccurred s); subst status.
    + assert (exists i, EvErrored i ∈ trace s) as Hsome by by apply Hiff.
      repeat split; try done.
      * intros Hnone. destruct Hsome as [i Hi]. by apply Hnone in Hi.
      * intros Hnone. destruct Hsome as [i Hi].
        apply (errored_after_failure _ _ _ (inv_wf _ _ HI)) in Hi. by apply Hnone in Hi.
    + assert (forall i, EvErrored i ∉ trace s) as Hnone.
      { intros i Hi. assert (false = true); [|done]. rewrite Herr. apply Hiff. eauto. }
      repeat split; try done.
      * intros [i Hi]. by apply Hnone in Hi.
      * intros [i Hi]. apply (exit_failure_reported _ _ _ _ HI Hex) in Hi. by apply Hnone in Hi.
Qed.

(** ** Completion and the dependency gate *)

Lemma allRequiredCompleted_true required (record : gmap string bool) :
  allRequiredCompleted required record = true
  <-> forall r, r ∈ required -> record !! r = Some true.
Proof.
  induction required as [|req rest IH]; cbn [allRequiredCompleted].
  - split; [|done]. by intros _ r ?%not_elem_of_nil.
  - destruct (record !! req) as [[|]|] eqn:Hreq; cbn [default].
    + rewrite IH. split.
      * intros H r [->|?]%elem_of_cons; auto.
      * intros H r Hr. apply H. by right.
    + split; [done|]. intros H. specialize (H req ltac:(left)). congruence.
    + split; [done|]. intros H. specialize (H req ltac:(left)). congruence.
Qed.

Lemma dependencyGate_true t (record : gmap string bool) :
  dependencyGate t record = true <-> forall r, r ∈ Required t -> record !! r = Some true.
Proof.
  unfold dependencyGate. destruct (Required t) as [|req rest] eqn:Hreq.
  - cbn. split; [|done]. by intros _ r ?%not_elem_of_nil.
  - cbn [length Nat.ltb Nat.leb]. apply allRequiredCompleted_true.
Qed.

Lemma dependencyGate_false t (record : gmap string bool) r :
  r ∈ Required t -> record !! r <> Some true -> dependencyGate t record = false.
Proof.
  intros Hr Hne. destruct (dependencyGate t record) eqn:Hg; [|done].
  rewrite dependencyGate_true in Hg. by apply Hg in Hr.
Qed.

Lemma step_trace config vars tid s s' :
  step config vars tid s = Some s' -> exists e, trace s' = e :: trace s.
Proof.
  unfold step. destruct tid as [|i].
  - unfold mainStep. destruct (mainPc s) as [i|i t|i t ph|status].
    + destruct (Tasks config !! i) as [t|].
      * destruct (dependencyGate t (taskCompleted s)); intros [= <-]; cbn; eauto.
      * destruct (decide (wgCount s = 0)); [|done]. intros [= <-]; cbn; eauto.
    + destruct (decide (chanLen s < moduleSyncCap)); [|done]. intros [= <-]; cbn; eauto.
    + destruct (bodyStep vars i t ph s) as [[e next] s1] eqn:Hbody. intros [= <-]. cbn.
      exists e. f_equal.
      destruct ph as [|[|cmd rest]|rendered rest| |]; cbn [bodyStep] in Hbody;
        try destruct (sh rendered (Silent t) (world s)) as [w1 [|]];
        by injection Hbody as <- <- <-.
    + done.
  - unfold goStep. destruct (gos s !! i) as [[t [ph| |]]|].
    + destruct (bodyStep vars i t ph s) as [[e next] s1] eqn:Hbody.
      destruct (mainPc s); try done; intros [= <-]; cbn; exists e; f_equal;
        destruct ph as [|[|cmd rest]|rendered rest| |]; cbn [bodyStep] in Hbody;
        try destruct (sh rendered (Silent t) (world s)) as [w1 [|]];
        by injection Hbody as <- <- <-.
    + destruct (mainPc s); try done; intros [= <-]; cbn; eauto.
    + destruct (mainPc s); try done; intros [= <-]; cbn; eauto.
    + by destruct (mainPc s).
Qed.

Lemma run_trace config vars sched s s' :
  run config vars sched s = Some s' -> exists l, trace s' = l ++ trace s.
Proof.
  revert s. induction sched as [|tid sched IH]; intros s; cbn [run].
  - intros [= <-]. by exists [].
  - destruct (step config vars tid s) as [s1|] eqn:Hstep; [|done].
    intros (l & Hl)%IH. destruct (step_trace _ _ _ _ _ Hstep) as [e He].
    exists (l ++ [e]). by rewrite Hl, He, <- app_assoc.
Qed.

Lemma run_app config vars sched1 sched2 s s' :
  run config vars (sched1 ++ sched2) s = Some s' ->
  exists s1, run config vars sched1 s = Some s1 /\ run config vars sched2 s1 = Some s'.
Proof.
  revert s. induction sched1 as [|tid sched1 IH]; intros s; cbn [app run].
  - eauto.
  - destruct (step config vars tid s) as [s1|]; [apply IH|done].
Qed.

Lemma recordOf_app_mono l tr name :
  recordOf tr !! name = Some true -> recordOf (l ++ tr) !! name = Some true.
Proof.
  intros (_ & i & Hin)%recordOf_lookup. apply (recordOf_mark _ i). apply elem_of_app. by right.
Qed.

Lemma ended_before_mark tasks tr j name :
  wfTrace tasks tr = true -> EvMark j name ∈ tr -> EvCompleted j ∈ tr \/ EvErrored j ∈ tr.
Proof.
  intros Hwf Hin.
  destruct (wf_before _ _ _ j Hwf Hin eq_refl) as (l1 & r & t' & -> & Ht' & Hok & _).
  destruct (lastOf j r) as [prev|] eqn:Hprev; [|done].
  pose proof (lastOf_idx _ _ _ Hprev) as Hidx. pose proof (lastOf_elem _ _ _ Hprev) as Hel.
  destruct prev; cbn in Hok; try done; cbn in Hidx; injection Hidx as ->;
    [left|right]; by apply elem_of_later.
Qed.

Lemma run_inv config vars w0 sched s :
  run config vars sched (initState w0) = Some s -> Inv config s.
Proof.
  intros Hrun. eapply reach_inv, run_reach; [apply Reach_init|done].
Qed.


Lemma marked_was_dispatched config s name b :
  Inv config s -> taskCompleted s !! name = Some b ->
  b = true /\ exists j tj, Tasks config !! j = Some tj /\ Name tj = name
    /\ EvDispatch j ∈ trace s /\ j < mainPos (Tasks config) (mainPc s).
Proof.
  intros HI Hrec. rewrite (inv_record _ _ HI) in Hrec.
  apply recordOf_lookup in Hrec as [-> [j Hin]]. split; [done|].
  pose proof (inv_wf _ _ HI) as Hwf.
  destruct (wf_before _ _ _ j Hwf Hin eq_refl) as (l1 & r & tj & _ & Htj & _).
  exists j, tj. split; [done|]. split; [symmetry; by eapply mark_name|].
  destruct (lastOf_Some_elem j _ _ Hin eq_refl) as [l Hl].
  pose proof (stage_mono _ _ _ _ _ Hwf Hin eq_refl Hl) as Hmono. cbn [stage] in Hmono.
  destruct (present _ _ _ _ _ Hwf Hl Htj) as (Hd & _). split; [apply Hd; lia|].
  pose proof (inv_last _ _ HI j) as Hlast.
  destruct (decide (j < mainPos (Tasks config) (mainPc s))); [done|].
  destruct Hlast as [_ Hlast]. rewrite Hlast in Hl by lia. done.
Qed.

Lemma skipped_not_dispatched tasks tr i :
  wfTrace tasks tr = true -> EvSkip i ∈ tr -> EvDispatch i ∉ tr.
Proof.
  intros Hwf Hskip Hd. pose proof (skip_is_last _ _ _ Hwf Hskip) as Hl.
  pose proof (stage_mono _ _ _ _ _ Hwf Hd eq_refl Hl) as Hmono. cbn in Hmono. lia.
Qed.

(** C5 (amended): a task whose required set holds a name that is not
    [true] in the completion record when the task is evaluated is skipped,
    and the skip leaves the record as it is; so is a task that requires a
    name borne by no task declared before it.  The entry of a skipped task
    is set at no point of the run, and the tasks that require it are skipped
    in turn, as long as no other task of the same name is dispatched. *)
Theorem skipped_never_marked config vars w0 sched s i t :
  run config vars sched (initState w0) = Some s ->
  Tasks config !! i = Some t ->
  (mainPc s = MLoop i ->
   (exists r, r ∈ Required t
      /\ (taskCompleted s !! r <> Some true
          \/ forall j tj, j < i -> Tasks config !! j = Some tj -> Name tj <> r)) ->
   exists s', step config vars TMain s = Some s'
     /\ trace s' = EvSkip i :: trace s /\ mainPc s' = MLoop (S i)
     /\ taskCompleted s' = taskCompleted s)
  /\ (EvSkip i ∈ trace s ->
      (forall j tj, Tasks config !! j = Some tj -> Name tj = Name t ->
                    j = i \/ EvDispatch j ∉ trace s) ->
      (forall sched1 sched2 s1,
          sched = sched1 ++ sched2 ->
          run config vars sched1 (initState w0) = Some s1 ->
          taskCompleted s1 !! Name t = None)
      /\ forall k tk,
          mainPc s = MLoop k -> Tasks config !! k = Some tk -> Name t ∈ Required tk ->
          exists s', step config vars TMain s = Some s'
            /\ trace s' = EvSkip k :: trace s).
Proof.
  intros Hrun Ht. pose proof (run_inv _ _ _ _ _ Hrun) as HI.
  pose proof (inv_wf _ _ HI) as Hwf.
  assert (Hskip : forall k tk r,
             mainPc s = MLoop k -> Tasks config !! k = Some tk -> r ∈ Required tk ->
             taskCompleted s !! r <> Some true ->
             exists s', step config vars TMain s = Some s'
               /\ trace s' = EvSkip k :: trace s /\ mainPc s' = MLoop (S k)
               /\ taskCompleted s' = taskCompleted s).
  { intros k tk r Hpc Htk Hr Hne. unfold step, mainStep.
    rewrite Hpc, Htk, (dependencyGate_false tk _ r Hr Hne). eexists. split; [done|]. done. }
  assert (Hnone : EvSkip i ∈ trace s ->
            (forall j tj, Tasks config !! j = Some tj -> Name tj = Name t ->
                          j = i \/ EvDispatch j ∉ trace s) ->
            taskCompleted s !! Name t = None).
  { intros Hsk Huniq. destruct (taskCompleted s !! Name t) as [b|] eqn:Hrec; [|done].
    destruct (marked_was_dispatched _ _ _ _ HI Hrec) as (_ & j & tj & Htj & Hname & Hd & _).
    destruct (Huniq j tj Htj Hname) as [->|Hnd]; [|done].
    by apply (skipped_not_dispatched _ _ _ Hwf Hsk) in Hd. }
  split.
  - intros Hpc (r & Hr & Hcase). apply (Hskip i t r Hpc Ht Hr).
    destruct Hcase as [?|Hundeclared]; [done|]. intros Hrec.
    destruct (marked_was_dispatched _ _ _ _ HI Hrec) as (_ & j & tj & Htj & Hname & _ & Hlt).
    rewrite Hpc in Hlt. cbn in Hlt. by apply (Hundeclared j tj Hlt Htj).
  - intros Hsk Huniq. split.
    + intros sched1 sched2 s1 -> Hrun1.
      destruct (run_app _ _ _ _ _ _ Hrun) as (s1' & Hrun1' & Hrun2).
      assert (s1' = s1) as -> by congruence.
      destruct (taskCompleted s1 !! Name t) as [b|] eqn:Hrec1; [|done].
      pose proof (run_inv _ _ _ _ _ Hrun1) as HI1.
      destruct (marked_was_dispatched _ _ _ _ HI1 Hrec1) as [-> _].
      destruct (run_trace _ _ _ _ _ Hrun2) as [l Hl].
      rewrite (inv_record _ _ HI1) in Hrec1.
      apply (recordOf_app_mono l) in Hrec1. rewrite <- Hl, <- (inv_record _ _ HI) in Hrec1.
      rewrite (Hnone Hsk Huniq) in Hrec1. done.
    + intros k tk Hpc Htk Hreq.
      destruct (Hskip k tk (Name t) Hpc Htk Hreq) as (s' & Hs' & Htr & _).
      { by rewrite (Hnone Hsk Huniq). }
      eauto.
Qed.

(** ** The pass over the tasks *)

Lemma okGlobal_gate tasks rest e j t :
  (e = EvSkip j \/ e = EvDispatch j) -> tasks !! j = Some t ->
  okGlobal tasks rest e = true ->
  dependencyGate t (recordOf rest) = (if decide (e = EvSkip j) then false else true)
  /\ forall i, i < j -> exists ti, tasks !! i = Some ti /\ mainLeft ti (lastOf i rest) = true.
Proof.
  intros He Ht Hok.
  assert (bool_decide (dependencyGate t (recordOf rest)
                       = match e with EvSkip _ => false | _ => true end)
          && forallb (fun i => match tasks !! i with
                               | Some ti => mainLeft ti (lastOf i rest)
                               | None => false
                               end) (seq 0 j) = true) as Hb.
  { destruct He as [-> | ->]; cbn [okGlobal] in Hok; by rewrite Ht in Hok. }
  apply andb_true_iff in Hb as [Hgate%bool_decide_eq_true Hall]. split.
  - rewrite Hgate. destruct He as [-> | ->]; [by rewrite decide_True|by rewrite decide_False].
  - intros i Hi. rewrite forallb_forall in Hall. specialize (Hall i).
    destruct (tasks !! i) as [ti|]; [exists ti; split; [done|]|exfalso; apply diff_false_true];
      apply Hall, in_seq; lia.
Qed.



(** ** The slot of [moduleSyncChan] *)

Lemma isCmdEvent_idx j e : isCmdEvent j e = true -> evIdx e = Some j /\ stage e = 4.
Proof.
  destruct e; cbn; try done; intros ->%Nat.eqb_eq; done.
Qed.

(** C8: with the one slot of [moduleSyncChan], for two parallel tasks
    [i] before [j] that both pass the gate, every command of [j] starts and
    ends after the goroutine of [i] has ended its command sequence and given
    the slot back, and no command of [i] starts or ends after a command of
    [j]; the order is that of the events of the run. *)
Theorem parallel_tasks_serialized config vars w0 sched s i j ti tj :
  run config vars sched (initState w0) = Some s ->
  Tasks config !! i = Some ti -> Tasks config !! j = Some tj ->
  Parallel ti = true -> Parallel tj = true ->
  i < j ->
  EvDispatch i ∈ trace s ->
  forall l1 ej l2,
    trace s = l1 ++ ej :: l2 -> isCmdEvent j ej = true ->
    EvRelease i ∈ l2
    /\ (EvCompleted i ∈ l2 \/ EvErrored i ∈ l2)
    /\ forall ei, ei ∈ l1 -> isCmdEvent i ei = false.
Proof.
  intros Hrun Hti Htj Hpi Hpj Hij Hdi l1 ej l2 Htr Hcmd.
  pose proof (run_inv _ _ _ _ _ Hrun) as HI. pose proof (inv_wf _ _ HI) as Hwf.
  set (tasks := Tasks config) in *.
  destruct (isCmdEvent_idx _ _ Hcmd) as [Hidx Hst].
  assert (Hwf2 : wfTrace tasks (ej :: l2) = true) by (rewrite Htr in Hwf; by eapply wfTrace_app).
  apply wfTrace_cons in Hwf2 as [Hnext Hwf2].
  destruct (okNext_inv _ _ _ _ Hidx Hnext) as (t' & Ht' & Hok & _).
  assert (t' = tj) as -> by congruence.
  (* the goroutine of j was started before *)
  assert (EvSpawn j ∈ l2) as Hsj.
  { destruct (lastOf j l2) as [prev|] eqn:Hprev; [|by destruct ej].
    destruct (present _ _ _ _ _ Hwf2 Hprev Htj) as (_ & Hs & _). apply Hs; [|done].
    destruct ej, prev; cbn in Hok, Hst |- *; try done; lia. }
  destruct (wf_before _ _ _ j Hwf2 Hsj eq_refl) as (a & l4 & t4 & Hl2 & Ht4 & Hok4 & Hglob4 & Hwf4).
  assert (t4 = tj) as -> by congruence.
  assert (EvDispatch j ∈ l4) as Hdj.
  { destruct (lastOf j l4) as [prev|] eqn:Hprev; [|done].
    pose proof (lastOf_elem _ _ _ Hprev) as Hel. pose proof (lastOf_idx _ _ _ Hprev) as Hid.
    destruct prev; cbn in Hok4; try done. cbn in Hid. by injection Hid as ->. }
  destruct (wf_before _ _ _ j Hwf4 Hdj eq_refl) as (b & l6 & t6 & Hl4 & Ht6 & _ & Hglob6 & Hwf6).
  destruct (okGlobal_gate tasks l6 (EvDispatch j) j t6 ltac:(by right) Ht6 Hglob6) as [_ Hleft].
  destruct (Hleft i Hij) as (ti' & Hti' & Hml). assert (ti' = ti) as -> by congruence.
  (* the goroutine of i was started before that of j *)
  assert (EvSpawn i ∈ l4) as Hsi.
  { rewrite Hl4. apply elem_of_later.
    destruct (lastOf i l6) as [li|] eqn:Hli; [|done].
    destruct (present _ _ _ _ _ Hwf6 Hli Hti) as (_ & Hs & _). apply Hs; [|done].
    destruct (decide (2 <= stage li)) as [|Hlow]; [done|]. exfalso.
    destruct li; cbn in Hml, Hlow; try done; try lia.
    pose proof (lastOf_elem _ _ _ Hli) as Hel. pose proof (lastOf_idx _ _ _ Hli) as Hid.
    cbn in Hid. injection Hid as ->.
    apply (skipped_not_dispatched tasks (trace s) i Hwf); [|done].
    rewrite Htr, Hl2, Hl4. do 3 apply elem_of_later. done. }
  assert (EvRelease i ∈ l4) as Hri.
  { cbn [okGlobal] in Hglob4. rewrite forallb_forall in Hglob4.
    specialize (Hglob4 (EvSpawn i) ltac:(by apply list_elem_of_In)).
    by apply bool_decide_eq_true in Hglob4. }
  assert (EvRelease i ∈ l2) as Hri2 by (rewrite Hl2; by apply elem_of_later).
  split; [done|]. split.
  - destruct (lastOf_Some_elem i _ _ Hri2 eq_refl) as [l Hl].
    pose proof (stage_mono _ _ _ _ _ Hwf2 Hri2 eq_refl Hl) as Hmono. cbn in Hmono.
    destruct (present _ _ _ _ _ Hwf2 Hl Hti) as (_ & _ & _ & Hm & _).
    apply (ended_before_mark tasks l2 i (Name ti) Hwf2). apply Hm. lia.
  - intros ei (x & y & ->)%list_elem_of_split.
    destruct (isCmdEvent i ei) eqn:Hci; [|done]. exfalso.
    destruct (isCmdEvent_idx _ _ Hci) as [Hidi Hsti].
    rewrite Htr, <- app_assoc in Hwf. cbn [app] in Hwf.
    apply wfTrace_app, wfTrace_cons in Hwf as [Hnexti Hwfi].
    destruct (okNext_inv _ _ _ _ Hidi Hnexti) as (t8 & _ & Hoki & _).
    assert (EvRelease i ∈ y ++ ej :: l2) as Hin by by apply elem_of_later.
    destruct (lastOf_Some_elem i _ _ Hin eq_refl) as [l Hl].
    pose proof (stage_mono _ _ _ _ _ Hwfi Hin eq_refl Hl) as Hmono. cbn in Hmono.
    rewrite Hl in Hoki. destruct ei, l; cbn in Hoki, Hmono, Hsti; try done; lia.
Qed.

(** ** The control thread inside a sequential task follows [runTask] *)

Lemma run_main_app config vars n m s s1 s2 :
  run config vars (replicate n TMain) s = Some s1 ->
  run config vars (replicate m TMain) s1 = Some s2 ->
  run config vars (replicate (n + m) TMain) s = Some s2.
Proof.
  revert s. induction n as [|n IH]; intros s; cbn [replicate run Nat.add].
  - by intros [= ->].
  - destruct (step config vars TMain s); [apply IH|done].
Qed.

Lemma runCmds_steps config vars i t rest s :
  mainPc s = MTask i t (PRun rest) ->
  exists n,
    run config vars (replicate n TMain) s
    = Some (let '(w1, tr1, failed) := runCmds i rest (Silent t) vars (world s) (trace s) in
            mkState (MTask i t (if failed then PFail else PRun [])) (gos s) (taskCompleted s)
              (errorOccurred s) (chanLen s) (wgCount s) w1 tr1).
Proof.
  revert s. induction rest as [|cmd rest IH]; intros s Hpc.
  - exists 0. destruct s. cbn in *. by subst.
  - cbn [runCmds]. unfold executeCommand.
    set (rendered := replacePlaceholders (world s) cmd vars).
    destruct (sh rendered (Silent t) (world s)) as [w1 err] eqn:Hsh.
    set (s1 := pushEvent (EvCmdStart i rendered) (setMain (MTask i t (PCmd rendered rest)) s)).
    assert (Hs1 : step config vars TMain s = Some s1).
    { unfold step, mainStep. by rewrite Hpc. }
    destruct err.
    + exists 2. cbn [replicate run]. rewrite Hs1.
      unfold step, mainStep. cbn. by rewrite Hsh.
    + set (s2 := pushEvent (EvCmdEnd i true)
                   (setMain (MTask i t (PRun rest)) (setWorld w1 s1))).
      assert (Hs2 : step config vars TMain s1 = Some s2).
      { unfold step, mainStep. cbn. by rewrite Hsh. }
      destruct (IH s2 eq_refl) as [n Hn]. exists (2 + n).
      apply (run_main_app _ _ 2 n s s2); [|done].
      cbn [replicate run]. by rewrite Hs1, Hs2.
Qed.

(** From the entry of a sequential task the control thread alone reaches
    the state [runTask] computes: at [PFail] when it returns an error, at
    [PMark] after the line [completed] otherwise. *)
Lemma runTask_steps config vars i t s :
  mainPc s = MTask i t PStart ->
  exists n,
    run config vars (replicate n TMain) s
    = Some (let '(w1, tr1, failed) := runTask i (Cmds t) (Silent t) vars (world s) (trace s) in
            mkState (MTask i t (if failed then PFail else PMark)) (gos s) (taskCompleted s)
              (errorOccurred s) (chanLen s) (wgCount s) w1 tr1).
Proof.
  intros Hpc. unfold runTask.
  set (s1 := pushEvent (EvRunning i) (setMain (MTask i t (PRun (Cmds t))) s)).
  assert (Hs1 : step config vars TMain s = Some s1).
  { unfold step, mainStep. by rewrite Hpc. }
  destruct (runCmds_steps config vars i t (Cmds t) s1 eq_refl) as [n Hn].
  cbn [world trace s1 pushEvent setMain] in Hn.
  destruct (runCmds i (Cmds t) (Silent t) vars (world s) (EvRunning i :: trace s))
    as [[w1 tr1] failed].
  assert (H1 : run config vars (replicate 1 TMain) s = Some s1).
  { cbn [replicate run]. by rewrite Hs1. }
  pose proof (run_main_app _ _ 1 n s s1 _ H1 Hn) as H1n.
  destruct failed.
  - by exists (1 + n).
  - exists (1 + n + 1). apply (run_main_app _ _ (1 + n) 1 s _ _ H1n). done.
Qed.

(** * Further properties of the code *)

(** ** [parseArgs] and [main] *)

Lemma splitEq_join k v : noEq k = true -> splitEq (k +:+ "=" +:+ v) = Some (k, v).
Proof.
  induction k as [|c k IH]; [done|].
  cbn [noEq]. intros [Hc Hk]%andb_true_iff. rewrite app_cons_s. cbn [splitEq].
  apply negb_true_iff in Hc. rewrite Hc. by rewrite (IH Hk).
Qed.

Lemma splitEq_Some arg k v :
  splitEq arg = Some (k, v) -> arg = k +:+ "=" +:+ v /\ noEq k = true.
Proof.
  revert k. induction arg as [|c arg IH]; intros k; [done|]. cbn [splitEq].
  destruct (Ascii.eqb c "=") eqn:Hc.
  - intros [= <- <-]. apply Ascii.eqb_eq in Hc as ->. done.
  - destruct (splitEq arg) as [[k' v']|]; [|done]. intros [= <- <-].
    destruct (IH k' eq_refl) as [-> Hk]. split; [done|]. cbn [noEq]. by rewrite Hc, Hk.
Qed.

Lemma splitEq_None arg : splitEq arg = None <-> noEq arg = true.
Proof.
  induction arg as [|c arg IH]; [done|]. cbn [splitEq noEq].
  destruct (Ascii.eqb c "="); cbn; [done|].
  destruct (splitEq arg) as [[k v]|]; [|by rewrite <- IH].
  split; [done|]. intros H. by apply IH in H.
Qed.

(** X1: [strings.SplitN(arg, "=", 2)] as [parseArgs] uses it: the key is
    what stands before the first [=], the value all that follows, further
    [=] included; an argument is an assignment exactly when it has an [=]. *)
Theorem splitEq_first_separator :
  (forall k v, noEq k = true -> splitEq (k +:+ "=" +:+ v) = Some (k, v))
  /\ (forall arg k v, splitEq arg = Some (k, v) -> arg = k +:+ "=" +:+ v /\ noEq k = true)
  /\ (forall arg, splitEq arg = None <-> noEq arg = true).
Proof.
  split; [apply splitEq_join|]. split; [apply splitEq_Some|apply splitEq_None].
Qed.

Lemma scanArgs_usage args (vars0 : gmap string string) :
  (scanArgs args vars0).1 = usageRequested args.
Proof.
  revert vars0. induction args as [|arg args IH]; intros vars0; [done|].
  cbn [scanArgs usageRequested existsb].
  destruct (String.eqb arg "usage" || String.eqb arg "USAGE"); [done|].
  cbn [orb]. destruct (splitEq arg) as [[k v]|]; apply IH.
Qed.

Lemma usageRequested_elem args :
  usageRequested args = true <-> "usage" ∈ args \/ "USAGE" ∈ args.
Proof.
  unfold usageRequested. rewrite existsb_exists. split.
  - intros (arg & Hin%list_elem_of_In & [H|H]%orb_true_iff);
      apply String.eqb_eq in H; subst; auto.
  - intros [Hin|Hin]; [exists "usage"|exists "USAGE"];
      (split; [by apply list_elem_of_In|done]).
Qed.

(** X2: the environment [parseArgs] returns binds each name to the value
    of its last assignment on the command line, else to its default; it is
    the same whatever the order in which the runtime ranges over the
    defaults, and [parseArgs] returns exactly when usage is not asked for. *)
Theorem parseArgs_merge w defaults args variables :
  parseArgs w defaults args = inr variables ->
  usageRequested args = false
  /\ (forall X, variables !! X
                = match overrideOf X args with
                  | Some v => Some v
                  | None => defaults !! X
                  end)
  /\ forall w', parseArgs w' defaults args = inr variables.
Proof.
  intros Hp. split; [|split].
  - unfold parseArgs in Hp. rewrite <- (scanArgs_usage args ∅).
    destruct (scanArgs args ∅) as [[|] overrides]; [done|done].
  - intros X. by apply (parseArgs_lookup w).
  - intros w'. destruct (parseArgs w' defaults args) as [lines|variables'] eqn:Hp'.
    + unfold parseArgs in Hp, Hp'. destruct (scanArgs args ∅) as [[|] overrides]; done.
    + f_equal. apply map_eq. intros X.
      by rewrite (parseArgs_lookup _ _ _ _ X Hp), (parseArgs_lookup _ _ _ _ X Hp').
Qed.

Lemma parseArgs_usageRequested w defaults args :
  match parseArgs w defaults args with
  | inl lines => usageRequested args = true
                 /\ lines = usageLines defaults (rangeVars w defaults)
  | inr _ => usageRequested args = false
  end.
Proof.
  unfold parseArgs. rewrite <- (scanArgs_usage args ∅).
  by destruct (scanArgs args ∅) as [[|] overrides].
Qed.

Lemma omap_usage_lines (entries : list (string * string)) :
  (forall kv, kv ∈ entries -> kv.1 <> "USAGE") ->
  omap (fun kv => if String.eqb kv.1 "USAGE" then None
                  else Some (kv.1 +:+ ": " +:+ kv.2)) entries
  = map (fun kv => kv.1 +:+ ": " +:+ kv.2) entries.
Proof.
  induction entries as [|kv entries IH]; [done|]. intros Hall. cbn [omap list_omap map].
  destruct (String.eqb_spec kv.1 "USAGE") as [Heq|_].
  - destruct (Hall kv); [left|done].
  - cbn. f_equal. apply IH. intros kv' Hin. apply Hall. by right.
Qed.

(** X3: the text [parseArgs] prints for [usage]: the heading, the value
    of the variable [USAGE] (an empty line when the workflow has none), and
    under [Variables from YAML:] one line [name: value] for every default
    variable other than [USAGE], each exactly once, in the order the runtime
    yields them. *)
Theorem usage_text w defaults args lines :
  parseArgs w defaults args = inl lines ->
  exists varLines,
    lines = ["Usage:"; default "" (defaults !! "USAGE"); ""; "Variables from YAML:"]
            ++ varLines
    /\ varLines ≡ₚ map (fun kv => kv.1 +:+ ": " +:+ kv.2)
                      (map_to_list (delete "USAGE" defaults)).
Proof.
  intros Hp. pose proof (parseArgs_usageRequested w defaults args) as Hu.
  rewrite Hp in Hu. destruct Hu as [_ ->]. unfold usageLines.
  eexists. split; [done|]. rewrite (rangeVars_perm w defaults).
  destruct (defaults !! "USAGE") as [x|] eqn:Hx.
  - rewrite <- (map_to_list_delete defaults "USAGE" x Hx). cbn [omap list_omap].
    cbn. rewrite omap_usage_lines; [done|].
    intros [k v] Hin%elem_of_map_to_list Heq. cbn in Heq. subst k.
    by rewrite lookup_delete_eq in Hin.
  - rewrite (delete_id defaults "USAGE" Hx). rewrite omap_usage_lines; [done|].
    intros [k v] Hin%elem_of_map_to_list Heq. cbn in Heq. subst k. congruence.
Qed.

(** X4: when [usage] or [USAGE] is among the arguments, [main] prints the
    usage text and exits with status 0, whatever the workflow file is
    (missing, unreadable or not YAML included) and whatever the other
    arguments are; no task is run.  With a file that cannot be read the
    text has the headings only. *)
Theorem usage_request_wins w taskFile quietMode args :
  "usage" ∈ args \/ "USAGE" ∈ args ->
  main w taskFile quietMode args = main w taskFile quietMode ["usage"]
  /\ (exists rest,
         main w taskFile quietMode args
         = Exited 0 (bannerLines quietMode ++ "Usage:" :: rest))
  /\ (readFile w taskFile = None ->
      main w taskFile quietMode args
      = Exited 0 (bannerLines quietMode ++ ["Usage:"; ""; ""; "Variables from YAML:"])).
Proof.
  intros Hu%usageRequested_elem. unfold main.
  set (defaultVars := match readFile w taskFile with
                      | Some content => match yamlUnmarshal content with
                                        | Some config => Vars config
                                        | None => ∅
                                        end
                      | None => ∅
                      end).
  pose proof (parseArgs_usageRequested w defaultVars args) as Hp.
  destruct (parseArgs w defaultVars args) as [lines|variables]; [|congruence].
  destruct Hp as [_ ->]. split_and!; [done|by eexists|].
  intros Hread. subst defaultVars. rewrite Hread. unfold usageLines.
  pose proof (rangeVars_perm w ∅) as Hperm. rewrite map_to_list_empty in Hperm.
  apply Permutation_nil_r in Hperm. by rewrite Hperm.
Qed.

(** X5: [main] enters [runAllTasks] exactly when a workflow file is named,
    usage is not asked for, the file can be read and its content is YAML for
    a workflow; the variables it passes on are the assignments of the command
    line over the defaults of that workflow.  It exits with status 1
    exactly when the file is named, usage is not asked for, and the file
    cannot be read or parsed. *)
Theorem main_outcome w taskFile quietMode args :
  (forall stderr config variables,
      main w taskFile quietMode args = Proceed stderr config variables
      <-> taskFile <> "" /\ usageRequested args = false
          /\ stderr = bannerLines quietMode
          /\ (exists content,
                 readFile w taskFile = Some content /\ yamlUnmarshal content = Some config)
          /\ forall X, variables !! X
                       = match overrideOf X args with
                         | Some v => Some v
                         | None => Vars config !! X
                         end)
  /\ (forall stderr,
         main w taskFile quietMode args = Exited 1 stderr
         <-> taskFile <> "" /\ usageRequested args = false
             /\ (readFile w taskFile = None
                 /\ stderr = bannerLines quietMode
                             ++ ["Error reading workflow file: "
                                 +:+ readFileError w taskFile]
                 \/ exists content,
                     readFile w taskFile = Some content /\ yamlUnmarshal content = None
                     /\ stderr = bannerLines quietMode
                                 ++ ["Error unmarshaling YAML: " +:+ yamlError content])).
Proof.
  clear sh. unfold main.
  set (defaultVars := match readFile w taskFile with
                      | Some content => match yamlUnmarshal content with
                                        | Some config => Vars config
                                        | None => ∅
                                        end
                      | None => ∅
                      end).
  pose proof (parseArgs_usageRequested w defaultVars args) as Hp.
  destruct (parseArgs w defaultVars args) as [lines|variables] eqn:Hparse.
  { destruct Hp as [Hu _].
    split; intros; (split; [done|]); rewrite Hu; intros (_ & ? & _); done. }
  rewrite Hp. destruct (String.eqb taskFile "") eqn:Hfile.
  { apply String.eqb_eq in Hfile.
    split; intros; (split; [done|]); intros (? & _); done. }
  apply String.eqb_neq in Hfile. subst defaultVars.
  destruct (readFile w taskFile) as [content|] eqn:Hread.
  2:{ split; intros.
      - split; [done|]. intros (_ & _ & _ & (content & ? & _) & _). done.
      - split.
        + intros [= <-]. split_and!; [done|done|]. by left.
        + intros (_ & _ & [[_ ->]|(content & ? & _)]); done. }
  destruct (yamlUnmarshal content) as [config|] eqn:Hyaml.
  2:{ split; intros.
      - split; [done|]. intros (_ & _ & _ & (c & [= <-] & ?) & _). congruence.
      - split.
        + intros [= <-]. split_and!; [done|done|]. right. by exists content.
        + intros (_ & _ & [[? _]|(c & [= <-] & _ & ->)]); done. }
  split.
  2:{ intros stderr. split; [done|].
      intros (_ & _ & [[? _]|(c & [= <-] & ? & _)]); [done|congruence]. }
  intros stderr config' variables'. split.
  - intros [= <- <- <-]. split_and!; try done; [by exists content|].
    intros X. by apply (parseArgs_lookup w).
  - intros (_ & _ & -> & (content' & [= <-] & Hc) & Hvars).
    assert (config' = config) as -> by congruence.
    f_equal. apply map_eq. intros X.
    by rewrite (parseArgs_lookup _ _ _ _ X Hparse), Hvars.
Qed.

(** ** [replacePlaceholders] and [executeCommand] *)

Lemma replaceFrom_absent old new s :
  occurs old s = false -> replaceFrom old new 0 s = s.
Proof.
  induction s as [|c s IH]; [done|].
  cbn [occurs replaceFrom]. intros [Hp Ho]%orb_false_iff.
  by rewrite Hp, (IH Ho).
Qed.

Lemma replacePlaceholdersIn_absent entries input :
  (forall kv, kv ∈ entries -> occurs (placeholder kv.1) input = false) ->
  replacePlaceholdersIn entries input = input.
Proof.
  unfold replacePlaceholdersIn. induction entries as [|kv entries IH]; [done|].
  intros Hall. cbn [fold_left].
  rewrite ReplaceAll_placeholder, replaceFrom_absent by (apply Hall; left).
  apply IH. intros kv' Hin. apply Hall. by right.
Qed.

(** X6: a command in which the token of no bound variable occurs is handed
    to the shell as it is written, byte for byte; so is every command when
    no variable is bound. *)
Theorem command_without_tokens_verbatim w input silent (vars : gmap string string) :
  (forall key value, vars !! key = Some value -> occurs (placeholder key) input = false) ->
  replacePlaceholders w input vars = input
  /\ executeCommand input silent vars w = sh input silent w.
Proof.
  intros Hfree.
  assert (replacePlaceholders w input vars = input) as Hsame.
  { apply replacePlaceholdersIn_absent. intros [key value] Hin. apply (Hfree key value).
    apply elem_of_map_to_list. by rewrite <- (rangeVars_perm w vars). }
  split; [done|]. unfold executeCommand. by rewrite Hsame.
Qed.

Lemma envOk_lookup (vars : gmap string string) key value :
  envOk (map_to_list vars) = true -> vars !! key = Some value ->
  braceFree key = true /\ braceFree value = true.
Proof.
  unfold envOk. rewrite forallb_forall. intros Hall Hkey.
  apply elem_of_map_to_list, list_elem_of_In, Hall in Hkey.
  by apply andb_true_iff in Hkey.
Qed.

Lemma resolveSeg_wellFormed (vars : gmap string string) t :
  envOk (map_to_list vars) = true -> wellFormed t = true ->
  wellFormed (map (resolveSeg vars) t) = true.
Proof.
  intros Henv. unfold wellFormed. induction t as [|seg t IH]; [done|].
  cbn [forallb map]. intros [Hseg Ht]%andb_true_iff. rewrite (IH Ht), andb_true_r.
  destruct seg as [s|name]; [done|]. cbn [resolveSeg].
  destruct (vars !! name) as [v|] eqn:Hv; [|done].
  by destruct (envOk_lookup _ _ _ Henv Hv).
Qed.

Lemma resolveSeg_idem (vars : gmap string string) seg :
  resolveSeg vars (resolveSeg vars seg) = resolveSeg vars seg.
Proof.
  destruct seg as [s|name]; [done|]. cbn [resolveSeg].
  destruct (vars !! name) as [v|] eqn:Hv; [done|]. cbn [resolveSeg]. by rewrite Hv.
Qed.

(** X7: on a command made of brace-free text and tokens, under an
    environment with brace-free names and values, rendering is idempotent:
    rendering the rendered command again, in whatever order the runtime
    yields the variables, changes nothing. *)
Theorem replacePlaceholders_idempotent w w' (vars : gmap string string) t :
  wellFormed t = true ->
  envOk (map_to_list vars) = true ->
  replacePlaceholders w' (replacePlaceholders w (flatten t) vars) vars
  = replacePlaceholders w (flatten t) vars.
Proof.
  intros Ht Henv. unfold replacePlaceholders.
  rewrite (render_order vars (rangeVars w vars) t) by auto.
  rewrite (render_order vars (rangeVars w' vars)) by auto using resolveSeg_wellFormed.
  f_equal. rewrite map_map. apply map_ext. intros seg. apply resolveSeg_idem.
Qed.

(** X8: with a single variable the value is put in as it is: every
    token of that name in a command made of brace-free text and tokens is
    replaced by the value, whatever the value holds, braces and the token
    itself included; the value is not scanned again, and the other tokens
    stay. *)
Theorem single_variable_literal w key value t :
  braceFree key = true -> wellFormed t = true ->
  replacePlaceholders w (flatten t) {[key := value]}
  = flatten (map (substSeg key value) t).
Proof.
  intros Hkey Ht. unfold replacePlaceholders.
  pose proof (rangeVars_perm w {[key := value]}) as Hperm.
  rewrite map_to_list_singleton in Hperm. apply Permutation_singleton_r in Hperm.
  rewrite Hperm. unfold replacePlaceholdersIn. cbn [fold_left fst snd].
  by apply ReplaceAll_template.
Qed.

(** ** [runTask] *)

Lemma succeedAll_or_first_failure cmds silent vars w :
  (exists w1, succeedAll cmds silent vars w = Some w1)
  \/ exists pre cmd post w',
      cmds = pre ++ cmd :: post
      /\ succeedAll pre silent vars w = Some w'
      /\ (executeCommand cmd silent vars w').2 = true.
Proof.
  revert w. induction cmds as [|cmd cmds IH]; intros w; [left; by exists w|].
  cbn [succeedAll]. destruct (executeCommand cmd silent vars w) as [w1 err] eqn:Hexec.
  destruct err.
  - right. exists [], cmd, cmds, w. by rewrite Hexec.
  - destruct (IH w1) as [[w2 Hall]|(pre & c & post & w' & -> & Hpre & Hfail)].
    + left. by exists w2.
    + right. exists (cmd :: pre), c, post, w'. split; [done|]. split; [|done].
      cbn [succeedAll]. by rewrite Hexec.
Qed.

(** X9: every call of [runTask] ends in one of two ways.  It returns nil
    exactly when each command, run in order, exits with status zero; then
    all commands were run and the line [completed] is the last thing it
    prints.  Otherwise it returns an error; then some command is the first
    to fail, it is the last one started, and [completed] is not printed. *)
Theorem runTask_outcome i cmds silent vars w tr :
  match runTask i cmds silent vars w tr with
  | (w1, tr1, false) =>
      succeedAll cmds silent vars w = Some w1
      /\ exists new,
          tr1 = EvCompleted i :: new ++ tr
          /\ startedCmds new = renderedRun cmds silent vars w
          /\ cmdResults new = replicate (length cmds) true
  | (w1, tr1, true) =>
      exists pre cmd post w',
        cmds = pre ++ cmd :: post
        /\ succeedAll pre silent vars w = Some w'
        /\ executeCommand cmd silent vars w' = (w1, true)
        /\ exists new,
            tr1 = new ++ tr
            /\ startedCmds new = renderedRun (pre ++ [cmd]) silent vars w
            /\ cmdResults new = replicate (length pre) true ++ [false]
            /\ EvCompleted i ∉ new
  end.
Proof.
  destruct (succeedAll_or_first_failure cmds silent vars w)
    as [[w1 Hall]|(pre & cmd & post & w' & -> & Hpre & Hfail)].
  - destruct (runCmds_all_ok i cmds silent vars w (EvRunning i :: tr) w1 Hall)
      as (new & Hrun & Hs & Hr & _ & _).
    unfold runTask. rewrite Hrun. split; [done|].
    exists (new ++ [EvRunning i]). rewrite <- app_assoc. split; [done|].
    by rewrite startedCmds_app, cmdResults_app, Hs, Hr.
  - destruct (runCmds_first_failure i pre cmd post silent vars w (EvRunning i :: tr) w' Hpre Hfail)
      as (new & Hrun & Hs & Hr & Hc & _).
    unfold runTask. rewrite Hrun. exists pre, cmd, post, w'. split_and!; try done.
    { by destruct (executeCommand cmd silent vars w') as [w2 err]; simplify_eq/=. }
    exists (new ++ [EvRunning i]). rewrite <- app_assoc. split; [done|].
    rewrite startedCmds_app, cmdResults_app, Hs, Hr. split_and!; try done.
    rewrite elem_of_app, list_elem_of_singleton. by intros [?|?].
Qed.

(** ** The dependency check *)

(** X10: a task passes the dependency check exactly when every name it
    requires is recorded as completed; a name that is missing from the
    record counts as not completed.  The outcome does not depend on the
    order or the repetition of the required names, and a check that passes
    still passes on any larger record. *)
Theorem dependencyGate_contract t (record : gmap string bool) :
  (dependencyGate t record = true <-> forall r, r ∈ Required t -> record !! r = Some true)
  /\ (dependencyGate t record = false
      <-> exists r, r ∈ Required t /\ record !! r <> Some true)
  /\ (forall t', (forall r, r ∈ Required t' <-> r ∈ Required t) ->
                 dependencyGate t' record = dependencyGate t record)
  /\ (forall record' : gmap string bool,
         record ⊆ record' -> dependencyGate t record = true ->
         dependencyGate t record' = true).
Proof.
  split_and!.
  - apply dependencyGate_true.
  - split.
    + intros Hgate. unfold dependencyGate in Hgate.
      destruct (0 <? length (Required t)); [|done].
      induction (Required t) as [|req rest IH]; [done|]. cbn [allRequiredCompleted] in Hgate.
      destruct (record !! req) as [[|]|] eqn:Hreq; cbn in Hgate.
      * destruct (IH Hgate) as (r & Hin & Hr). exists r. split; [by right|done].
      * exists req. split; [left|congruence].
      * exists req. split; [left|congruence].
    + intros (r & Hin & Hr). by apply (dependencyGate_false t record r).
  - intros t' Hsame. apply eq_true_iff_eq. rewrite !dependencyGate_true.
    split; intros Hall r Hin; apply Hall; by apply Hsame.
  - intros record' Hsub. rewrite !dependencyGate_true. intros Hall r Hin.
    eapply lookup_weaken; [by apply Hall|done].
Qed.

(** ** Runs of [runAllTasks] *)

Lemma existsb_app_true {A} (f : A -> bool) l1 l2 :
  existsb f l2 = true -> existsb f (l1 ++ l2) = true.
Proof. intros H. rewrite existsb_app, H. apply orb_true_r. Qed.

(** X11: along a run the completion record only grows and holds no entry
    other than [true], so a dependency check that passes at some point of
    the run passes at every later point; the error flag, once set, stays
    set. *)
Theorem record_only_grows config vars w0 sched1 sched2 s1 s2 :
  run config vars sched1 (initState w0) = Some s1 ->
  run config vars sched2 s1 = Some s2 ->
  (forall name b, taskCompleted s1 !! name = Some b ->
                  b = true /\ taskCompleted s2 !! name = Some true)
  /\ (forall t, dependencyGate t (taskCompleted s1) = true ->
                dependencyGate t (taskCompleted s2) = true)
  /\ (errorOccurred s1 = true -> errorOccurred s2 = true).
Proof.
  intros Hrun1 Hrun2.
  assert (Reach config vars w0 s1) as Hreach1 by (eapply run_reach; [apply Reach_init|done]).
  pose proof (reach_inv _ _ _ _ Hreach1) as HI1.
  pose proof (reach_inv _ _ _ _ (run_reach _ _ _ _ _ _ Hreach1 Hrun2)) as HI2.
  destruct (run_trace _ _ _ _ _ Hrun2) as [l Htr].
  rewrite (inv_record _ _ HI1), (inv_record _ _ HI2), (inv_error _ _ HI1),
    (inv_error _ _ HI2), Htr.
  assert (forall name b, recordOf (trace s1) !! name = Some b ->
                         b = true /\ recordOf (l ++ trace s1) !! name = Some true) as Hgrow.
  { intros name b Hb. destruct (recordOf_lookup _ _ _ Hb) as [-> _].
    split; [done|]. by apply recordOf_app_mono. }
  split_and!; [done| |apply existsb_app_true].
  intros t. rewrite !dependencyGate_true. intros Hall r Hin.
  by apply (Hgrow r true), Hall.
Qed.

Lemma release_parallel tasks tr j t :
  wfTrace tasks tr = true -> EvRelease j ∈ tr -> tasks !! j = Some t -> Parallel t = true.
Proof.
  intros Hwf Hin Ht.
  destruct (wf_before _ _ _ j Hwf Hin eq_refl) as (l1 & r & t' & _ & Ht' & Hok & _).
  assert (t' = t) as -> by congruence.
  destruct (lastOf j r) as [[]|]; cbn in Hok; done.
Qed.

Lemma goroutine_parallel config s i t pc :
  Inv config s -> gos s !! i = Some (t, pc) ->
  Tasks config !! i = Some t /\ Parallel t = true.
Proof.
  intros HI Hi.
  destruct (inv_thread _ _ i HI) as (t' & prev & Ht & Hlast & Hloc & _).
  { right. by rewrite Hi. }
  rewrite Hi in Hloc. destruct pc as [ph| |].
  - by destruct (local_go_body _ _ _ _ _ Hloc) as (-> & ? & _).
  - by destruct (local_go_release _ _ _ _ Hloc) as (-> & ? & _).
  - destruct (local_go_done _ _ _ _ Hloc) as (-> & _ & k & ->). split; [done|].
    pose proof (lastOf_idx _ _ _ Hlast) as [= ->].
    eapply release_parallel; [apply (inv_wf _ _ HI)|by eapply lastOf_elem|done].
Qed.


Lemma stage_order tasks l1 e l2 e' j :
  wfTrace tasks (l1 ++ e :: l2) = true ->
  evIdx e = Some j -> e' ∈ l2 -> evIdx e' = Some j ->
  stage e' <= stage e /\ (stage e <> 4 -> stage e' < stage e).
Proof.
  intros Hwf He Hin He'. apply wfTrace_app, wfTrace_cons in Hwf as [Hnext Hwf].
  destruct (okNext_inv _ _ _ _ He Hnext) as (t & _ & Hok & _).
  destruct (lastOf_Some_elem j l2 e' Hin He') as [l Hl].
  pose proof (stage_mono _ _ _ _ _ Hwf Hin He' Hl) as Hle.
  rewrite Hl in Hok.
  destruct e, l; cbn in Hok; try done; cbn [stage] in *; try lia;
    destruct ok; try done; cbn [stage] in *; lia.
Qed.

Lemma verdict_once tasks tr j e e' :
  wfTrace tasks tr = true ->
  e ∈ tr -> e' ∈ tr -> evIdx e = Some j -> evIdx e' = Some j ->
  stage e = stage e' -> stage e <> 4 -> e = e'.
Proof.
  intros Hwf Hin Hin' He He' Hst H4.
  apply list_elem_of_split in Hin as (l1 & l2 & ->).
  rewrite elem_of_app, elem_of_cons in Hin'. destruct Hin' as [Hin'|[->|Hin']]; [|done|].
  - apply list_elem_of_split in Hin' as (a & b & ->). rewrite <- app_assoc in Hwf.
    cbn [app] in Hwf.
    destruct (stage_order _ _ _ _ e j Hwf He') as [_ Hlt]; [|done|];
      [apply elem_of_app; right; left|]. lia.
  - destruct (stage_order _ _ _ _ e' j Hwf He Hin' He') as [_ Hlt]. lia.
Qed.

(** X13: the lines a task gets are consistent.  A task reported
    [completed] is not reported [errored] and none of its commands failed;
    a task reported [errored] had a command that failed; its completion is
    recorded only after one of the two reports; and each report of a task
    other than the run of a command (skipping, running, completed, errored,
    the write of the record) occurs at most once in a run. *)
Theorem task_reports_consistent config vars w0 sched s i :
  run config vars sched (initState w0) = Some s ->
  (EvCompleted i ∈ trace s -> (EvErrored i ∉ trace s) /\ (EvCmdEnd i false ∉ trace s))
  /\ (EvErrored i ∈ trace s -> EvCmdEnd i false ∈ trace s)
  /\ (forall name, EvMark i name ∈ trace s ->
                   EvCompleted i ∈ trace s \/ EvErrored i ∈ trace s)
  /\ (forall l1 e l2,
         trace s = l1 ++ e :: l2 -> evIdx e = Some i -> stage e <> 4 ->
         forall e', e' ∈ (l1 ++ l2) -> evIdx e' = Some i -> stage e' <> stage e).
Proof.
  clear readFile yamlUnmarshal readFileError yamlError. intros Hrun. pose proof (inv_wf _ _ (run_inv _ _ _ _ _ Hrun)) as Hwf.
  assert (EvCompleted i ∈ trace s -> EvErrored i ∉ trace s) as Hnot.
  { intros Hc He.
    by pose proof (verdict_once _ _ i _ _ Hwf Hc He eq_refl eq_refl eq_refl ltac:(done)). }
  split_and!.
  - intros Hc. split; [by apply Hnot|]. intros Hf.
    apply list_elem_of_split in Hc as (l1 & l2 & Htr). rewrite Htr in Hwf, Hf, Hnot.
    rewrite elem_of_app, elem_of_cons in Hf. destruct Hf as [Hf|[?|Hf]]; [|done|].
    + apply list_elem_of_split in Hf as (a & b & ->). rewrite <- app_assoc in Hwf.
      cbn [app] in Hwf.
      destruct (stage_order _ _ _ _ (EvCompleted i) i Hwf eq_refl) as [Hle _]; [|done|];
        [apply elem_of_app; right; left|]. cbn in Hle. lia.
    + pose proof Hwf as Hwf2. apply wfTrace_app, wfTrace_cons in Hwf2 as [Hnext Hwf2].
      destruct (okNext_inv _ _ (EvCompleted i) i eq_refl Hnext) as (t & _ & Hok & _).
      destruct (failure_reported _ _ _ Hwf2 Hf) as [Hlast|He].
      * by rewrite Hlast in Hok.
      * apply Hnot; [apply elem_of_app; right; left|]. by apply elem_of_later.
  - by apply (errored_after_failure (Tasks config)).
  - intros name. by apply (ended_before_mark (Tasks config)).
  - intros l1 e l2 Htr He H4 e' Hin He' Hst.
    assert (e' ∈ trace s) as Hin'.
    { rewrite Htr. rewrite elem_of_app in Hin. rewrite elem_of_app, elem_of_cons. tauto. }
    assert (e ∈ trace s) as Hin0.
    { rewrite Htr. apply elem_of_app. right. left. }
    pose proof (verdict_once _ _ i _ _ Hwf Hin0 Hin' He He' (eq_sym Hst) H4) as <-.
    rewrite Htr in Hwf. rewrite elem_of_app in Hin. destruct Hin as [Hin|Hin].
    + apply list_elem_of_split in Hin as (a & b & ->). rewrite <- app_assoc in Hwf.
      cbn [app] in Hwf.
      destruct (stage_order _ _ _ _ e i Hwf He) as [_ Hlt]; [|done|];
        [apply elem_of_app; right; left|]. specialize (Hlt H4). lia.
    + destruct (stage_order _ _ _ _ e i Hwf He Hin He) as [_ Hlt]. specialize (Hlt H4). lia.
Qed.

Lemma earlier_tasks_left tasks ej l2 i j :
  wfTrace tasks (ej :: l2) = true -> evIdx ej = Some j -> i < j ->
  exists a L ti,
    l2 = a ++ L /\ wfTrace tasks L = true /\ tasks !! i = Some ti
    /\ mainLeft ti (lastOf i L) = true.
Proof.
  intros Hwf Hj Hij. apply wfTrace_cons in Hwf as [Hnext Hwf].
  destruct (okNext_inv _ _ _ _ Hj Hnext) as (tj & Htj & Hok & Hglob).
  destruct (lastOf j l2) as [prev|] eqn:Hprev.
  - assert (1 <= stage prev) as Hst.
    { destruct prev; cbn [stage]; try lia. by destruct ej. }
    destruct (present _ _ _ _ _ Hwf Hprev Htj) as (Hd & _). specialize (Hd Hst).
    destruct (wf_before _ _ _ j Hwf Hd eq_refl) as (a & r & t' & -> & Ht' & _ & Hg & Hwfr).
    destruct (okGlobal_gate _ _ (EvDispatch j) j t' (or_intror eq_refl) Ht' Hg) as [_ Hleft].
    destruct (Hleft i Hij) as (ti & Hti & Hl).
    exists (a ++ [EvDispatch j]), r, ti. by rewrite <- app_assoc.
  - assert (ej = EvSkip j \/ ej = EvDispatch j) as Hgate.
    { destruct ej; cbn in Hok, Hj; simplify_eq; auto. }
    destruct (okGlobal_gate _ _ ej j tj Hgate Htj Hglob) as [_ Hleft].
    destruct (Hleft i Hij) as (ti & Hti & Hl). by exists [], l2, ti.
Qed.

Lemma sequential_left tasks L i ti :
  wfTrace tasks L = true -> tasks !! i = Some ti -> Parallel ti = false ->
  mainLeft ti (lastOf i L) = true ->
  lastOf i L = Some (EvSkip i) \/ lastOf i L = Some (EvMark i (Name ti)).
Proof.
  intros Hwf Hti Hseq Hleft. destruct (lastOf i L) as [l|] eqn:Hl; [|done].
  pose proof (lastOf_idx _ _ _ Hl) as Hidx. pose proof (lastOf_elem _ _ _ Hl) as Hin.
  destruct (present _ _ _ _ _ Hwf Hl Hti) as (_ & _ & _ & _ & Hrel).
  destruct l; cbn in Hleft, Hidx; simplify_eq; try congruence; auto.
  - pose proof (spawn_parallel _ _ _ _ Hwf Hin Hti). congruence.
  - right. by rewrite (mark_name _ _ _ _ _ Hwf Hin Hti).
  - pose proof (release_parallel _ _ _ _ Hwf Hin Hti). congruence.
  - cbn in Hrel. pose proof (release_parallel _ _ _ _ Hwf (Hrel ltac:(lia)) Hti). congruence.
Qed.

(** X14: a task that is not parallel has the run to itself.  When
    anything happens for a later task of the workflow, even its dependency
    check, the sequential task has either been skipped or has been
    dispatched, has run to its verdict and has been recorded as completed;
    and nothing happens for it afterwards. *)
Theorem sequential_task_runs_alone config vars w0 sched s i j ti :
  run config vars sched (initState w0) = Some s ->
  Tasks config !! i = Some ti -> Parallel ti = false -> i < j ->
  forall l1 ej l2,
    trace s = l1 ++ ej :: l2 -> evIdx ej = Some j ->
    (EvSkip i ∈ l2
     \/ EvDispatch i ∈ l2 /\ EvMark i (Name ti) ∈ l2
        /\ (EvCompleted i ∈ l2 \/ EvErrored i ∈ l2))
    /\ forall ei, ei ∈ l1 -> evIdx ei <> Some i.
Proof.
  intros Hrun Hti Hseq Hij l1 ej l2 Htr Hj.
  pose proof (inv_wf _ _ (run_inv _ _ _ _ _ Hrun)) as Hwf. rewrite Htr in Hwf.
  destruct (earlier_tasks_left _ _ _ i j (wfTrace_app _ _ _ Hwf) Hj Hij)
    as (a & L & ti' & -> & HwfL & Hti' & Hleft).
  assert (ti' = ti) as -> by congruence.
  assert (forall e, e ∈ L -> e ∈ a ++ L) as Hsub by (intros e He; apply elem_of_app; auto).
  destruct (sequential_left _ _ _ _ HwfL Hti Hseq Hleft) as [Hlast|Hlast].
  - pose proof (lastOf_elem _ _ _ Hlast) as Hskip. split; [left; auto|].
    intros ei Hin Hi. apply list_elem_of_split in Hin as (a' & b' & ->).
    rewrite <- app_assoc in Hwf. cbn [app] in Hwf.
    apply wfTrace_app, wfTrace_cons in Hwf as [Hnext HwfR].
    destruct (okNext_inv _ _ _ _ Hi Hnext) as (t & _ & Hok & _).
    rewrite (skip_is_last _ _ i HwfR) in Hok.
    + by destruct ei.
    + apply elem_of_app. right. right. auto.
  - pose proof (lastOf_elem _ _ _ Hlast) as Hmark.
    destruct (present _ _ _ _ _ HwfL Hlast Hti) as (Hd & _). cbn [stage] in Hd.
    split.
    { right. split_and!; auto.
      - apply Hsub, Hd. lia.
      - destruct (ended_before_mark _ _ _ _ HwfL Hmark); auto. }
    intros ei Hin Hi. apply list_elem_of_split in Hin as (a' & b' & ->).
    rewrite <- app_assoc in Hwf. cbn [app] in Hwf.
    apply wfTrace_app, wfTrace_cons in Hwf as [Hnext HwfR].
    destruct (okNext_inv _ _ _ _ Hi Hnext) as (t & Ht & Hok & _).
    assert (t = ti) as -> by congruence.
    assert (EvMark i (Name ti) ∈ b' ++ ej :: a ++ L) as HinR.
    { apply elem_of_app. right. right. auto. }
    destruct (lastOf_Some_elem i _ _ HinR eq_refl) as [lR HlR].
    pose proof (stage_mono _ _ _ _ _ HwfR HinR eq_refl HlR) as Hst.
    pose proof (lastOf_elem _ _ _ HlR) as HlRin. pose proof (lastOf_idx _ _ _ HlR) as HlRi.
    rewrite HlR in Hok. cbn [stage] in Hst.
    destruct lR; cbn [stage] in Hst; try lia; cbn in HlRi; simplify_eq.
    + destruct ei; cbn in Hok; try done. congruence.
    + pose proof (release_parallel _ _ _ _ HwfR HlRin Hti). congruence.
    + by destruct ei.
Qed.

(** ** Workflows without parallel tasks *)

Lemma sequentialTask_frame vars i t s :
  mainPc (sequentialTask vars i t s) = MLoop (S i)
  /\ gos (sequentialTask vars i t s) = gos s
  /\ wgCount (sequentialTask vars i t s) = wgCount s
  /\ chanLen (sequentialTask vars i t s) = chanLen s.
Proof.
  unfold sequentialTask. destruct (dependencyGate t (taskCompleted s)); [|done].
  by destruct (runTask i (Cmds t) (Silent t) vars (world s) (EvDispatch i :: trace s))
    as [[w1 tr1] failed].
Qed.

Lemma sequentialTask_steps config vars i t s :
  mainPc s = MLoop i -> Tasks config !! i = Some t -> Parallel t = false ->
  exists n, run config vars (replicate n TMain) s = Some (sequentialTask vars i t s).
Proof.
  intros Hpc Ht Hseq. unfold sequentialTask.
  destruct (dependencyGate t (taskCompleted s)) eqn:Hgate.
  2:{ exists 1. cbn [replicate run]. unfold step, mainStep. by rewrite Hpc, Ht, Hgate. }
  set (s1 := pushEvent (EvDispatch i) (setMain (MTask i t PStart) s)).
  assert (H1 : run config vars (replicate 1 TMain) s = Some s1).
  { cbn [replicate run]. unfold step, mainStep. by rewrite Hpc, Ht, Hgate, Hseq. }
  destruct (runTask_steps config vars i t s1 eq_refl) as [n Hn].
  cbn [world trace s1 pushEvent setMain] in Hn.
  destruct (runTask i (Cmds t) (Silent t) vars (world s) (EvDispatch i :: trace s))
    as [[w1 tr1] failed].
  pose proof (run_main_app _ _ 1 n s s1 _ H1 Hn) as H1n.
  destruct failed.
  - exists (1 + n + 2). eapply run_main_app; [apply H1n|]. done.
  - exists (1 + n + 1). eapply run_main_app; [apply H1n|]. done.
Qed.

Lemma sequentialLoop_steps config vars l i s :
  drop i (Tasks config) = l -> mainPc s = MLoop i ->
  (forall t, t ∈ l -> Parallel t = false) ->
  exists n,
    run config vars (replicate n TMain) s = Some (sequentialLoop vars i l s)
    /\ mainPc (sequentialLoop vars i l s) = MLoop (i + length l)
    /\ wgCount (sequentialLoop vars i l s) = wgCount s.
Proof.
  revert i s. induction l as [|t l IH]; intros i s Hdrop Hpc Hseq.
  - exists 0. cbn. by rewrite Hpc, Nat.add_0_r.
  - assert (Tasks config !! i = Some t) as Ht.
    { pose proof (lookup_drop (Tasks config) i 0) as H.
      rewrite Hdrop, Nat.add_0_r in H. by rewrite <- H. }
    assert (drop (S i) (Tasks config) = l) as Hdrop'.
    { by rewrite <- Nat.add_1_r, <- drop_drop, Hdrop. }
    destruct (sequentialTask_steps config vars i t s Hpc Ht) as [n Hn].
    { apply Hseq. left. }
    destruct (sequentialTask_frame vars i t s) as (Hpc1 & _ & Hwg1 & _).
    destruct (IH (S i) (sequentialTask vars i t s) Hdrop' Hpc1) as (m & Hm & Hpcm & Hwgm).
    { intros t' Hin. apply Hseq. by right. }
    exists (n + m). cbn [sequentialLoop length]. split_and!.
    + by eapply run_main_app.
    + rewrite Hpcm. f_equal. lia.
    + by rewrite Hwgm.
Qed.

Lemma sequential_no_goroutine config s :
  (forall t, t ∈ Tasks config -> Parallel t = false) -> Inv config s -> gos s = ∅.
Proof.
  intros Hseq HI. apply map_empty. intros i.
  destruct (gos s !! i) as [[t pc]|] eqn:Hi; [|done].
  destruct (goroutine_parallel _ _ _ _ _ HI Hi) as [Ht Hpar].
  rewrite (Hseq t) in Hpar; [done|]. by eapply list_elem_of_lookup_2.
Qed.

Lemma sequential_schedule config vars w0 sched s s' :
  (forall t, t ∈ Tasks config -> Parallel t = false) ->
  Reach config vars w0 s -> run config vars sched s = Some s' ->
  sched = replicate (length sched) TMain.
Proof.
  intros Hseq. revert s. induction sched as [|tid sched IH]; intros s Hreach; [done|].
  cbn [run length replicate]. destruct (step config vars tid s) as [s1|] eqn:Hstep; [|done].
  intros Hrun. rewrite <- (IH s1 (Reach_step _ _ _ _ _ _ Hreach Hstep) Hrun). f_equal.
  destruct tid as [|i]; [done|]. exfalso.
  unfold step, goStep in Hstep.
  rewrite (sequential_no_goroutine config s Hseq (reach_inv _ _ _ _ Hreach)), lookup_empty
    in Hstep.
  by destruct (mainPc s).
Qed.

Lemma main_run_exit_unique config vars n m s a b sa sb :
  run config vars (replicate n TMain) s = Some a -> exitStatus a = Some sa ->
  run config vars (replicate m TMain) s = Some b -> exitStatus b = Some sb ->
  a = b.
Proof.
  assert (forall s0 st, exitStatus s0 = Some st -> step config vars TMain s0 = None) as Hstuck.
  { intros s0 st Hex. unfold exitStatus in Hex. unfold step, mainStep.
    by destruct (mainPc s0). }
  revert m s. induction n as [|n IH]; intros [|m] s; cbn [replicate run].
  - by intros [= ->] _ [= ->] _.
  - intros [= ->] Ha. by rewrite (Hstuck _ _ Ha).
  - intros Hn _ [= ->] Hb. by rewrite (Hstuck _ _ Hb) in Hn.
  - destruct (step config vars TMain s) as [s1|]; [apply IH|done].
Qed.

(** X15: in a workflow without parallel tasks [runAllTasks] is a fold
    over the tasks in the order of the file: for each task the dependency
    check on the record so far, then [runTask] in the world the tasks before
    it left, the error flag and the write of the record; then the summary.
    The control thread alone takes the run there, and every run that
    reaches the exit ends in that same state. *)
Theorem sequential_workflow_is_a_fold config vars w0 :
  (forall t, t ∈ Tasks config -> Parallel t = false) ->
  (exists n,
      run config vars (replicate n TMain) (initState w0)
      = Some (runAllSequential config vars w0))
  /\ (forall sched s status,
         run config vars sched (initState w0) = Some s ->
         exitStatus s = Some status ->
         s = runAllSequential config vars w0)
  /\ runAllTasks config vars w0 = runAllSequential config vars w0.
Proof.
  intros Hseq.
  destruct (sequentialLoop_steps config vars (Tasks config) 0 (initState w0) eq_refl eq_refl
              Hseq) as (n & Hn & Hpc & Hwg).
  set (s := sequentialLoop vars 0 (Tasks config) (initState w0)) in *.
  cbn [Nat.add] in Hpc.
  assert (run config vars (replicate (n + 1) TMain) (initState w0)
          = Some (runAllSequential config vars w0)) as Hend.
  { eapply run_main_app; [apply Hn|]. cbn [replicate run].
    unfold step, mainStep. fold s. rewrite Hpc, (lookup_ge_None_2 _ _ (le_n _)).
    rewrite decide_True by done. done. }
  assert (forall sched s' status,
             run config vars sched (initState w0) = Some s' ->
             exitStatus s' = Some status ->
             s' = runAllSequential config vars w0) as Hall.
  { intros sched s' status Hrun Hex.
    rewrite (sequential_schedule _ _ _ _ _ _ Hseq (Reach_init _ _ _) Hrun) in Hrun.
    by eapply (main_run_exit_unique _ _ _ _ _ _ _ _ (if errorOccurred s then 1 else 0)
                 Hrun Hex Hend). }
  split_and!; [by exists (n + 1)|done|].
  destruct (runToEnd_exits config vars w0 (measure config (initState w0)) (initState w0)
              (Reach_init _ _ _) (le_n _)) as (Hreach & status & Hex).
  destruct (reach_run _ _ _ _ Hreach) as [sched Hrun].
  by apply (Hall sched _ status).
Qed.

(** ** The commands of one task *)

Lemma startedOf_other j e tr : evIdx e <> Some j -> startedOf j (e :: tr) = startedOf j tr.
Proof.
  destruct e; cbn [startedOf evIdx]; try done. intros Hne.
  destruct (decide (i = j)); congruence.
Qed.

Lemma startedOf_elem j tr : startedOf j tr <> [] -> exists c, EvCmdStart j c ∈ tr.
Proof.
  induction tr as [|e tr IH]; [done|]. intros Hne.
  assert (startedOf j tr <> [] -> exists c, EvCmdStart j c ∈ e :: tr) as Hrest.
  { intros H. destruct (IH H) as [c Hc]. exists c. by right. }
  destruct e; cbn [startedOf] in Hne; auto.
  destruct (decide (i = j)) as [->|]; auto. eexists. left.
Qed.

Lemma started_none tasks tr i l :
  wfTrace tasks tr = true -> lastOf i tr = Some l -> stage l < 4 -> startedOf i tr = [].
Proof.
  intros Hwf Hl Hst. destruct (startedOf i tr) as [|c0 cs] eqn:Hs; [done|].
  destruct (startedOf_elem i tr) as [c Hc]; [by rewrite Hs|].
  pose proof (stage_mono _ _ _ _ _ Hwf Hc eq_refl Hl) as Hle. cbn in Hle. lia.
Qed.

Lemma cmdInvAt_length vars t started rest completed :
  CmdInvAt vars t started rest completed -> length started <= length (Cmds t).
Proof.
  intros (Hall & _). apply Forall2_length in Hall. rewrite length_take in Hall. lia.
Qed.

Lemma cmdInvAt_frame vars t started rest rest' (completed completed' : Prop) :
  CmdInvAt vars t started rest completed ->
  (forall r, rest' = Some r -> rest = Some r) ->
  (completed' -> completed) ->
  CmdInvAt vars t started rest' completed'.
Proof. intros (Hall & Hrest & Hc) Hr Hc'. split_and!; auto. Qed.

Lemma cmd_inv_frame config vars s s' e :
  CmdInv config vars s ->
  trace s' = e :: trace s ->
  (forall i c, e <> EvCmdStart i c) -> (forall i, e <> EvCompleted i) ->
  (forall j r, restOf j s' = Some r -> restOf j s = Some r) ->
  CmdInv config vars s'.
Proof.
  intros HC Htr Hstart Hcompl Hrest j t Ht. rewrite Htr.
  assert (startedOf j (e :: trace s) = startedOf j (trace s)) as ->.
  { destruct e; cbn [startedOf]; try done. by destruct (Hstart i cmdStr). }
  eapply cmdInvAt_frame; [by apply HC|apply Hrest|].
  rewrite elem_of_cons. intros [<-|?]; [|done]. by destruct (Hcompl j).
Qed.

Lemma cmd_inv_body config vars s s' i t ph prev e next s1 :
  Inv config s -> CmdInv config vars s -> Tasks config !! i = Some t ->
  lastOf i (trace s) = Some prev -> PhaseEv t ph prev ->
  bodyStep vars i t ph s = (e, next, s1) ->
  restOf i s = phaseRest ph ->
  trace s' = e :: trace s ->
  restOf i s' = match next with Some ph' => phaseRest ph' | None => None end ->
  (forall j, j <> i -> restOf j s' = restOf j s) ->
  CmdInv config vars s'.
Proof.
  intros HI HC Ht Hprev Hph Hbody Hrest Htr Hrest' Hother j tj Htj. rewrite Htr.
  destruct (bodyStep_spec config _ _ _ _ _ _ _ _ _ Hbody Hph (inv_record _ _ HI)
              (inv_error _ _ HI)) as (He & _).
  pose proof (inv_wf _ _ HI) as Hwf.
  destruct (decide (j = i)) as [->|Hne].
  2:{ rewrite startedOf_other by congruence. rewrite (Hother j Hne).
      eapply cmdInvAt_frame; [by apply HC|done|].
      rewrite elem_of_cons. intros [<-|?]; [|done]. cbn in He. congruence. }
  assert (tj = t) as -> by congruence. rewrite Hrest'.
  pose proof (HC i t Ht) as HCi. rewrite Hrest in HCi.
  pose proof (cmdInvAt_length _ _ _ _ _ HCi) as Hlen.
  destruct HCi as (Hall & Hr & Hc).
  destruct ph as [|[|cmd rest]|rendered rest| |]; cbn [bodyStep] in Hbody;
    try destruct (sh rendered (Silent t) (world s)) as [w1 err];
    injection Hbody as <- <- <-; cbn [startedOf phaseRest] in *.
  - assert (startedOf i (trace s) = []) as Hnone.
    { apply (started_none _ _ _ _ Hwf Hprev).
      destruct prev as [| | | | |? ok| | | | | |]; try destruct ok; cbn in Hph |- *;
        try done; lia. }
    rewrite Hnone. split_and!; [constructor|by intros r [= <-]|].
    rewrite elem_of_cons. intros [?|Hin]; [done|].
    pose proof (stage_mono _ _ _ _ _ Hwf Hin eq_refl Hprev) as Hle.
    destruct prev as [| | | | |? ok| | | | | |]; try destruct ok; cbn in Hph, Hle;
      try done; lia.
  - split_and!; [done|done|]. intros _.
    specialize (Hr [] eq_refl). symmetry in Hr. apply drop_nil_inv in Hr. lia.
  - rewrite decide_True by done. specialize (Hr _ eq_refl).
    unfold CmdInvAt. rewrite length_app. cbn [length]. rewrite Nat.add_1_r.
    set (n := length (startedOf i (trace s))) in *.
    assert (Cmds t !! n = Some cmd) as Hcmd.
    { pose proof (lookup_drop (Cmds t) n 0) as H. rewrite <- Hr, Nat.add_0_r in H.
      by rewrite <- H. }
    split_and!.
    + rewrite (take_S_r _ _ _ Hcmd). apply Forall2_app; [done|].
      constructor; [by exists (world s)|constructor].
    + intros r [= <-]. rewrite <- Nat.add_1_r, <- drop_drop, <- Hr. done.
    + rewrite elem_of_cons. intros [?|Hin]; [done|].
      specialize (Hc Hin). rewrite Hc, drop_all in Hr. done.
  - split_and!; [done| |].
    + intros r Hr'. apply Hr. by destruct err.
    + rewrite elem_of_cons. intros [?|?]; [done|auto].
  - split_and!; [done|done|]. rewrite elem_of_cons. intros [?|?]; [done|auto].
  - split_and!; [done|done|]. rewrite elem_of_cons. intros [?|?]; [done|auto].
Qed.

Lemma cmd_inv_init config vars w0 : CmdInv config vars (initState w0).
Proof.
  intros j t _. cbn. split_and!; [constructor|done|].
  by intros ?%elem_of_nil.
Qed.

Lemma cmd_inv_step config vars s tid s' :
  Inv config s -> CmdInv config vars s -> step config vars tid s = Some s' ->
  CmdInv config vars s'.
Proof.
  intros HI HC Hstep. unfold step in Hstep. destruct tid as [|i].
  - unfold mainStep in Hstep. destruct (mainPc s) as [i|i t|i t ph|status] eqn:Hpc.
    + destruct (Tasks config !! i) as [t|] eqn:Ht.
      * destruct (dependencyGate t (taskCompleted s)); injection Hstep as <-;
          (eapply cmd_inv_frame; [done|done|done|done|]); intros j r;
          unfold restOf; cbn; rewrite Hpc; cbn; [|done].
        destruct (Parallel t); cbn; destruct (decide (i = j)); done.
      * destruct (decide (wgCount s = 0)) as [Hwg|]; [|done]. injection Hstep as <-.
        eapply cmd_inv_frame; [done|done|done|done|]. intros j r.
        unfold restOf; cbn. by rewrite Hpc.
    + destruct (decide (chanLen s < moduleSyncCap)) as [Hc|]; [|done]. injection Hstep as <-.
      eapply cmd_inv_frame; [done|done|done|done|]. intros j r.
      unfold restOf, goRest; cbn. rewrite Hpc. cbn.
      destruct (decide (i = j)) as [->|];
        rewrite ?lookup_insert_eq, ?lookup_insert_ne by done; done.
    + destruct (bodyStep vars i t ph s) as [[e next] s1] eqn:Hbody. injection Hstep as <-.
      destruct (inv_thread _ _ i HI) as (t0 & prev & Ht & Hlast & Hloc & Hpos).
      { left. rewrite Hpc. cbn. by rewrite decide_True. }
      rewrite Hpc in Hloc. cbn [mainAt] in Hloc. rewrite decide_True in Hloc by done.
      apply local_main_task in Hloc as (-> & Hp & Hg & Hph).
      destruct (bodyStep_spec config _ _ _ _ _ _ _ _ _ Hbody Hph (inv_record _ _ HI)
                  (inv_error _ _ HI))
        as (He & Hok & Hglob & Hpc1 & Hgos1 & Hc1 & Hwg1 & Htr1 & _).
      eapply (cmd_inv_body config vars s _ i t0 ph prev e next s1); try done.
      * unfold restOf. rewrite Hpc. cbn. by rewrite decide_True.
      * cbn. by rewrite Htr1.
      * unfold restOf. cbn. destruct next; cbn; rewrite ?decide_True by done; [done|].
        unfold goRest. by rewrite Hgos1, Hg.
      * intros j Hne. unfold restOf. cbn. rewrite Hpc, Hgos1.
        destruct next; cbn; by rewrite ?decide_False by done.
    + done.
  - unfold goStep in Hstep.
    destruct (gos s !! i) as [[t [ph| |]]|] eqn:Hg.
    + destruct (bodyStep vars i t ph s) as [[e next] s1] eqn:Hbody.
      assert (s' = pushEvent e (setGo i (Some (t, match next with
                                                  | Some ph' => GBody ph'
                                                  | None => GRelease
                                                  end)) s1)) as ->
        by (destruct (mainPc s); congruence).
      destruct (inv_thread _ _ i HI) as (t0 & prev & Ht & Hlast & Hloc & Hpos).
      { right. by rewrite Hg. }
      rewrite Hg in Hloc. apply local_go_body in Hloc as (-> & Hp & Hm & Hph).
      destruct (bodyStep_spec config _ _ _ _ _ _ _ _ _ Hbody Hph (inv_record _ _ HI)
                  (inv_error _ _ HI))
        as (He & Hok & Hglob & Hpc1 & Hgos1 & Hc1 & Hwg1 & Htr1 & _).
      eapply (cmd_inv_body config vars s _ i t0 ph prev e next s1); try done.
      * unfold restOf, goRest. by rewrite Hm, Hg.
      * cbn. by rewrite Htr1.
      * unfold restOf, goRest. cbn. rewrite Hpc1, Hm, lookup_insert_eq. by destruct next.
      * intros j Hne. unfold restOf, goRest. cbn.
        by rewrite Hpc1, Hgos1, lookup_insert_ne.
    + assert (s' = pushEvent (EvRelease i)
                     (setGo i (Some (t, GWgDone)) (setSync (pred (chanLen s)) (wgCount s) s))) as ->
        by (destruct (mainPc s); congruence).
      eapply cmd_inv_frame; [done|done|done|done|]. intros j r.
      unfold restOf, goRest; cbn.
      destruct (decide (i = j)) as [->|];
        rewrite ?lookup_insert_eq, ?lookup_insert_ne by done; [|done].
      by destruct (mainAt j (mainPc s)) as [[? [?|]]|]; rewrite ?Hg.
    + assert (s' = pushEvent (EvWgDone i)
                     (setGo i None (setSync (chanLen s) (pred (wgCount s)) s))) as ->
        by (destruct (mainPc s); congruence).
      eapply cmd_inv_frame; [done|done|done|done|]. intros j r.
      unfold restOf, goRest; cbn.
      destruct (decide (i = j)) as [->|];
        rewrite ?lookup_delete_eq, ?lookup_delete_ne by done; [|done].
      by destruct (mainAt j (mainPc s)) as [[? [?|]]|]; rewrite ?Hg.
    + by destruct (mainPc s).
Qed.

Lemma reach_cmd_inv config vars w0 s : Reach config vars w0 s -> CmdInv config vars s.
Proof.
  induction 1 as [|s tid s' Hreach IH Hstep]; [apply cmd_inv_init|].
  eapply cmd_inv_step; [by eapply reach_inv|done|done].
Qed.

(** X16: the command strings started for a task are, in the order in
    which they were started, renderings of the first commands of the task's
    list: no command is run twice, none is run out of order.  A task
    reported [completed] had every command of its list started; a skipped
    task had none. *)
Theorem commands_run_in_order config vars w0 sched s i t :
  run config vars sched (initState w0) = Some s ->
  Tasks config !! i = Some t ->
  exists n,
    n <= length (Cmds t)
    /\ Forall2 (Rendering vars) (startedOf i (trace s)) (take n (Cmds t))
    /\ (EvCompleted i ∈ trace s -> n = length (Cmds t))
    /\ (EvSkip i ∈ trace s -> n = 0).
Proof.
  intros Hrun Ht.
  assert (Reach config vars w0 s) as Hreach by (eapply run_reach; [apply Reach_init|done]).
  pose proof (reach_cmd_inv _ _ _ _ Hreach i t Ht) as HC.
  pose proof (cmdInvAt_length _ _ _ _ _ HC) as Hlen. destruct HC as (Hall & _ & Hc).
  exists (length (startedOf i (trace s))). split_and!; try done.
  intros Hskip. pose proof (inv_wf _ _ (reach_inv _ _ _ _ Hreach)) as Hwf.
  rewrite (started_none _ _ i _ Hwf (skip_is_last _ _ _ Hwf Hskip)); [done|]. cbn. lia.
Qed.

(** ** The end of the goroutines *)

(** Once the control thread is past [wg.Wait()], every parallel task that
    was dispatched, failed or not, has been started as a goroutine, has
    reported its verdict, has written the completion record, has then taken
    its token back from [moduleSyncChan] and has last called [wg.Done()]. *)
Lemma deferred_release_at_exit config vars w0 sched s status i t :
  run config vars sched (initState w0) = Some s ->
  exitStatus s = Some status ->
  Tasks config !! i = Some t -> Parallel t = true ->
  EvDispatch i ∈ trace s ->
  exists l1 l2 l3 l4,
    trace s = l1 ++ EvWgDone i :: l2 ++ EvRelease i :: l3 ++ EvMark i (Name t) :: l4
    /\ EvSpawn i ∈ l4
    /\ (EvCompleted i ∈ l4 \/ EvErrored i ∈ l4).
Proof.
  intros Hrun Hex Ht Hpar Hd. pose proof (run_inv _ _ _ _ _ Hrun) as HI.
  pose proof (inv_wf _ _ HI) as Hwf.
  destruct (exit_all_ended _ _ _ i t HI Hex Ht) as (l & Hl & Hend).
  destruct (exit_no_goroutine _ _ _ HI Hex) as [Hgos Hpc].
  pose proof (inv_local _ _ HI i) as Hloc.
  rewrite Hl, Ht, Hgos, lookup_empty, Hpc in Hloc. cbn [mainAt] in Hloc.
  pose proof (lastOf_idx _ _ _ Hl) as Hidx. pose proof (lastOf_elem _ _ _ Hl) as Hin.
  assert (l = EvWgDone i) as ->.
  { destruct Hend as [->|Hst].
    - by destruct (skipped_not_dispatched _ _ _ Hwf Hin).
    - destruct l; cbn [stage] in Hst; try lia; cbn in Hloc, Hidx; simplify_eq; try done.
      + rewrite Hpar in Hloc. by destruct Hloc.
      + by destruct Hloc. }
  destruct (wf_before _ _ _ i Hwf Hin eq_refl) as (l1 & r1 & t1 & Htr & Ht1 & Hok1 & _ & Hwf1).
  destruct (lastOf i r1) as [p1|] eqn:Hp1; [|done].
  assert (p1 = EvRelease i) as ->.
  { pose proof (lastOf_idx _ _ _ Hp1). destruct p1; cbn in *; by simplify_eq. }
  pose proof (lastOf_elem _ _ _ Hp1) as Hin1.
  destruct (wf_before _ _ _ i Hwf1 Hin1 eq_refl)
    as (l2 & r2 & t2 & -> & Ht2 & Hok2 & _ & Hwf2).
  destruct (lastOf i r2) as [p2|] eqn:Hp2; [|done].
  destruct (present _ _ _ _ _ Hwf2 Hp2 Ht) as (_ & _ & _ & Hmark & _).
  assert (6 <= stage p2) as Hst2 by (destruct p2; cbn in Hok2 |- *; try done; lia).
  specialize (Hmark Hst2).
  destruct (wf_before _ _ _ i Hwf2 Hmark eq_refl)
    as (l3 & l4 & t3 & -> & Ht3 & Hok3 & _ & Hwf3).
  destruct (lastOf i l4) as [p3|] eqn:Hp3; [|done].
  destruct (present _ _ _ _ _ Hwf3 Hp3 Ht) as (_ & Hspawn & _).
  pose proof (lastOf_elem _ _ _ Hp3) as Hin3. pose proof (lastOf_idx _ _ _ Hp3) as Hidx3.
  exists l1, l2, l3, l4. split_and!; [done| |].
  - apply Hspawn; [|done]. destruct p3; cbn in Hok3 |- *; try done; lia.
  - destruct p3; cbn in Hok3, Hidx3; try done; simplify_eq; auto.
Qed.

(** ** The order of the decisions and the summary *)

(** X18: the tasks are decided in the order of the file.  When anything
    happens for a task, every task before it in the file has already been
    skipped or dispatched, and a parallel one that was dispatched has been
    started as a goroutine. *)
Theorem tasks_decided_in_file_order config vars w0 sched s i j ti :
  run config vars sched (initState w0) = Some s ->
  Tasks config !! i = Some ti -> i < j ->
  forall l1 ej l2,
    trace s = l1 ++ ej :: l2 -> evIdx ej = Some j ->
    EvSkip i ∈ l2
    \/ EvDispatch i ∈ l2 /\ (Parallel ti = true -> EvSpawn i ∈ l2).
Proof.
  intros Hrun Hti Hij l1 ej l2 Htr Hj.
  pose proof (inv_wf _ _ (run_inv _ _ _ _ _ Hrun)) as Hwf. rewrite Htr in Hwf.
  destruct (earlier_tasks_left _ _ _ i j (wfTrace_app _ _ _ Hwf) Hj Hij)
    as (a & L & ti' & -> & HwfL & Hti' & Hleft).
  assert (ti' = ti) as -> by congruence.
  assert (forall e, e ∈ L -> e ∈ a ++ L) as Hsub by (intros e He; apply elem_of_app; auto).
  destruct (lastOf i L) as [l|] eqn:Hl; [|done].
  pose proof (lastOf_idx _ _ _ Hl) as Hidx. pose proof (lastOf_elem _ _ _ Hl) as Hin.
  destruct (present _ _ _ _ _ HwfL Hl Hti) as (Hd & Hs & _).
  destruct (decide (stage l = 0)) as [H0|H0].
  - left. apply Hsub.
    destruct l; cbn in H0, Hidx; try done. by simplify_eq.
  - right. assert (2 <= stage l) as H2.
    { destruct l; cbn in Hleft, H0 |- *; try done; lia. }
    split; [apply Hsub, Hd; lia|]. intros Hpar. by apply Hsub, Hs.
Qed.

Lemma summary_step config vars tid s s' :
  step config vars tid s = Some s' ->
  exists e,
    trace s' = e :: trace s
    /\ match mainPc s' with
       | MExit status => e = EvSummary (bool_decide (status = 0))
       | _ => isSummary e = false
       end
    /\ forall status, mainPc s <> MExit status.
Proof.
  assert (forall i t ph s0 e next s1,
             bodyStep vars i t ph s0 = (e, next, s1) ->
             isSummary e = false /\ trace s1 = trace s0) as Hbody.
  { intros i t ph s0 e next s1.
    destruct ph as [|[|cmd rest]|rendered rest| |]; cbn [bodyStep];
      try destruct (sh rendered (Silent t) (world s0)) as [w1 err];
      by intros [= <- <- <-]. }
  unfold step. destruct tid as [|i].
  - unfold mainStep. destruct (mainPc s) as [i|i t|i t ph|status] eqn:Hpc.
    + destruct (Tasks config !! i) as [t|].
      * destruct (dependencyGate t (taskCompleted s)); intros [= <-]; eexists;
          (split; [done|]); cbn; [by destruct (Parallel t)|done].
      * destruct (decide (wgCount s = 0)); [|done]. intros [= <-]. eexists.
        split; [done|]. cbn. split; [|done]. by destruct (errorOccurred s).
    + destruct (decide (chanLen s < moduleSyncCap)); [|done]. intros [= <-].
      by eexists.
    + destruct (bodyStep vars i t ph s) as [[e next] s1] eqn:Hb. intros [= <-].
      destruct (Hbody _ _ _ _ _ _ _ Hb) as [He Htr]. exists e. cbn. rewrite Htr.
      split; [done|]. by destruct next.
    + done.
  - unfold goStep. destruct (gos s !! i) as [[t [ph| |]]|] eqn:Hg.
    + destruct (bodyStep vars i t ph s) as [[e next] s1] eqn:Hb.
      destruct (Hbody _ _ _ _ _ _ _ Hb) as [He Htr].
      destruct (bodyStep_weight _ _ _ _ _ _ _ _ Hb) as (Hpc1 & _).
      destruct (mainPc s) eqn:Hpc; [| | |done]; intros [= <-]; exists e; cbn;
        rewrite Htr, Hpc1; done.
    + destruct (mainPc s) eqn:Hpc; [| | |done]; intros [= <-]; eexists; cbn;
        rewrite ?Hpc; done.
    + destruct (mainPc s) eqn:Hpc; [| | |done]; intros [= <-]; eexists; cbn;
        rewrite ?Hpc; done.
    + by destruct (mainPc s).
Qed.

Lemma reach_summary config vars w0 s : Reach config vars w0 s -> SummaryInv s.
Proof.
  induction 1 as [|s tid s' Hreach IH Hstep]; [done|].
  destruct (summary_step _ _ _ _ _ Hstep) as (e & Htr & He & Hpc).
  assert (existsb isSummary (trace s) = false) as Hold.
  { unfold SummaryInv in IH. destruct (mainPc s) as [| | |status] eqn:Hpcs; try done.
    by destruct (Hpc status). }
  unfold SummaryInv. rewrite Htr.
  destruct (mainPc s') as [| | |status]; cbn [existsb]; rewrite ?He, ?Hold; try done.
  by exists (trace s).
Qed.

(** The threads of the program: the summary is the last line the control
    thread prints before it ends the process, it is printed once, and it
    agrees with the status of that exit; before, no summary is printed. *)
Lemma summary_at_exit config vars w0 sched s :
  run config vars sched (initState w0) = Some s ->
  match exitStatus s with
  | Some status =>
      (status = 0 \/ status = 1)
      /\ exists rest,
          trace s = EvSummary (bool_decide (status = 0)) :: rest
          /\ forall ok, EvSummary ok ∉ rest
  | None => forall ok, EvSummary ok ∉ trace s
  end.
Proof.
  intros Hrun.
  assert (Reach config vars w0 s) as Hreach by (eapply run_reach; [apply Reach_init|done]).
  pose proof (reach_summary _ _ _ _ Hreach) as HS.
  pose proof (inv_exit _ _ (reach_inv _ _ _ _ Hreach)) as Hexit.
  assert (forall tr, existsb isSummary tr = false -> forall ok, EvSummary ok ∉ tr) as Hnone.
  { intros tr Hf ok Hin. apply not_true_iff_false in Hf. apply Hf.
    apply existsb_exists. exists (EvSummary ok). split; [by apply list_elem_of_In|done]. }
  unfold SummaryInv in HS. unfold exitStatus.
  destruct (mainPc s) as [| | |status]; try by apply Hnone.
  destruct HS as (rest & Htr & Hrest). split.
  - destruct (Hexit status eq_refl) as [_ ->]. destruct (errorOccurred s); auto.
  - exists rest. split; [done|by apply Hnone].
Qed.

(** ** [flag.Parse] and the whole of [main] *)

Lemma flagLoop_no_workflow argv taskFile quietMode taskFile' quietMode' args :
  noWorkflowFlag argv = true ->
  flagLoop argv taskFile quietMode = FlagsParsed taskFile' quietMode' args ->
  taskFile' = taskFile.
Proof.
  revert quietMode. induction argv as [|s rest IH]; intros quietMode; cbn [flagLoop].
  - by intros _ [= <- _ _].
  - cbn [noWorkflowFlag forallb]. intros [Hs Hrest]%andb_true_iff.
    apply negb_true_iff in Hs. unfold isWorkflowFlag in Hs.
    destruct (argKind s) as [| |body]; try by intros [= <- _ _].
    destruct (badStart body); [done|].
    destruct (flagNameValue body) as [name value]. cbn [fst] in Hs. rewrite Hs.
    destruct (String.eqb name "q").
    + destruct value as [v|]; [destruct (parseBool v); [|done]|]; by apply IH.
    + by destruct (String.eqb name "help" || String.eqb name "h").
Qed.

(** C9 (amended): when [flag.Parse] accepts the command line and leaves
    the path of [-w] empty, as it does when no argument is the flag [-w],
    the process prints a line that starts with [Usage:] and exits with
    status 0, whatever [-q] and the positional arguments are;
    [runAllTasks] is not entered. *)
Theorem rayder_without_workflow_file w argv taskFile quietMode args :
  flagParse argv = FlagsParsed taskFile quietMode args ->
  taskFile = "" \/ noWorkflowFlag argv = true ->
  exists stderr,
    rayder w argv = Exited 0 stderr
    /\ exists line, line ∈ stderr /\ String.prefix "Usage:" line = true.
Proof.
  intros Hparse Hfile.
  assert (taskFile = "") as ->.
  { destruct Hfile as [?|Hno]; [done|].
    by apply (flagLoop_no_workflow argv "" false taskFile quietMode args). }
  unfold rayder. rewrite Hparse. apply main_without_workflow_file.
Qed.

(** ** The process and the runtime *)

Lemma procRun_threads config vars psched s0 x :
  procRun config vars psched (Alive s0) = Some x ->
  exists sched,
    run config vars sched s0 = Some (procState x)
    /\ length psched
       = length sched + match procFatal x with Some _ => 1 | None => 0 end
    /\ match x with
       | Alive _ => True
       | Stopped msg s => fatalError config s = Some msg
       end.
Proof.
  revert s0. induction psched as [|pid rest IH]; intros s0; cbn [procRun].
  - intros [= <-]. by exists [].
  - destruct pid as [tid|]; cbn [procStep].
    + destruct (step config vars tid s0) as [s1|] eqn:Hstep; [|done].
      intros Hrun. destruct (IH s1 Hrun) as (sched & Hs & Hlen & Hx).
      exists (tid :: sched). cbn [run length]. rewrite Hstep. split_and!; [done| |done].
      by rewrite Hlen.
    + destruct (fatalError config s0) as [msg|] eqn:Hfatal; [|done].
      destruct rest as [|pid rest]; [|done]. intros [= <-]. by exists [].
Qed.

Lemma threads_procRun config vars sched s0 s :
  run config vars sched s0 = Some s ->
  procRun config vars (map PThread sched) (Alive s0) = Some (Alive s).
Proof.
  revert s0. induction sched as [|tid sched IH]; intros s0; cbn [run map procRun procStep].
  - by intros [= <-].
  - destruct (step config vars tid s0) as [s1|]; [apply IH|done].
Qed.

Lemma exit_zero_or_one config s status :
  Inv config s -> exitStatus s = Some status -> status = 0 \/ status = 1.
Proof.
  intros HI Hex. destruct (exit_no_goroutine _ _ _ HI Hex) as [_ Hpc].
  destruct (inv_exit _ _ HI _ Hpc) as [_ ->]. destruct (errorOccurred s); auto.
Qed.

Lemma goWriters_pos (gs : gmap nat (Task * GoPc)) :
  0 < goWriters gs <-> exists i t, gs !! i = Some (t, GBody PMark).
Proof.
  unfold goWriters. split.
  - destruct (List.filter _ _) as [|[i [t pc]] l] eqn:Hf; [cbn; lia|]. intros _.
    assert (In (i, (t, pc)) (List.filter (fun kv => atWrite kv.2) (map_to_list gs))) as Hin
      by (rewrite Hf; left; done).
    apply filter_In in Hin as [Hin Hw]. apply list_elem_of_In, elem_of_map_to_list in Hin.
    exists i, t. unfold atWrite in Hw. cbn in Hw. by destruct pc as [[]| |].
  - intros (i & t & Hi).
    assert (In (i, (t, GBody PMark))
              (List.filter (fun kv => atWrite kv.2) (map_to_list gs))) as Hin.
    { apply filter_In. split; [|done]. by apply list_elem_of_In, elem_of_map_to_list. }
    destruct (List.filter _ _); [done|cbn; lia].
Qed.

Lemma goWriters_unique c (gs : gmap nat (Task * GoPc)) : SlotInv c gs -> goWriters gs <= 1.
Proof.
  intros (h & _ & Hholder & _). unfold goWriters.
  assert (NoDup (List.filter (fun kv => atWrite kv.2) (map_to_list gs)).*1) as Hnd.
  { eapply NoDup_fmap_fst.
    - intros k v1 v2 [H1 _]%list_elem_of_In%filter_In [H2 _]%list_elem_of_In%filter_In.
      apply list_elem_of_In, elem_of_map_to_list in H1, H2. congruence.
    - apply base.NoDup_ListNoDup, List.NoDup_filter, base.NoDup_ListNoDup, NoDup_map_to_list. }
  assert (forall kv, In kv (List.filter (fun kv => atWrite kv.2) (map_to_list gs)) ->
                     h = Some kv.1) as Hall.
  { intros [i [t pc]] [Hin Hw]%filter_In.
    apply list_elem_of_In, elem_of_map_to_list in Hin. apply (Hholder i t pc Hin).
    unfold atWrite in Hw. cbn in Hw. by destruct pc as [[]| |]. }
  destruct (List.filter _ _) as [|kv1 [|kv2 l]]; cbn [length]; [lia|lia|].
  exfalso. pose proof (Hall kv1 (or_introl eq_refl)) as H1.
  pose proof (Hall kv2 (or_intror (or_introl eq_refl))) as H2.
  rewrite H1 in H2. injection H2 as H2. cbn in Hnd.
  apply NoDup_cons in Hnd as [Hnot _]. apply Hnot. rewrite H2. left.
Qed.

(** A fatal error needs a goroutine at its write and the control thread at
    a read or a write of the map. *)
Lemma fatalError_race config s msg :
  Inv config s -> fatalError config s = Some msg ->
  exitStatus s = None
  /\ (exists i t, gos s !! i = Some (t, GBody PMark))
  /\ (mainReads config s = true /\ msg = fatalReadWrite
      \/ mainWrites s = true /\ msg = fatalWrites).
Proof.
  intros HI. unfold fatalError. destruct (exitStatus s); [done|].
  pose proof (goWriters_unique _ _ (inv_slot _ _ HI)) as Hle.
  pose proof (goWriters_pos (gos s)) as Hpos.
  destruct (goWriters (gos s)) as [|[|n]]; [done| |lia].
  intros Hmsg. split; [done|]. split; [apply Hpos; lia|].
  destruct (mainReads config s); [left; by injection Hmsg|].
  destruct (mainWrites s); [right; by injection Hmsg|done].
Qed.

Lemma proc_inv config vars w0 psched x :
  procRun config vars psched (Alive (initState w0)) = Some x ->
  Reach config vars w0 (procState x)
  /\ length psched <= S (measure config (initState w0))
  /\ match x with
     | Alive s => forall status, exitStatus s = Some status -> status = 0 \/ status = 1
     | Stopped msg s =>
         exitStatus s = None
         /\ (exists i t, gos s !! i = Some (t, GBody PMark))
         /\ (mainReads config s = true /\ msg = fatalReadWrite
             \/ mainWrites s = true /\ msg = fatalWrites)
     end.
Proof.
  intros Hrun. destruct (procRun_threads _ _ _ _ _ Hrun) as (sched & Hs & Hlen & Hx).
  assert (Reach config vars w0 (procState x)) as Hreach
    by (eapply run_reach; [apply Reach_init|done]).
  pose proof (reach_inv _ _ _ _ Hreach) as HI.
  pose proof (run_measure _ _ _ _ _ Hs) as Hm.
  split_and!; [done|destruct (procFatal x); lia|].
  destruct x as [s|msg s]; cbn [procState] in *.
  - intros status. by apply (exit_zero_or_one config).
  - by apply fatalError_race.
Qed.


(** The process ended by its control thread: the state is one the threads
    reach on their own and exit in. *)
Lemma proc_exit_threads config vars w0 psched x status :
  procRun config vars psched (Alive (initState w0)) = Some x ->
  procStatus x = Some status -> status <> 2 ->
  exists sched,
    run config vars sched (initState w0) = Some (procState x)
    /\ exitStatus (procState x) = Some status.
Proof.
  intros Hrun Hst H2. destruct (procRun_threads _ _ _ _ _ Hrun) as (sched & Hs & _).
  exists sched. split; [done|]. destruct x as [s|msg s]; [done|].
  cbn in Hst. congruence.
Qed.



(** X22: a workflow without parallel tasks has no goroutine, so the
    runtime never stops it: the process ends only through its control
    thread, with status 0 exactly when no task was reported as failed and
    with status 1 exactly when one was. *)
Theorem sequential_workflow_never_fatal config vars w0 psched x :
  (forall t, t ∈ Tasks config -> Parallel t = false) ->
  procRun config vars psched (Alive (initState w0)) = Some x ->
  procFatal x = None
  /\ forall status,
      procStatus x = Some status ->
      (status = 0 <-> forall i, EvErrored i ∉ trace (procState x))
      /\ (status = 1 <-> exists i, EvErrored i ∈ trace (procState x)).
Proof.
  clear readFile yamlUnmarshal readFileError yamlError flagOutput.
  intros Hseq Hrun. destruct (proc_inv _ _ _ _ _ Hrun) as (Hreach & _ & Hx).
  assert (procFatal x = None) as Hnone.
  { destruct x as [s|msg s]; [done|]. destruct Hx as (_ & (i & t & Hi) & _).
    cbn in Hreach. rewrite (sequential_no_goroutine config s Hseq (reach_inv _ _ _ _ Hreach))
      in Hi. done. }
  split; [done|]. intros status Hst.
  destruct x as [s|msg s]; [|done]. cbn in Hst, Hreach |- *.
  destruct (reach_run _ _ _ _ Hreach) as [sched Hs].
  destruct (exit_status config vars w0) as [_ Hall].
  destruct (Hall sched _ Hs) as (_ & _ & Hstatus).
  destruct (Hstatus status Hst) as (H0 & H1 & _). done.
Qed.


(** X17: the deferred function of a goroutine runs unless the runtime
    stops the process.  When the process ends with status 0 or 1, every
    parallel task that was dispatched, failed or not, has been started as a
    goroutine, has reported its verdict, has written the completion record,
    has then taken its token back from [moduleSyncChan] and has last called
    [wg.Done()].  When the runtime stops the process with status 2, the
    goroutine that stands at its write was dispatched and has reported its
    verdict, but has neither written the record nor run its deferred
    function. *)
Theorem deferred_release_unless_fatal config vars w0 psched x :
  procRun config vars psched (Alive (initState w0)) = Some x ->
  (forall status i t,
      procStatus x = Some status -> status <> 2 ->
      Tasks config !! i = Some t -> Parallel t = true ->
      EvDispatch i ∈ trace (procState x) ->
      exists l1 l2 l3 l4,
        trace (procState x)
        = l1 ++ EvWgDone i :: l2 ++ EvRelease i :: l3 ++ EvMark i (Name t) :: l4
        /\ EvSpawn i ∈ l4
        /\ (EvCompleted i ∈ l4 \/ EvErrored i ∈ l4))
  /\ (procStatus x = Some 2 ->
      exists i t,
        Tasks config !! i = Some t /\ Parallel t = true
        /\ gos (procState x) !! i = Some (t, GBody PMark)
        /\ EvDispatch i ∈ trace (procState x)
        /\ (EvCompleted i ∈ trace (procState x) \/ EvErrored i ∈ trace (procState x))
        /\ (forall name, EvMark i name ∉ trace (procState x))
        /\ (EvRelease i ∉ trace (procState x))
        /\ (EvWgDone i ∉ trace (procState x))).
Proof.
  clear readFile yamlUnmarshal readFileError yamlError flagOutput.
  intros Hrun. split.
  - intros status i t Hst H2 Ht Hpar Hd.
    destruct (proc_exit_threads _ _ _ _ _ _ Hrun Hst H2) as (sched & Hs & Hex).
    by apply (deferred_release_at_exit config vars w0 sched _ status).
  - intros Hst. destruct (proc_inv _ _ _ _ _ Hrun) as (Hreach & _ & Hx).
    destruct x as [s|msg s]; cbn in Hst.
    { destruct (Hx 2 Hst); lia. }
    destruct Hx as (_ & (i & t & Hi) & _). cbn [procState] in *.
    pose proof (reach_inv _ _ _ _ Hreach) as HI. pose proof (inv_wf _ _ HI) as Hwf.
    destruct (goroutine_parallel _ _ _ _ _ HI Hi) as [Ht Hpar].
    destruct (inv_thread _ _ i HI) as (t' & prev & Ht' & Hlast & Hloc & _).
    { right. by rewrite Hi. }
    rewrite Hi in Hloc. apply local_go_body in Hloc as (_ & _ & _ & Hph).
    assert (t' = t) as -> by congruence.
    assert (stage prev = 5) as Hst5.
    { destruct prev as [| | | | |? ok| | | | | |]; try destruct ok; cbn in Hph |- *; done. }
    destruct (present _ _ _ _ _ Hwf Hlast Ht) as (Hd & _).
    assert (forall e, e ∈ trace s -> evIdx e = Some i -> stage e <= 5) as Hle.
    { intros e He Hidx. rewrite <- Hst5. by eapply stage_mono. }
    exists i, t. split_and!; try done.
    + apply Hd. lia.
    + pose proof (lastOf_elem _ _ _ Hlast) as Hin. pose proof (lastOf_idx _ _ _ Hlast) as Hidx.
      destruct prev as [| | | | |? ok| | | | | |]; try destruct ok; cbn in Hph, Hidx;
        try done; simplify_eq; auto.
    + intros name Hin. specialize (Hle _ Hin eq_refl). cbn in Hle. lia.
    + intros Hin. specialize (Hle _ Hin eq_refl). cbn in Hle. lia.
    + intros Hin. specialize (Hle _ Hin eq_refl). cbn in Hle. lia.
Qed.

(** X19: the process ends with status 0, 1 or 2.  With status 0 or 1 the
    summary is the last line, it is printed exactly once, and it agrees
    with the status: [All modules completed successfully] with status 0,
    [Errors occurred during execution] with status 1.  With status 2, the
    fatal error of the runtime, no summary is printed; nor is one printed
    while the process has not ended. *)
Theorem summary_line config vars w0 psched x :
  procRun config vars psched (Alive (initState w0)) = Some x ->
  match procStatus x with
  | Some status =>
      (status = 0 \/ status = 1 \/ status = 2)
      /\ (status <> 2 ->
          exists rest,
            trace (procState x) = EvSummary (bool_decide (status = 0)) :: rest
            /\ forall ok, EvSummary ok ∉ rest)
      /\ (status = 2 -> forall ok, EvSummary ok ∉ trace (procState x))
  | None => forall ok, EvSummary ok ∉ trace (procState x)
  end.
Proof.
  clear readFile yamlUnmarshal readFileError yamlError flagOutput.
  intros Hrun. destruct (procRun_threads _ _ _ _ _ Hrun) as (sched & Hs & _).
  pose proof (summary_at_exit _ _ _ _ _ Hs) as Hsum.
  destruct (proc_inv _ _ _ _ _ Hrun) as (_ & _ & Hx).
  destruct x as [s|msg s]; cbn [procStatus procState] in *.
  - destruct (exitStatus s) as [status|]; [|done].
    destruct Hsum as [H01 Hrest]. split_and!; [tauto|done|].
    intros ->. destruct H01; lia.
  - destruct Hx as (Hex & _). rewrite Hex in Hsum. split_and!; [auto|done|done].
Qed.


End Rayder.

Arguments initState {World} w.
Arguments exitStatus {World} s.
Arguments trace {World} s.
Arguments taskCompleted {World} s.
Arguments mainPc {World} s.
Arguments world {World} s.

(** ** Examples, witnesses and counterexamples *)

Lemma demoRange_perm (w : demoWorld) (m : gmap string string) : demoRange w m ≡ₚ map_to_list m.
Proof. reflexivity. Qed.

Ltac in_list := apply list_elem_of_In; vm_compute; tauto.

(** Runs the schedule of the goal and names the state it ends in. *)
Ltac run_schedule s Hrun :=
  match goal with
  | |- exists _, run ?W ?r ?sh ?c ?v ?sched ?s0 = Some _ /\ _ =>
      destruct (run W r sh c v sched s0) as [s|] eqn:Hrun;
      [exists s; split; [reflexivity|]
      |exfalso; vm_compute in Hrun; discriminate Hrun]
  end.

Ltac compute_state s Hrun :=
  let H := fresh in
  pose proof Hrun as H; vm_compute in H; injection H as <-.

(** The end-to-end example of the specification: A succeeds, B fails and
    is marked all the same, C runs, and the status is 1. *)
Example chain_end_to_end :
  exists s,
    run demoWorld demoRange demoSh chainWorkflow ∅ (replicate 19 TMain) (initState [])
    = Some s
    /\ exitStatus s = Some 1
    /\ world s = ["echo hi"; "false"; "true"]
    /\ rev (trace s)
       = [EvDispatch 0; EvRunning 0; EvCmdStart 0 "true"; EvCmdEnd 0 true; EvCompleted 0;
          EvMark 0 "A";
          EvDispatch 1; EvRunning 1; EvCmdStart 1 "false"; EvCmdEnd 1 false; EvErrored 1;
          EvMark 1 "B";
          EvDispatch 2; EvRunning 2; EvCmdStart 2 "echo hi"; EvCmdEnd 2 true; EvCompleted 2;
          EvMark 2 "C";
          EvSummary false].
Proof. eexists. split; [vm_compute; reflexivity|]. vm_compute. auto. Qed.

(** A parallel task runs while the sequential task declared after it runs:
    the command [true] of the second task starts before [echo p1] of the
    first has ended. *)
Example parallel_overlaps_sequential :
  exists s,
    run demoWorld demoRange demoSh overlapWorkflow ∅ overlapSchedule (initState []) = Some s
    /\ rev (trace s)
       = [EvDispatch 0; EvSpawn 0; EvDispatch 1; EvRunning 0; EvRunning 1;
          EvCmdStart 0 "echo p1"; EvCmdStart 1 "true"; EvCmdEnd 0 true; EvCmdEnd 1 true]
    /\ wfTrace (Tasks overlapWorkflow) (trace s) = true.
Proof. eexists. split; [vm_compute; reflexivity|]. split; vm_compute; reflexivity. Qed.

(** Without [-w]: the usage line of [main], or the lines of [parseArgs]. *)
Example main_usage_lines :
  main demoWorld demoRange demoReadFile demoYaml demoReadError demoYamlError [] "" false ["DOMAIN=example.host"]
  = Exited 0 [banner; usageLine]
  /\ main demoWorld demoRange demoReadFile demoYaml demoReadError demoYamlError [] "" true ["usage"]
     = Exited 0 ["Usage:"; ""; ""; "Variables from YAML:"]
  /\ main demoWorld demoRange demoReadFile demoYaml demoReadError demoYamlError [] "rayder.yaml" true []
     = Exited 1 ["Error reading workflow file: open rayder.yaml: no such file or directory"].
Proof. repeat split; vm_compute; reflexivity. Qed.

(** Rendering on the command line [DOMAIN=example.host verbose]. *)
Example site_command_rendered :
  exists variables,
    parseArgs demoWorld demoRange [] siteDefaults siteArgs = inr variables
    /\ replacePlaceholders demoWorld demoRange [] (flatten siteCommand) variables
       = "curl example.host/index {{UNKNOWN}}".
Proof. eexists. split; vm_compute; reflexivity. Qed.

Lemma placeholder_resolution_witness :
  exists variables,
    parseArgs demoWorld demoRange [] siteDefaults siteArgs = inr variables
    /\ wellFormed siteCommand = true
    /\ envOk (map_to_list variables) = true
    /\ replacePlaceholders demoWorld demoRange [] (flatten siteCommand) variables
       = flatten (map (resolveToken siteArgs siteDefaults) siteCommand).
Proof.
  eexists. split; [vm_compute; reflexivity|].
  split; [reflexivity|]. split; [vm_compute; reflexivity|].
  apply (placeholder_resolution demoWorld demoRange demoRange_perm [] [] siteDefaults siteArgs).
  - vm_compute; reflexivity.
  - reflexivity.
  - vm_compute; reflexivity.
Defined.

(** C4, as stated, fails: with the defaults [OUT = {{BASE}}/out] and
    [BASE = /tmp] and no override, the runtime may range over [OUT] first,
    and then the command [echo {{OUT}}] is not rendered with the default of
    [OUT].  So it is not true that every token, even one between texts free
    of braces, is rendered with the override, else the default, else left as
    it is. *)
Lemma default_not_rendered_counterexample :
  (parseArgs demoWorld demoRange [] chainedDefaults [] = inr chainedDefaults
   /\ overrideOf "OUT" [] = None
   /\ chainedDefaults !! "OUT" = Some "{{BASE}}/out"
   /\ replacePlaceholders demoWorld demoRange [] "echo {{OUT}}" chainedDefaults
      = "echo /tmp/out")
  /\ ~ (forall (World : Type) (rangeVars : World -> gmap string string -> list (string * string)),
          (forall w m, rangeVars w m ≡ₚ map_to_list m) ->
          forall w w' defaults args variables pre X post,
            parseArgs World rangeVars w defaults args = inr variables ->
            braceFree pre = true -> braceFree post = true ->
            replacePlaceholders World rangeVars w' (pre +:+ placeholder X +:+ post) variables
            = pre +:+ segString (resolveToken args defaults (Tok X)) +:+ post).
Proof.
  assert (Hparse : parseArgs demoWorld demoRange [] chainedDefaults [] = inr chainedDefaults)
    by (vm_compute; reflexivity).
  assert (Hout : replacePlaceholders demoWorld demoRange [] "echo {{OUT}}" chainedDefaults
                 = "echo /tmp/out") by (vm_compute; reflexivity).
  split.
  - split; [exact Hparse|]. split; [reflexivity|]. split; [vm_compute; reflexivity|exact Hout].
  - intros Hclaim.
    specialize (Hclaim demoWorld demoRange demoRange_perm [] [] chainedDefaults []
                  chainedDefaults "echo " "OUT" "" Hparse eq_refl eq_refl).
    change ("echo " +:+ placeholder "OUT" +:+ "") with "echo {{OUT}}" in Hclaim.
    rewrite Hout in Hclaim. vm_compute in Hclaim. discriminate Hclaim.
Qed.

Lemma replacePlaceholders_order_independent_witness :
  map_to_list siteDefaults ≡ₚ map_to_list siteDefaults
  /\ reverse (map_to_list siteDefaults) ≡ₚ map_to_list siteDefaults
  /\ wellFormed siteCommand = true
  /\ envOk (map_to_list siteDefaults) = true
  /\ replacePlaceholdersIn (map_to_list siteDefaults) (flatten siteCommand)
     = replacePlaceholdersIn (reverse (map_to_list siteDefaults)) (flatten siteCommand).
Proof.
  split; [reflexivity|]. split; [apply reverse_Permutation|].
  split; [reflexivity|]. split; [vm_compute; reflexivity|].
  apply (replacePlaceholders_order_independent siteDefaults).
  - reflexivity.
  - apply reverse_Permutation.
  - reflexivity.
  - vm_compute; reflexivity.
Defined.

(** C10, as stated, fails: no value of [X = Y], [Y = Z] contains a token,
    and yet the two orders render [{{{{X}}}}] differently, because the value
    of [X] completes a token with the braces around it.  So values free of
    tokens do not make the result independent of the order. *)
Lemma order_dependence_counterexample :
  ([("X", "Y"); ("Y", "Z")] ≡ₚ map_to_list nestedVars
   /\ [("Y", "Z"); ("X", "Y")] ≡ₚ map_to_list nestedVars
   /\ tokenFree (map_to_list nestedVars) = true
   /\ replacePlaceholdersIn [("X", "Y"); ("Y", "Z")] "{{{{X}}}}" = "Z"
   /\ replacePlaceholdersIn [("Y", "Z"); ("X", "Y")] "{{{{X}}}}" = "{{Y}}")
  /\ ~ (forall (vars : gmap string string) order1 order2 (input : string),
          order1 ≡ₚ map_to_list vars -> order2 ≡ₚ map_to_list vars ->
          tokenFree (map_to_list vars) = true ->
          replacePlaceholdersIn order1 input = replacePlaceholdersIn order2 input).
Proof.
  assert (Hl : map_to_list nestedVars = [("Y", "Z"); ("X", "Y")]) by (vm_compute; reflexivity).
  assert (H1 : [("X", "Y"); ("Y", "Z")] ≡ₚ map_to_list nestedVars)
    by (rewrite Hl; apply perm_swap).
  assert (H2 : [("Y", "Z"); ("X", "Y")] ≡ₚ map_to_list nestedVars) by by rewrite Hl.
  assert (Hfree : tokenFree (map_to_list nestedVars) = true) by (vm_compute; reflexivity).
  split.
  - split; [exact H1|]. split; [exact H2|]. split; [exact Hfree|].
    split; vm_compute; reflexivity.
  - intros Hclaim. specialize (Hclaim nestedVars _ _ "{{{{X}}}}" H1 H2 Hfree).
    vm_compute in Hclaim. discriminate Hclaim.
Qed.

Lemma gate_empty_required_witness :
  Required taskA = []
  /\ mainPc (initState ([] : demoWorld)) = MLoop 0
  /\ Tasks chainWorkflow !! 0 = Some taskA
  /\ (forall record, dependencyGate taskA record = true)
  /\ step demoWorld demoRange demoSh chainWorkflow ∅ TMain (initState [])
     = Some (pushEvent demoWorld (EvDispatch 0)
               (setMain demoWorld (MTask 0 taskA PStart) (initState []))).
Proof.
  split; [reflexivity|]. split; [reflexivity|]. split; [reflexivity|].
  exact (gate_empty_required demoWorld demoRange demoSh chainWorkflow ∅ (initState []) 0 taskA
           eq_refl eq_refl eq_refl).
Defined.

(** The two cases of C3 on the shell of the examples. *)
Example fail_fast_on_demo_shell :
  runTask demoWorld demoRange demoSh 0 ["true"; "false"; "echo never"] false ∅ [] []
  = (["false"; "true"],
     [EvCmdEnd 0 false; EvCmdStart 0 "false"; EvCmdEnd 0 true; EvCmdStart 0 "true";
      EvRunning 0], true)
  /\ runTask demoWorld demoRange demoSh 0 ["true"; "echo hi"] false ∅ [] []
     = (["echo hi"; "true"],
        [EvCompleted 0; EvCmdEnd 0 true; EvCmdStart 0 "echo hi"; EvCmdEnd 0 true;
         EvCmdStart 0 "true"; EvRunning 0], false).
Proof. split; vm_compute; reflexivity. Qed.


(** C5, as stated, fails: the first task [A] is skipped, since [X] is not
    in the record, and yet the entry [A] is set during the run, by the second
    task of that name; the task [E], which requires [A], is not blocked.  So
    it is not true that the entry of a skipped task is never set. *)
Lemma same_name_marked_counterexample :
  (exists s,
      run demoWorld demoRange demoSh dupWorkflow ∅ (replicate 14 TMain) (initState [])
      = Some s
      /\ exitStatus s = Some 0
      /\ dependencyGate taskA1 ∅ = false
      /\ EvSkip 0 ∈ trace s
      /\ taskCompleted s !! Name taskA1 = Some true
      /\ EvRunning 2 ∈ trace s)
  /\ ~ (forall config sched (s : State demoWorld) i t,
          run demoWorld demoRange demoSh config ∅ sched (initState []) = Some s ->
          Tasks config !! i = Some t ->
          EvSkip i ∈ trace s ->
          taskCompleted s !! Name t = None).
Proof.
  split.
  - run_schedule s Hrun. compute_state s Hrun.
    split; [reflexivity|].
    split; [reflexivity|]. split; [in_list|]. split; [vm_compute; reflexivity|]. in_list.
  - intros Hclaim.
    destruct (run demoWorld demoRange demoSh dupWorkflow ∅ (replicate 14 TMain) (initState []))
      as [s|] eqn:Hrun; [|vm_compute in Hrun; discriminate Hrun].
    assert (Hskip : EvSkip 0 ∈ trace s) by (compute_state s Hrun; in_list).
    specialize (Hclaim dupWorkflow (replicate 14 TMain) s 0 taskA1 Hrun eq_refl Hskip).
    compute_state s Hrun. vm_compute in Hclaim. discriminate Hclaim.
Qed.

Lemma skipped_never_marked_witness :
  exists s,
    run demoWorld demoRange demoSh skipWorkflow ∅ [TMain] (initState []) = Some s
    /\ Tasks skipWorkflow !! 0 = Some taskS
    /\ EvSkip 0 ∈ trace s
    /\ taskCompleted s !! Name taskS = None
    /\ exists s', step demoWorld demoRange demoSh skipWorkflow ∅ TMain s = Some s'
         /\ trace s' = EvSkip 1 :: trace s.
Proof.
  run_schedule s Hrun.
  destruct (skipped_never_marked demoWorld demoRange demoSh skipWorkflow ∅ []
              [TMain] s 0 taskS Hrun eq_refl) as [_ Hnever].
  split; [reflexivity|].
  assert (Hskip : EvSkip 0 ∈ trace s) by (compute_state s Hrun; in_list).
  split; [exact Hskip|].
  destruct (Hnever Hskip) as [Hnone Hdep].
  { intros [|[|j]] tj Htj Hname; [by left|..]; vm_compute in Htj; simplify_eq. }
  split.
  - apply (Hnone [TMain] []); [reflexivity|exact Hrun].
  - apply (Hdep 1 taskD); [compute_state s Hrun; reflexivity|reflexivity|in_list].
Defined.

Lemma parallel_tasks_serialized_witness :
  exists s,
    run demoWorld demoRange demoSh parallelWorkflow ∅ parallelSchedule (initState [])
    = Some s
    /\ EvDispatch 0 ∈ trace s
    /\ EvCmdStart 1 "echo q1" ∈ trace s
    /\ forall l1 ej l2,
        trace s = l1 ++ ej :: l2 -> isCmdEvent 1 ej = true ->
        EvRelease 0 ∈ l2
        /\ (EvCompleted 0 ∈ l2 \/ EvErrored 0 ∈ l2)
        /\ forall ei, ei ∈ l1 -> isCmdEvent 0 ei = false.
Proof.
  run_schedule s Hrun.
  assert (Hd : EvDispatch 0 ∈ trace s) by (compute_state s Hrun; in_list).
  split; [exact Hd|]. split; [compute_state s Hrun; in_list|].
  exact (parallel_tasks_serialized demoWorld demoRange demoSh parallelWorkflow ∅ []
           parallelSchedule s 0 1 taskP taskQ Hrun eq_refl eq_refl eq_refl eq_refl
           (le_n 1) Hd).
Defined.

Lemma runTask_fail_fast_witness :
  exists new,
    runTask demoWorld demoRange demoSh 0 (["true"] ++ "false" :: ["echo never"]) false ∅ [] []
    = ((executeCommand demoWorld demoRange demoSh "false" false ∅ ["true"]).1, new ++ [], true)
    /\ startedCmds new = renderedRun demoWorld demoRange demoSh (["true"] ++ ["false"]) false ∅ []
    /\ cmdResults new = replicate (length ["true"]) true ++ [false]
    /\ (EvCompleted 0 ∉ new).
Proof.
  destruct (runTask_fail_fast demoWorld demoRange demoSh 0 false ∅ [] []) as [Hfail _].
  apply (Hfail ["true"] "false" ["echo never"] ["true"]); reflexivity.
Defined.

(** ** Witnesses of the further properties *)

Arguments gos {World} s.
Arguments wgCount {World} s.
Arguments chanLen {World} s.
Arguments errorOccurred {World} s.
Arguments Alive {World} s.
Arguments Stopped {World} msg s.
Arguments procState {World} x.
Arguments procStatus {World} x.
Arguments procFatal {World} x.

(** Runs the schedule of the process in the goal and names where it ends. *)
Ltac proc_schedule x Hrun :=
  match goal with
  | |- exists _, procRun ?W ?r ?sh ?c ?v ?psched ?x0 = Some _ /\ _ =>
      destruct (procRun W r sh c v psched x0) as [x|] eqn:Hrun;
      [exists x; split; [reflexivity|]
      |exfalso; vm_compute in Hrun; discriminate Hrun]
  end.

Ltac not_in_trace :=
  let H := fresh "H" in
  intros H; apply list_elem_of_In in H; vm_compute in H;
  repeat (destruct H as [H|H]; [discriminate H|]); destruct H.

Ltac all_sequential :=
  let t := fresh "t" in
  let Ht := fresh "Ht" in
  intros t Ht; apply list_elem_of_In in Ht; vm_compute in Ht;
  repeat (destruct Ht as [Ht|Ht]; [subst t; reflexivity|]); destruct Ht.

Lemma splitEq_first_separator_witness :
  noEq "DOMAIN" = true
  /\ splitEq ("DOMAIN" +:+ "=" +:+ "a=b") = Some ("DOMAIN", "a=b").
Proof.
  split; [reflexivity|].
  destruct splitEq_first_separator as [Hjoin _]. apply Hjoin. reflexivity.
Defined.

Lemma parseArgs_merge_witness :
  exists variables,
    parseArgs demoWorld demoRange [] siteDefaults siteArgs = inr variables
    /\ usageRequested siteArgs = false
    /\ variables !! "DOMAIN" = Some "example.host"
    /\ variables !! "PAGE" = Some "index".
Proof.
  destruct (parseArgs demoWorld demoRange [] siteDefaults siteArgs) as [lines|variables] eqn:Hp;
    [exfalso; vm_compute in Hp; discriminate Hp|].
  exists variables. split; [reflexivity|].
  destruct (parseArgs_merge demoWorld demoRange demoRange_perm [] siteDefaults siteArgs
              variables Hp) as (Hu & Hlookup & _).
  split; [exact Hu|]. split; rewrite Hlookup; vm_compute; reflexivity.
Defined.

Lemma usage_text_witness :
  exists lines,
    parseArgs demoWorld demoRange [] siteDefaults ["usage"] = inl lines
    /\ exists varLines,
        lines = ["Usage:"; default "" (siteDefaults !! "USAGE"); ""; "Variables from YAML:"]
                ++ varLines
        /\ varLines ≡ₚ map (fun kv => kv.1 +:+ ": " +:+ kv.2)
                          (map_to_list (delete "USAGE" siteDefaults)).
Proof.
  destruct (parseArgs demoWorld demoRange [] siteDefaults ["usage"]) as [lines|variables] eqn:Hp;
    [|exfalso; vm_compute in Hp; discriminate Hp].
  exists lines. split; [reflexivity|].
  exact (usage_text demoWorld demoRange demoRange_perm [] siteDefaults ["usage"] lines Hp).
Defined.

Lemma usage_request_wins_witness :
  ("usage" ∈ ["A=1"; "usage"; "B=2"] \/ "USAGE" ∈ ["A=1"; "usage"; "B=2"])
  /\ demoReadFile [] "missing.yaml" = None
  /\ main demoWorld demoRange demoReadFile demoYaml demoReadError demoYamlError [] "missing.yaml" true
       ["A=1"; "usage"; "B=2"]
     = Exited 0 ["Usage:"; ""; ""; "Variables from YAML:"].
Proof.
  assert (Hu : "usage" ∈ ["A=1"; "usage"; "B=2"] \/ "USAGE" ∈ ["A=1"; "usage"; "B=2"])
    by (left; in_list).
  split; [exact Hu|]. split; [reflexivity|].
  destruct (usage_request_wins demoWorld demoRange demoRange_perm demoReadFile demoYaml demoReadError demoYamlError []
              "missing.yaml" true ["A=1"; "usage"; "B=2"] Hu) as (_ & _ & Hnone).
  exact (Hnone eq_refl).
Defined.

Lemma main_outcome_witness :
  exists variables,
    main demoWorld demoRange siteReadFile siteYaml demoReadError demoYamlError [] "site.yaml" true siteArgs
    = Proceed [] siteWorkflow variables
    /\ variables !! "DOMAIN" = Some "example.host"
    /\ variables !! "UNKNOWN" = None.
Proof.
  destruct (main_outcome demoWorld demoRange demoRange_perm siteReadFile siteYaml demoReadError demoYamlError []
              "site.yaml" true siteArgs) as [Hproceed _].
  destruct (main demoWorld demoRange siteReadFile siteYaml demoReadError demoYamlError [] "site.yaml" true siteArgs)
    as [status stderr|stderr config variables] eqn:Hm;
    [exfalso; vm_compute in Hm; discriminate Hm|].
  destruct (Hproceed stderr config variables) as [Hfacts _].
  destruct (Hfacts eq_refl) as (_ & _ & -> & (content & Hread & Hyaml) & Hlookup).
  vm_compute in Hread. injection Hread as <-.
  assert (config = siteWorkflow) as ->.
  { assert (siteYaml "modules: fetch" = Some siteWorkflow) as H by reflexivity.
    rewrite H in Hyaml. by injection Hyaml. }
  exists variables. split; [reflexivity|]. split; rewrite Hlookup; vm_compute; reflexivity.
Defined.

Lemma command_without_tokens_verbatim_witness :
  (forall key value,
      siteDefaults !! key = Some value -> occurs (placeholder key) "echo {{OTHER}}" = false)
  /\ replacePlaceholders demoWorld demoRange [] "echo {{OTHER}}" siteDefaults
     = "echo {{OTHER}}"
  /\ executeCommand demoWorld demoRange demoSh "echo {{OTHER}}" false siteDefaults []
     = demoSh "echo {{OTHER}}" false [].
Proof.
  assert (Hfree : forall key value,
             siteDefaults !! key = Some value ->
             occurs (placeholder key) "echo {{OTHER}}" = false).
  { intros key value H. unfold siteDefaults in H.
    destruct (decide (key = "DOMAIN")) as [->|Hd]; [vm_compute; reflexivity|].
    rewrite lookup_insert_ne in H by congruence.
    destruct (decide (key = "PAGE")) as [->|Hp]; [vm_compute; reflexivity|].
    rewrite lookup_insert_ne in H by congruence. rewrite lookup_empty in H. discriminate H. }
  split; [exact Hfree|].
  exact (command_without_tokens_verbatim demoWorld demoRange demoRange_perm demoSh []
           "echo {{OTHER}}" false siteDefaults Hfree).
Defined.

Lemma replacePlaceholders_idempotent_witness :
  wellFormed siteCommand = true
  /\ envOk (map_to_list siteDefaults) = true
  /\ replacePlaceholders demoWorld demoRange []
       (replacePlaceholders demoWorld demoRange [] (flatten siteCommand) siteDefaults)
       siteDefaults
     = replacePlaceholders demoWorld demoRange [] (flatten siteCommand) siteDefaults.
Proof.
  split; [reflexivity|]. split; [vm_compute; reflexivity|].
  apply (replacePlaceholders_idempotent demoWorld demoRange demoRange_perm [] [] siteDefaults
           siteCommand).
  - reflexivity.
  - vm_compute; reflexivity.
Defined.

Lemma dependencyGate_contract_witness :
  (forall r, r ∈ Required taskB -> (<["A":=true]> ∅ : gmap string bool) !! r = Some true)
  /\ dependencyGate taskB (<["A":=true]> ∅) = true
  /\ dependencyGate taskB (<["C":=true]> (<["A":=true]> ∅)) = true.
Proof.
  assert (Hall : forall r, r ∈ Required taskB ->
                           (<["A":=true]> ∅ : gmap string bool) !! r = Some true).
  { intros r Hr. apply list_elem_of_singleton in Hr as ->. vm_compute. reflexivity. }
  destruct (dependencyGate_contract taskB (<["A":=true]> ∅)) as (Hiff & _ & _ & Hmono).
  assert (Hgate : dependencyGate taskB (<["A":=true]> ∅) = true) by (apply Hiff, Hall).
  split; [exact Hall|]. split; [exact Hgate|].
  apply Hmono; [|exact Hgate]. apply insert_subseteq. vm_compute. reflexivity.
Defined.

Lemma record_only_grows_witness :
  exists s1 s2,
    run demoWorld demoRange demoSh chainWorkflow ∅ (replicate 6 TMain) (initState [])
    = Some s1
    /\ run demoWorld demoRange demoSh chainWorkflow ∅ (replicate 13 TMain) s1 = Some s2
    /\ taskCompleted s1 !! "A" = Some true
    /\ taskCompleted s2 !! "A" = Some true
    /\ dependencyGate taskB (taskCompleted s2) = true.
Proof.
  destruct (run demoWorld demoRange demoSh chainWorkflow ∅ (replicate 6 TMain) (initState []))
    as [s1|] eqn:Hrun1; [|exfalso; vm_compute in Hrun1; discriminate Hrun1].
  destruct (run demoWorld demoRange demoSh chainWorkflow ∅ (replicate 13 TMain) s1)
    as [s2|] eqn:Hrun2;
    [|exfalso; compute_state s1 Hrun1; vm_compute in Hrun2; discriminate Hrun2].
  exists s1, s2. split; [reflexivity|]. split; [exact Hrun2|].
  destruct (record_only_grows demoWorld demoRange demoSh chainWorkflow ∅ []
              (replicate 6 TMain) (replicate 13 TMain) s1 s2 Hrun1 Hrun2)
    as (Hgrow & Hgate & _).
  assert (Hrec : taskCompleted s1 !! "A" = Some true)
    by (compute_state s1 Hrun1; vm_compute; reflexivity).
  split; [exact Hrec|]. split; [apply (Hgrow "A" true Hrec)|].
  apply Hgate. compute_state s1 Hrun1. vm_compute. reflexivity.
Defined.

Lemma task_reports_consistent_witness :
  exists s,
    run demoWorld demoRange demoSh chainWorkflow ∅ (replicate 19 TMain) (initState [])
    = Some s
    /\ EvErrored 1 ∈ trace s
    /\ EvCmdEnd 1 false ∈ trace s.
Proof.
  run_schedule s Hrun.
  destruct (task_reports_consistent demoWorld demoRange demoSh chainWorkflow ∅ []
              (replicate 19 TMain) s 1 Hrun) as (_ & Hfailed & _).
  assert (He : EvErrored 1 ∈ trace s) by (compute_state s Hrun; in_list).
  split; [exact He|]. exact (Hfailed He).
Defined.

Lemma sequential_task_runs_alone_witness :
  exists s,
    run demoWorld demoRange demoSh chainWorkflow ∅ (replicate 19 TMain) (initState [])
    = Some s
    /\ Tasks chainWorkflow !! 0 = Some taskA
    /\ Parallel taskA = false
    /\ forall l1 ej l2,
        trace s = l1 ++ ej :: l2 -> evIdx ej = Some 1 ->
        (EvSkip 0 ∈ l2
         \/ EvDispatch 0 ∈ l2 /\ EvMark 0 (Name taskA) ∈ l2
            /\ (EvCompleted 0 ∈ l2 \/ EvErrored 0 ∈ l2))
        /\ forall ei, ei ∈ l1 -> evIdx ei <> Some 0.
Proof.
  run_schedule s Hrun. split; [reflexivity|]. split; [reflexivity|].
  exact (sequential_task_runs_alone demoWorld demoRange demoSh chainWorkflow ∅ []
           (replicate 19 TMain) s 0 1 taskA Hrun eq_refl eq_refl (le_n 1)).
Defined.

Lemma sequential_workflow_is_a_fold_witness :
  (forall t, t ∈ Tasks chainWorkflow -> Parallel t = false)
  /\ runAllTasks demoWorld demoRange demoSh chainWorkflow ∅ []
     = runAllSequential demoWorld demoRange demoSh chainWorkflow ∅ [].
Proof.
  assert (Hseq : forall t, t ∈ Tasks chainWorkflow -> Parallel t = false) by all_sequential.
  split; [exact Hseq|].
  destruct (sequential_workflow_is_a_fold demoWorld demoRange demoSh chainWorkflow ∅ [] Hseq)
    as (_ & _ & Hfold).
  exact Hfold.
Defined.

Lemma commands_run_in_order_witness :
  exists s,
    run demoWorld demoRange demoSh chainWorkflow ∅ (replicate 19 TMain) (initState [])
    = Some s
    /\ Tasks chainWorkflow !! 2 = Some taskC
    /\ EvCompleted 2 ∈ trace s
    /\ Forall2 (Rendering demoWorld demoRange ∅) (startedOf 2 (trace s)) (Cmds taskC).
Proof.
  run_schedule s Hrun. split; [reflexivity|].
  destruct (commands_run_in_order demoWorld demoRange demoSh chainWorkflow ∅ []
              (replicate 19 TMain) s 2 taskC Hrun eq_refl) as (n & _ & Hall & Hcompleted & _).
  assert (Hc : EvCompleted 2 ∈ trace s) by (compute_state s Hrun; in_list).
  split; [exact Hc|]. rewrite (Hcompleted Hc) in Hall. exact Hall.
Defined.

Lemma tasks_decided_in_file_order_witness :
  exists s,
    run demoWorld demoRange demoSh failingParallel ∅ failingSchedule (initState []) = Some s
    /\ Tasks failingParallel !! 0 = Some taskF
    /\ forall l1 ej l2,
        trace s = l1 ++ ej :: l2 -> evIdx ej = Some 1 ->
        EvSkip 0 ∈ l2 \/ EvDispatch 0 ∈ l2 /\ (Parallel taskF = true -> EvSpawn 0 ∈ l2).
Proof.
  run_schedule s Hrun. split; [reflexivity|].
  exact (tasks_decided_in_file_order demoWorld demoRange demoSh failingParallel ∅ []
           failingSchedule s 0 1 taskF Hrun eq_refl (le_n 1)).
Defined.

Lemma single_variable_literal_witness :
  braceFree "X" = true
  /\ wellFormed [Text "echo "; Tok "X"; Text " "; Tok "Y"] = true
  /\ replacePlaceholders demoWorld demoRange []
       (flatten [Text "echo "; Tok "X"; Text " "; Tok "Y"]) {["X" := "{{X}}!"]}
     = "echo {{X}}! {{Y}}".
Proof.
  split; [reflexivity|]. split; [reflexivity|].
  exact (single_variable_literal demoWorld demoRange demoRange_perm [] "X" "{{X}}!"
           [Text "echo "; Tok "X"; Text " "; Tok "Y"] eq_refl eq_refl).
Defined.


Lemma deferred_release_unless_fatal_witness :
  exists x,
    procRun demoWorld demoRange demoSh failingParallel ∅ (map PThread failingSchedule)
      (Alive (initState []))
    = Some x
    /\ procStatus x = Some 1
    /\ EvDispatch 0 ∈ trace (procState x)
    /\ exists l1 l2 l3 l4,
        trace (procState x)
        = l1 ++ EvWgDone 0 :: l2 ++ EvRelease 0 :: l3 ++ EvMark 0 (Name taskF) :: l4
        /\ EvSpawn 0 ∈ l4
        /\ (EvCompleted 0 ∈ l4 \/ EvErrored 0 ∈ l4).
Proof.
  proc_schedule x Hrun.
  assert (Hex : procStatus x = Some 1) by (compute_state x Hrun; reflexivity).
  assert (Hd : EvDispatch 0 ∈ trace (procState x)) by (compute_state x Hrun; in_list).
  split; [exact Hex|]. split; [exact Hd|].
  destruct (deferred_release_unless_fatal demoWorld demoRange demoSh failingParallel ∅ []
              (map PThread failingSchedule) x Hrun) as [Hexit _].
  apply (Hexit 1 0 taskF Hex); [lia|reflexivity|reflexivity|exact Hd].
Defined.

Lemma summary_line_witness :
  exists x,
    procRun demoWorld demoRange demoSh chainWorkflow ∅ (map PThread (replicate 19 TMain))
      (Alive (initState []))
    = Some x
    /\ procStatus x = Some 1
    /\ exists rest,
        trace (procState x) = EvSummary (bool_decide (1 = 0)) :: rest
        /\ forall ok, EvSummary ok ∉ rest.
Proof.
  proc_schedule x Hrun.
  pose proof (summary_line demoWorld demoRange demoSh chainWorkflow ∅ []
                (map PThread (replicate 19 TMain)) x Hrun) as Hlast.
  assert (Hex : procStatus x = Some 1) by (compute_state x Hrun; reflexivity).
  rewrite Hex in Hlast. destruct Hlast as (_ & Hlast & _).
  split; [exact Hex|]. apply Hlast. lia.
Defined.



Lemma sequential_workflow_never_fatal_witness :
  exists x,
    procRun demoWorld demoRange demoSh chainWorkflow ∅ (map PThread (replicate 19 TMain))
      (Alive (initState []))
    = Some x
    /\ (forall t, t ∈ Tasks chainWorkflow -> Parallel t = false)
    /\ procFatal x = None
    /\ procStatus x = Some 1
    /\ exists i, EvErrored i ∈ trace (procState x).
Proof.
  proc_schedule x Hrun.
  assert (Hseq : forall t, t ∈ Tasks chainWorkflow -> Parallel t = false) by all_sequential.
  destruct (sequential_workflow_never_fatal demoWorld demoRange demoSh chainWorkflow ∅ []
              (map PThread (replicate 19 TMain)) x Hseq Hrun) as [Hnone Hstatus].
  assert (Hex : procStatus x = Some 1) by (compute_state x Hrun; reflexivity).
  split; [exact Hseq|]. split; [exact Hnone|]. split; [exact Hex|].
  destruct (Hstatus 1 Hex) as [_ Hone]. by apply Hone.
Defined.

Lemma rayder_without_workflow_file_witness :
  flagParse ["-q"; "DOMAIN=example.host"] = FlagsParsed "" true ["DOMAIN=example.host"]
  /\ noWorkflowFlag ["-q"; "DOMAIN=example.host"] = true
  /\ exists stderr,
      rayder demoWorld demoRange demoReadFile demoYaml demoReadError demoYamlError
        demoFlagOutput [] ["-q"; "DOMAIN=example.host"]
      = Exited 0 stderr
      /\ exists line, line ∈ stderr /\ String.prefix "Usage:" line = true.
Proof.
  split; [reflexivity|]. split; [reflexivity|].
  apply (rayder_without_workflow_file demoWorld demoRange demoReadFile demoYaml
           demoReadError demoYamlError demoFlagOutput [] ["-q"; "DOMAIN=example.host"]
           "" true ["DOMAIN=example.host"]).
  - reflexivity.
  - right. reflexivity.
Defined.

(** C9, as stated, fails: without [-w], the flag package rejects the
    command lines [-bogus] and [-q=maybe], and the process exits with
    status 2 before [main] looks at the path of the workflow.  So the
    status is not 0 for every combination of the other arguments. *)
Lemma rejected_flag_counterexample :
  noWorkflowFlag ["-bogus"] = true
  /\ rayder demoWorld demoRange demoReadFile demoYaml demoReadError demoYamlError
       demoFlagOutput [] ["-bogus"]
     = Exited 2 (demoFlagOutput ["-bogus"])
  /\ noWorkflowFlag ["-q=maybe"] = true
  /\ rayder demoWorld demoRange demoReadFile demoYaml demoReadError demoYamlError
       demoFlagOutput [] ["-q=maybe"]
     = Exited 2 (demoFlagOutput ["-q=maybe"])
  /\ ~ (forall argv,
          noWorkflowFlag argv = true ->
          exists stderr,
            rayder demoWorld demoRange demoReadFile demoYaml demoReadError demoYamlError
              demoFlagOutput [] argv
            = Exited 0 stderr).
Proof.
  split; [reflexivity|]. split; [reflexivity|]. split; [reflexivity|].
  split; [reflexivity|].
  intros Hall. destruct (Hall ["-bogus"] eq_refl) as [stderr Hexit].
  discriminate Hexit.
Qed.

(** C1: the parallel task P is followed by T, which requires P.  The
    goroutine of P runs its two commands, both with success, and stands at
    its write [taskCompleted[name] = true] while the control thread stands
    at the dependency check of T, which reads the map.  The runtime stops
    the process there with [concurrent map read and map write]: the status
    is 2 although no command and no task has failed, and no summary is
    printed. *)
Theorem exit_status_race :
  exists s,
    procRun demoWorld demoRange demoSh raceWorkflow ∅ (map PThread raceThreads ++ [PRuntime])
      (Alive (initState []))
    = Some (Stopped fatalReadWrite s)
    /\ procStatus (Stopped fatalReadWrite s) = Some 2
    /\ rev (trace s)
       = [EvDispatch 0; EvSpawn 0; EvRunning 0; EvCmdStart 0 "echo p1"; EvCmdEnd 0 true;
          EvCmdStart 0 "echo p2"; EvCmdEnd 0 true; EvCompleted 0]
    /\ mainPc s = MLoop 1
    /\ gos s !! 0 = Some (taskP, GBody PMark)
    /\ (forall i, EvErrored i ∉ trace s)
    /\ (forall i, EvCmdEnd i false ∉ trace s)
    /\ (forall ok, EvSummary ok ∉ trace s).
Proof.
  eexists. split; [vm_compute; reflexivity|].
  split; [reflexivity|]. split; [vm_compute; reflexivity|].
  split; [reflexivity|]. split; [vm_compute; reflexivity|].
  split; [|split]; intros ?; not_in_trace.
Qed.

(** C7: the parallel task F fails and stands at its write of
    [taskCompleted] while the control thread stands at the dependency check
    of G, which requires F.  The runtime stops the process there: G is never
    evaluated, and A, which requires nothing and would pass the gate on any
    record, gets no dispatch opportunity either; the process has ended
    with status 2. *)
Theorem early_abort_race :
  exists s,
    procRun demoWorld demoRange demoSh abortWorkflow ∅ (map PThread abortThreads ++ [PRuntime])
      (Alive (initState []))
    = Some (Stopped fatalReadWrite s)
    /\ EvErrored 0 ∈ trace s
    /\ Tasks abortWorkflow !! 1 = Some taskG
    /\ Tasks abortWorkflow !! 2 = Some taskA
    /\ (forall record, dependencyGate taskA record = true)
    /\ (forall e, e ∈ trace s -> evIdx e = Some 0)
    /\ (forall pid,
          procStep demoWorld demoRange demoSh abortWorkflow ∅ pid (Stopped fatalReadWrite s)
          = None)
    /\ procStatus (Stopped fatalReadWrite s) = Some 2.
Proof.
  eexists. split; [vm_compute; reflexivity|].
  split; [in_list|]. split; [reflexivity|]. split; [reflexivity|].
  split; [intros record; reflexivity|]. split; [|split; [intros []|]; reflexivity].
  intros e He. apply list_elem_of_In in He. vm_compute in He.
  repeat (destruct He as [<-|He]; [reflexivity|]). destruct He.
Qed.
